(** * migration-tools: the transform-and-reconcile merge engine

    A shallow embedding of [migration_tools/transform.py] and
    [migration_tools/merge.py], followed by the properties of the
    specification that are settled against it.

    Conventions of the embedding:
    - a Python [int] is a [Z]; a [str] is a [string] whose characters are
      read as code points; the case mappings and the white-space class are
      those of Python on the ASCII range;
    - a nullable column ([Optional[...]]) is an [option];
    - a [dict] or a table keyed by its primary key is a [gmap], a [set]
      is a [gset];
    - [datetime.utcnow()], the statements sent through a [Connection], the
      logger and the transaction calls are effects on an explicit [World];
    - the legacy connection is given by the rows its two queries answer,
      in cursor order; the target server keeps committed tables, the view
      of the open transaction and the sequence behind [tbl_user.id], which
      PostgreSQL does not roll back; any statement may be rejected, as the
      world decides;
    - opening a connection, [begin], [commit], [rollback] and [close] are
      taken not to fail. *)

From Stdlib Require Import ZArith NArith Ascii List Bool Lia.
From stdpp Require Import base option gmap strings list fin_maps.

Import ListNotations.
Local Open Scope Z_scope.

(* ===================================================================== *)
(** ** Python [str] methods used by the program                          *)
(* ===================================================================== *)

Module Py.

Definition is_ascii_lower (c : ascii) : bool :=
  let n := N_of_ascii c in ((97 <=? n) && (n <=? 122))%N.

Definition is_ascii_upper (c : ascii) : bool :=
  let n := N_of_ascii c in ((65 <=? n) && (n <=? 90))%N.

Definition upper_char (c : ascii) : ascii :=
  if is_ascii_lower c then ascii_of_N (N_of_ascii c - 32) else c.

Definition lower_char (c : ascii) : ascii :=
  if is_ascii_upper c then ascii_of_N (N_of_ascii c + 32) else c.

(** [str.isspace] on one character: TAB..CR, FS..US and the space. *)
Definition isspace (c : ascii) : bool :=
  let n := N_of_ascii c in
  (((9 <=? n) && (n <=? 13)) || ((28 <=? n) && (n <=? 32)))%N.

Fixpoint map_str (f : ascii -> ascii) (s : string) : string :=
  match s with
  | EmptyString => EmptyString
  | String c s' => String (f c) (map_str f s')
  end.

(** [s.upper()] and [s.lower()]. *)
Definition upper : string -> string := map_str upper_char.
Definition lower : string -> string := map_str lower_char.

Fixpoint lstrip (s : string) : string :=
  match s with
  | EmptyString => EmptyString
  | String c s' => if isspace c then lstrip s' else s
  end.

Fixpoint rstrip (s : string) : string :=
  match s with
  | EmptyString => EmptyString
  | String c s' =>
      match rstrip s' with
      | EmptyString => if isspace c then EmptyString else String c EmptyString
      | r => String c r
      end
  end.

(** [s.strip()] with no argument. *)
Definition strip (s : string) : string := rstrip (lstrip s).

(** [s.title()]: a cased character is upper-cased when the previous
    character is not cased, lower-cased otherwise. *)
Fixpoint title_from (prev_cased : bool) (s : string) : string :=
  match s with
  | EmptyString => EmptyString
  | String c s' =>
      if is_ascii_lower c || is_ascii_upper c
      then String (if prev_cased then lower_char c else upper_char c)
                  (title_from true s')
      else String c (title_from false s')
  end.

Definition title : string -> string := title_from false.

(** Truthiness of a [str]: non-empty. *)
Definition nonempty (s : string) : bool :=
  match s with EmptyString => false | String _ _ => true end.

(** Truthiness of an [Optional[str]]: neither [None] nor [""]. *)
Definition truthy (o : option string) : bool :=
  match o with None => false | Some s => nonempty s end.

(** [o or ""]. *)
Definition or_empty (o : option string) : string :=
  match o with
  | Some s => if nonempty s then s else ""
  | None => ""
  end.

End Py.

(* ===================================================================== *)
(** ** Exceptions and results                                            *)
(* ===================================================================== *)

(** [UnknownAspectError] carries the offending [kind] (the message of the
    source is built from its [repr]); every other exception of a run comes
    from the database driver. *)
Inductive exn : Type :=
| UnknownAspectError (kind : option string)
| DatabaseError (msg : string).

Inductive result (A : Type) : Type :=
| Ok (a : A)
| Raise (e : exn).

Arguments Ok {A} a.
Arguments Raise {A} e.

(* ===================================================================== *)
(** ** transform.py                                                      *)
(* ===================================================================== *)

Definition _KIND_TO_ASPECT : gmap string string :=
  list_to_map
    [ ("BACKGROUND", "card-background");
      ("FRAME", "card-background");
      ("CHARACTER", "card-background");
      ("MASK", "card-background");
      ("LABEL", "card-background");
      ("PASSNAME", "sega-passname") ].

Definition derive_aspect_id (kind : option string) : result string :=
  let key := Py.upper (Py.or_empty kind) in
  match _KIND_TO_ASPECT !! key with
  | None => Raise (UnknownAspectError kind)
  | Some aspect => Ok aspect
  end.

Definition build_image_labels (kind category : option string) : list string :=
  let labels : list string := [] in
  let labels :=
    match kind with
    | Some k => if Py.nonempty k then labels ++ [Py.lower k] else labels
    | None => labels
    end in
  let labels :=
    match category with
    | Some c =>
        if Py.nonempty c then
          let normalized := Py.strip c in
          if Py.nonempty normalized then labels ++ [Py.lower normalized]
          else labels
        else labels
    | None => labels
    end in
  match labels with
  | [] => ["unclassified"]
  | _ :: _ => labels
  end.

(** [label and label.strip()] as a condition. *)
Definition nonblank (o : option string) : bool :=
  match o with
  | Some s => Py.nonempty s && Py.nonempty (Py.strip s)
  | None => false
  end.

Definition build_image_name (label : option string) (uuid : string)
    (kind : option string) : string :=
  if nonblank label then Py.strip (Py.or_empty label)
  else
    let fallback_kind :=
      if Py.truthy kind then Py.title (Py.or_empty kind) else "Image" in
    fallback_kind +:+ "-" +:+ uuid.

(** The [for candidate in (...)] loop of [build_image_description]. *)
Fixpoint first_nonblank (candidates : list (option string)) : option string :=
  match candidates with
  | [] => None
  | candidate :: rest =>
      if nonblank candidate then Some (Py.strip (Py.or_empty candidate))
      else first_nonblank rest
  end.

Definition build_image_description (label category kind : option string)
    : string :=
  match first_nonblank
          [ label; category;
            if Py.truthy kind then Some (Py.title (Py.or_empty kind))
            else None ] with
  | Some description => description
  | None => "Legacy image imported via migration-tools"
  end.

Definition normalize_privileges (_ : option (list string)) : list string :=
  ["NORMAL"].

Record MergeSectionResult : Type := mkSection {
  processed : Z;
  inserted : Z;
  updated : Z;
  skipped : Z
}.

Definition MergeSectionResult0 : MergeSectionResult := mkSection 0 0 0 0.

(* ===================================================================== *)
(** ** Rows, tables and the target database                              *)
(* ===================================================================== *)

(** A [datetime]: the wall-clock fields as microseconds on the proleptic
    calendar, and [tzinfo] as the offset from UTC in microseconds
    ([None] for a naive value). *)
Record datetime : Type := mkDatetime {
  dt_wall : Z;
  dt_tzinfo : option Z
}.

(** [value.astimezone(timezone.utc)] for an aware value of offset [off]. *)
Definition astimezone_utc (value : datetime) (off : Z) : datetime :=
  {| dt_wall := dt_wall value - off; dt_tzinfo := Some 0 |}.

(** [value.replace(tzinfo=None)]. *)
Definition replace_tzinfo_None (value : datetime) : datetime :=
  {| dt_wall := dt_wall value; dt_tzinfo := None |}.

(** Source schema: [users] and [images]. *)
Record LegacyUser : Type := mkLegacyUser {
  lu_id : Z;
  lu_username : string;
  lu_hashed_password : string;
  lu_created_at : option datetime
}.

Record LegacyImage : Type := mkLegacyImage {
  li_uuid : string;
  li_kind : option string;
  li_label : option string;
  li_file_name : string;
  li_uploaded_by : option Z;
  li_uploaded_at : option datetime;
  li_category : option string;
  li_trace_id : option string
}.

(** Target schema: [tbl_user], [tbl_image], [tbl_image_aspect]. *)
Record TargetUser : Type := mkTargetUser {
  u_id : Z;
  u_username : string;
  u_password : string;
  u_phone : option string;
  u_privileges : list string;
  u_created_at : datetime;
  u_updated_at : datetime
}.

Record TargetImage : Type := mkTargetImage {
  i_uuid : string;
  i_user_id : Z;
  i_aspect_id : string;
  i_name : string;
  i_description : string;
  i_visibility : Z;
  i_labels : list string;
  i_file_name : string;
  i_metadata_id : option string;
  i_created_at : datetime;
  i_updated_at : datetime
}.

Record Aspect : Type := mkAspect {
  a_id : string;
  a_name : string;
  a_description : string;
  a_ratio_width_unit : Z;
  a_ratio_height_unit : Z
}.

(** Each table is indexed by its primary key. *)
Record Tables : Type := mkTables {
  tbl_user : gmap Z TargetUser;
  tbl_image : gmap string TargetImage;
  tbl_image_aspect : gmap string Aspect
}.

(** [INSERT ... ON CONFLICT (key) DO UPDATE SET ...] for one parameter set:
    [on_conflict existing excluded] is the row the [SET] list leaves. *)
Definition upsert_row {K R : Type} `{Countable K} (key : R -> K)
    (on_conflict : R -> R -> R) (tbl : gmap K R) (excluded : R) : gmap K R :=
  match tbl !! key excluded with
  | None => <[key excluded := excluded]> tbl
  | Some existing => <[key excluded := on_conflict existing excluded]> tbl
  end.

(** The statement run once per parameter set, in order ([executemany]). *)
Definition upsert_rows {K R : Type} `{Countable K} (key : R -> K)
    (on_conflict : R -> R -> R) (tbl : gmap K R) (payload : list R)
    : gmap K R :=
  foldl (upsert_row key on_conflict) tbl payload.

(** The [SET] list of [_upsert_users]: everything but [id], [created_at]. *)
Definition user_on_conflict (existing excluded : TargetUser) : TargetUser :=
  {| u_id := u_id existing;
     u_username := u_username excluded;
     u_password := u_password excluded;
     u_phone := u_phone excluded;
     u_privileges := u_privileges excluded;
     u_created_at := u_created_at existing;
     u_updated_at := u_updated_at excluded |}.

(** The [SET] list of [_upsert_images]: everything but [uuid],
    [created_at]. *)
Definition image_on_conflict (existing excluded : TargetImage) : TargetImage :=
  {| i_uuid := i_uuid existing;
     i_user_id := i_user_id excluded;
     i_aspect_id := i_aspect_id excluded;
     i_name := i_name excluded;
     i_description := i_description excluded;
     i_visibility := i_visibility excluded;
     i_labels := i_labels excluded;
     i_file_name := i_file_name excluded;
     i_metadata_id := i_metadata_id excluded;
     i_created_at := i_created_at existing;
     i_updated_at := i_updated_at excluded |}.

(** [ON CONFLICT (id) DO NOTHING]. *)
Definition aspect_on_conflict (existing excluded : Aspect) : Aspect := existing.

(** A PostgreSQL sequence: [nextval] returns [last_value] itself when
    [is_called] is false, [last_value + 1] otherwise. *)
Record Sequence : Type := mkSequence {
  last_value : Z;
  is_called : bool
}.

Definition setval (value : Z) (called : bool) : Sequence :=
  {| last_value := value; is_called := called |}.

Definition nextval (s : Sequence) : Z * Sequence :=
  let v := if is_called s then last_value s + 1 else last_value s in
  (v, {| last_value := v; is_called := true |}).

(** The [n]-th value drawn after state [s] (counting from 0). *)
Fixpoint nextval_nth (n : nat) (s : Sequence) : Z :=
  match n with
  | O => fst (nextval s)
  | S n' => nextval_nth n' (snd (nextval s))
  end.

(** [SELECT MAX(id) FROM tbl_user]: [None] is SQL NULL (empty table). *)
Definition max_id (tbl : gmap Z TargetUser) : option Z :=
  foldr (fun k acc => Some (match acc with Some m => Z.max k m | None => k end))
        None (elements (dom tbl)).

(** [COALESCE(x, d)]. *)
Definition COALESCE (x : option Z) (d : Z) : Z :=
  match x with Some v => v | None => d end.

(** The statements the program sends to the target connection. *)
Inductive Stmt : Type :=
| SelectUserIds
| SelectImageUuids
| SelectAspectIds
| InsertAspects (payload : list Aspect)
| UpsertUsers (payload : list TargetUser)
| UpsertImages (payload : list TargetImage)
| SyncUserIdSeq.

(** The target server as seen through one connection: the committed
    tables, the tables as the session's open transaction sees them, the
    sequence behind [tbl_user.id] (sequence changes are not transactional in
    PostgreSQL: [setval] is never undone by a rollback) and the statements
    sent so far. *)
Record TargetDb : Type := mkTargetDb {
  committed : Tables;
  session : Tables;
  tbl_user_id_seq : Sequence;
  sent : list Stmt
}.

Definition apply_stmt (s : Stmt) (tables : Tables) (seq : Sequence)
    : Tables * Sequence :=
  match s with
  | SelectUserIds | SelectImageUuids | SelectAspectIds => (tables, seq)
  | InsertAspects payload =>
      ({| tbl_user := tbl_user tables;
          tbl_image := tbl_image tables;
          tbl_image_aspect :=
            upsert_rows a_id aspect_on_conflict (tbl_image_aspect tables)
                        payload |}, seq)
  | UpsertUsers payload =>
      ({| tbl_user :=
            upsert_rows u_id user_on_conflict (tbl_user tables) payload;
          tbl_image := tbl_image tables;
          tbl_image_aspect := tbl_image_aspect tables |}, seq)
  | UpsertImages payload =>
      ({| tbl_user := tbl_user tables;
          tbl_image :=
            upsert_rows i_uuid image_on_conflict (tbl_image tables) payload;
          tbl_image_aspect := tbl_image_aspect tables |}, seq)
  | SyncUserIdSeq =>
      (tables, setval (COALESCE (max_id (tbl_user tables)) 0) true)
  end.

(* ===================================================================== *)
(** ** The world the program runs in, and its monad                      *)
(* ===================================================================== *)

Inductive Warning : Type :=
| WarnNoUploader (uuid : string)
| WarnUploaderMissing (uuid : string) (uploaded_by : Z)
| WarnUnknownAspect (uuid : string) (exc : exn).

Inductive Conn : Type := Source | Target.

Inductive TxEvent : Type :=
| Connect (c : Conn)
| Begin (c : Conn)
| Commit (c : Conn)
| Rollback (c : Conn)
| Close (c : Conn)
| Dispose (c : Conn).

(** [utc_clock n] is what the [n]-th call of [datetime.utcnow()] reads;
    [db_fault n s t] tells whether the target server rejects statement [s],
    the [n]-th it receives, in table state [t] (constraint violations,
    driver errors), and with which exception. Both are fixed for a world. *)
Record World : Type := mkWorld {
  utc_clock : nat -> Z;
  clock_reads : nat;
  db_fault : nat -> Stmt -> Tables -> option exn;
  target : TargetDb;
  warnings : list Warning;
  tx_events : list TxEvent
}.

Definition set_clock_reads (n : nat) (w : World) : World :=
  {| utc_clock := utc_clock w; clock_reads := n; db_fault := db_fault w;
     target := target w; warnings := warnings w; tx_events := tx_events w |}.

Definition set_target (d : TargetDb) (w : World) : World :=
  {| utc_clock := utc_clock w; clock_reads := clock_reads w;
     db_fault := db_fault w; target := d; warnings := warnings w;
     tx_events := tx_events w |}.

Definition set_warnings (l : list Warning) (w : World) : World :=
  {| utc_clock := utc_clock w; clock_reads := clock_reads w;
     db_fault := db_fault w; target := target w; warnings := l;
     tx_events := tx_events w |}.

Definition set_tx_events (l : list TxEvent) (w : World) : World :=
  {| utc_clock := utc_clock w; clock_reads := clock_reads w;
     db_fault := db_fault w; target := target w; warnings := warnings w;
     tx_events := l |}.

(** A computation either returns or raises, and leaves a world behind in
    both cases. *)
Definition M (A : Type) : Type := World -> result A * World.

Definition ret {A : Type} (a : A) : M A := fun w => (Ok a, w).

Definition raise {A : Type} (e : exn) : M A := fun w => (Raise e, w).

Definition bind {A B : Type} (m : M A) (k : A -> M B) : M B :=
  fun w =>
    match m w with
    | (Ok a, w') => k a w'
    | (Raise e, w') => (Raise e, w')
    end.

Notation "'let*' x ':=' m 'in' k" := (bind m (fun x => k))
  (at level 10, x pattern, m at level 100, k at level 200).

Notation "m ';;;' k" := (bind m (fun _ => k))
  (at level 100, right associativity).

(** [try: m  except Exception: handler; raise  else: orelse]. *)
Definition try_except_else {A B : Type} (m : M A) (handler : exn -> M B)
    (orelse : A -> M B) : M B :=
  fun w =>
    match m w with
    | (Ok a, w') => orelse a w'
    | (Raise e, w') => handler e w'
    end.

(** [try: m  finally: cleanup]. *)
Definition try_finally {A : Type} (m : M A) (cleanup : M unit) : M A :=
  fun w =>
    match m w with
    | (r, w') =>
        match cleanup w' with
        | (Ok _, w'') => (r, w'')
        | (Raise e, w'') => (Raise e, w'')
        end
    end.

(** [datetime.utcnow()]: a naive value. *)
Definition utcnow : M datetime :=
  fun w =>
    (Ok {| dt_wall := utc_clock w (clock_reads w); dt_tzinfo := None |},
     set_clock_reads (S (clock_reads w)) w).

(** [logger.warning(...)]. *)
Definition log_warning (x : Warning) : M unit :=
  fun w => (Ok tt, set_warnings (warnings w ++ [x]) w).

Definition tx_event (ev : TxEvent) : M unit :=
  fun w => (Ok tt, set_tx_events (tx_events w ++ [ev]) w).

(** [target_conn.execute(stmt, payload)]: the statement is recorded; it
    either raises and changes nothing, or takes effect in the session. *)
Definition execute (s : Stmt) : M unit :=
  fun w =>
    let d := target w in
    let logged := sent d ++ [s] in
    match db_fault w (length (sent d)) s (session d) with
    | Some e =>
        (Raise e,
         set_target {| committed := committed d; session := session d;
                       tbl_user_id_seq := tbl_user_id_seq d;
                       sent := logged |} w)
    | None =>
        let '(tables, seq) := apply_stmt s (session d) (tbl_user_id_seq d) in
        (Ok tt,
         set_target {| committed := committed d; session := tables;
                       tbl_user_id_seq := seq; sent := logged |} w)
    end.

(** Reading the session's tables. *)
Definition get_session : M Tables := fun w => (Ok (session (target w)), w).

(** A fresh connection, and [begin()] on it: the session starts from the
    committed state. The source is read-only: only the event is kept. *)
Definition connect (c : Conn) : M unit :=
  fun w =>
    let d := target w in
    let w :=
      match c with
      | Source => w
      | Target =>
          set_target {| committed := committed d; session := committed d;
                        tbl_user_id_seq := tbl_user_id_seq d;
                        sent := sent d |} w
      end in
    tx_event (Connect c) w.

Definition begin (c : Conn) : M unit := tx_event (Begin c).

Definition discard_session (w : World) : World :=
  let d := target w in
  set_target {| committed := committed d; session := committed d;
                tbl_user_id_seq := tbl_user_id_seq d; sent := sent d |} w.

Definition rollback (c : Conn) : M unit :=
  fun w =>
    tx_event (Rollback c)
      (match c with Source => w | Target => discard_session w end).

Definition commit (c : Conn) : M unit :=
  fun w =>
    let d := target w in
    tx_event (Commit c)
      (match c with
       | Source => w
       | Target =>
           set_target {| committed := session d; session := session d;
                         tbl_user_id_seq := tbl_user_id_seq d;
                         sent := sent d |} w
       end).

(** Leaving the [with] block closes the connection, which abandons
    whatever its transaction has not committed. *)
Definition close (c : Conn) : M unit :=
  fun w =>
    tx_event (Close c)
      (match c with Source => w | Target => discard_session w end).

Definition dispose (c : Conn) : M unit := tx_event (Dispose c).

(** The legacy connection, given by its answers to the two [SELECT ...
    ORDER BY ...] statements of the program: the rows in cursor order, or
    the exception the driver raises. *)
Record SourceConn : Type := mkSourceConn {
  select_users : result (list LegacyUser);
  select_images : result (list LegacyImage)
}.

Definition source_execute {A : Type} (answer : result (list A)) : M (list A) :=
  fun w =>
    match answer with
    | Ok rows => (Ok rows, w)
    | Raise e => (Raise e, w)
    end.

(* ===================================================================== *)
(** ** merge.py                                                          *)
(* ===================================================================== *)

Record MergeConfig : Type := mkMergeConfig {
  source_url : string;
  target_url : string;
  batch_size : Z;
  dry_run : bool
}.

Record MergeResult : Type := mkMergeResult {
  users : MergeSectionResult;
  images : MergeSectionResult
}.

Definition incr_processed (s : MergeSectionResult) : MergeSectionResult :=
  {| processed := processed s + 1; inserted := inserted s;
     updated := updated s; skipped := skipped s |}.

Definition incr_inserted (s : MergeSectionResult) : MergeSectionResult :=
  {| processed := processed s; inserted := inserted s + 1;
     updated := updated s; skipped := skipped s |}.

Definition incr_updated (s : MergeSectionResult) : MergeSectionResult :=
  {| processed := processed s; inserted := inserted s;
     updated := updated s + 1; skipped := skipped s |}.

Definition incr_skipped (s : MergeSectionResult) : MergeSectionResult :=
  {| processed := processed s; inserted := inserted s;
     updated := updated s; skipped := skipped s + 1 |}.

(** ** helpers *)

(** [_collect_existing_ids(conn, "tbl_user")]. *)
Definition _collect_existing_ids_tbl_user : M (gset Z) :=
  execute SelectUserIds;;;
  let* t := get_session in
  ret (dom (tbl_user t)).

(** [_collect_existing_ids(conn, "tbl_image", column="uuid")]. *)
Definition _collect_existing_ids_tbl_image : M (gset string) :=
  execute SelectImageUuids;;;
  let* t := get_session in
  ret (dom (tbl_image t)).

(** [_sync_sequence(conn, "tbl_user_id_seq", "tbl_user", "id")], its only
    use: [SELECT setval(:sequence, COALESCE((SELECT MAX(id) FROM tbl_user),
    0), true)]. *)
Definition _sync_sequence : M unit := execute SyncUserIdSeq.

Definition _ensure_datetime (value : option datetime) : M datetime :=
  match value with
  | None => utcnow
  | Some v =>
      match dt_tzinfo v with
      | Some off => ret (replace_tzinfo_None (astimezone_utc v off))
      | None => ret v
      end
  end.

(** ** users *)

Definition _adapt_user_row (row : LegacyUser) : M TargetUser :=
  let* created_at := _ensure_datetime (lu_created_at row) in
  let* now := utcnow in
  ret {| u_id := lu_id row;
         u_username := lu_username row;
         u_password := lu_hashed_password row;
         u_phone := None;
         u_privileges := normalize_privileges None;
         u_created_at := created_at;
         u_updated_at := now |}.

Definition _upsert_users (payload : list TargetUser) : M unit :=
  match payload with
  | [] => ret tt
  | _ :: _ => execute (UpsertUsers payload)
  end.

(** The [for row in rows] loop of [merge_users]; the loop variables are
    [summary], [existing_ids] and [payload]. *)
Fixpoint merge_users_loop (batch_size : Z) (rows : list LegacyUser)
    (summary : MergeSectionResult) (existing_ids : gset Z)
    (payload : list TargetUser)
    : M (MergeSectionResult * list TargetUser) :=
  match rows with
  | [] => ret (summary, payload)
  | row :: rows' =>
      let summary := incr_processed summary in
      let* entry := _adapt_user_row row in
      let '(summary, existing_ids) :=
        if decide (lu_id row ∈ existing_ids)
        then (incr_updated summary, existing_ids)
        else (incr_inserted summary, {[lu_id row]} ∪ existing_ids) in
      let payload := payload ++ [entry] in
      let* payload :=
        if Z.of_nat (length payload) >=? batch_size
        then (_upsert_users payload;;; ret [])
        else ret payload in
      merge_users_loop batch_size rows' summary existing_ids payload
  end.

Definition merge_users (source_conn : SourceConn) (batch_size : Z)
    : M MergeSectionResult :=
  let summary := MergeSectionResult0 in
  let* existing_ids := _collect_existing_ids_tbl_user in
  let* rows := source_execute (select_users source_conn) in
  let* (summary, payload) :=
    merge_users_loop batch_size rows summary existing_ids [] in
  _upsert_users payload;;;
  _sync_sequence;;;
  ret summary.

(** ** images *)

(** The two entries of the [required] dict of [ensure_required_aspects],
    in its order. *)
Definition required_card_background : Aspect :=
  {| a_id := "card-background";
     a_name := "Card Background";
     a_description := "竖版卡片，符合ID-1卡片比例的图片";
     a_ratio_width_unit := 768;
     a_ratio_height_unit := 1220 |}.

Definition required_sega_passname : Aspect :=
  {| a_id := "sega-passname";
     a_name := "SEGA Passname";
     a_description := "横版通行证，符合PASSNAME比例的图片";
     a_ratio_width_unit := 338;
     a_ratio_height_unit := 112 |}.

Definition required_aspects : list Aspect :=
  [ required_card_background; required_sega_passname ].

Definition ensure_required_aspects : M unit :=
  execute SelectAspectIds;;;
  let* t := get_session in
  let existing : gset string :=
    dom (tbl_image_aspect t) ∩ {[ "card-background"; "sega-passname" ]} in
  let missing :=
    filter (fun data => a_id data ∉ existing) required_aspects in
  match missing with
  | [] => ret tt
  | _ :: _ => execute (InsertAspects missing)
  end.

(** [_adapt_image_row] reads [row.uploaded_by], which the loop has already
    found not to be [None]; it is passed as [uploaded_by]. *)
Definition _adapt_image_row (row : LegacyImage) (uploaded_by : Z)
    (aspect_id : string) : M TargetImage :=
  let* uploaded_at := _ensure_datetime (li_uploaded_at row) in
  let labels := build_image_labels (li_kind row) (li_category row) in
  let* now := utcnow in
  ret {| i_uuid := li_uuid row;
         i_user_id := uploaded_by;
         i_aspect_id := aspect_id;
         i_name := build_image_name (li_label row) (li_uuid row) (li_kind row);
         i_description :=
           build_image_description (li_label row) (li_category row)
                                   (li_kind row);
         i_visibility := 1;
         i_labels := labels;
         i_file_name := li_file_name row;
         i_metadata_id := li_trace_id row;
         i_created_at := uploaded_at;
         i_updated_at := now |}.

Definition _upsert_images (payload : list TargetImage) : M unit :=
  match payload with
  | [] => ret tt
  | _ :: _ => execute (UpsertImages payload)
  end.

(** The loop variables of [merge_images]. *)
Record ImageLoop : Type := mkImageLoop {
  il_summary : MergeSectionResult;
  il_existing_uuids : gset string;
  il_payload : list TargetImage
}.

(** One iteration of [for row in rows] in [merge_images]; a [continue]
    returns the loop variables for the next row. *)
Definition merge_images_step (batch_size : Z) (known_user_ids : gset Z)
    (row : LegacyImage) (st : ImageLoop) : M ImageLoop :=
  let summary := incr_processed (il_summary st) in
  match li_uploaded_by row with
  | None =>
      let summary := incr_skipped summary in
      log_warning (WarnNoUploader (li_uuid row));;;
      ret (mkImageLoop summary (il_existing_uuids st) (il_payload st))
  | Some uploaded_by =>
      if decide (uploaded_by ∉ known_user_ids) then
        let summary := incr_skipped summary in
        log_warning (WarnUploaderMissing (li_uuid row) uploaded_by);;;
        ret (mkImageLoop summary (il_existing_uuids st) (il_payload st))
      else
        match derive_aspect_id (li_kind row) with
        | Raise exc =>
            let summary := incr_skipped summary in
            log_warning (WarnUnknownAspect (li_uuid row) exc);;;
            ret (mkImageLoop summary (il_existing_uuids st) (il_payload st))
        | Ok aspect_id =>
            let* entry := _adapt_image_row row uploaded_by aspect_id in
            let '(summary, existing_uuids) :=
              if decide (li_uuid row ∈ il_existing_uuids st)
              then (incr_updated summary, il_existing_uuids st)
              else (incr_inserted summary,
                    {[li_uuid row]} ∪ il_existing_uuids st) in
            let payload := il_payload st ++ [entry] in
            let* payload :=
              if Z.of_nat (length payload) >=? batch_size
              then (_upsert_images payload;;; ret [])
              else ret payload in
            ret (mkImageLoop summary existing_uuids payload)
        end
  end.

Fixpoint merge_images_loop (batch_size : Z) (known_user_ids : gset Z)
    (rows : list LegacyImage) (st : ImageLoop) : M ImageLoop :=
  match rows with
  | [] => ret st
  | row :: rows' =>
      let* st := merge_images_step batch_size known_user_ids row st in
      merge_images_loop batch_size known_user_ids rows' st
  end.

Definition merge_images (source_conn : SourceConn) (batch_size : Z)
    : M MergeSectionResult :=
  let summary := MergeSectionResult0 in
  ensure_required_aspects;;;
  let* existing_uuids := _collect_existing_ids_tbl_image in
  let* known_user_ids := _collect_existing_ids_tbl_user in
  let* rows := source_execute (select_images source_conn) in
  let* st :=
    merge_images_loop batch_size known_user_ids rows
                      (mkImageLoop summary existing_uuids []) in
  _upsert_images (il_payload st);;;
  ret (il_summary st).

(** ** run_merge *)

(** The body of the inner [try]: the two merge steps, in order. *)
Definition merge_steps (config : MergeConfig) (source_conn : SourceConn)
    : M MergeResult :=
  let* users_summary := merge_users source_conn (batch_size config) in
  let* images_summary := merge_images source_conn (batch_size config) in
  ret {| users := users_summary; images := images_summary |}.

(** Entering the [with] block and the two [begin()] calls. *)
Definition open_transactions : M unit :=
  connect Source;;;
  connect Target;;;
  begin Source;;;
  begin Target.

(** [run_merge]; [source_conn] is the connection [config.source_url]
    resolves to, and the world's [target] the one behind
    [config.target_url]. *)
Definition run_merge (config : MergeConfig) (source_conn : SourceConn)
    : M MergeResult :=
  try_finally
    (try_finally
       (open_transactions;;;
        try_except_else
          (merge_steps config source_conn)
          (fun e => rollback Target;;; rollback Source;;; raise e)
          (fun summaries =>
             (if dry_run config
              then rollback Target;;; rollback Source
              else commit Target;;; commit Source);;;
             ret summaries))
       (close Target;;; close Source))
    (dispose Source;;; dispose Target).

(* ===================================================================== *)
(** ** Predicates used in the statements                                  *)
(* ===================================================================== *)



(** What a merge step never touches: the clock and the fault behaviour of
    the world, the transaction events, and the committed tables. *)
Definition frame (w w' : World) : Prop :=
  utc_clock w' = utc_clock w
  /\ db_fault w' = db_fault w
  /\ tx_events w' = tx_events w
  /\ committed (target w') = committed (target w).

(** [m] relates every world to the world it leaves, whether it returns or
    raises. *)
Definition stable {A : Type} (R : World -> World -> Prop) (m : M A) : Prop :=
  forall w, R w (snd (m w)).

(** The columns [written] of the last row of [payload] whose key is [k],
    if there is one. *)
Fixpoint last_written {K R P : Type} `{EqDecision K} (key : R -> K)
    (written : R -> P) (k : K) (payload : list R) : option P :=
  match payload with
  | [] => None
  | e :: rest =>
      match last_written key written k rest with
      | Some p => Some p
      | None => if decide (key e = k) then Some (written e) else None
      end
  end.

(** [entry] carries the columns [_adapt_user_row] takes from [row] or
    fixes; the two timestamps are left out. *)
Definition user_adapted (row : LegacyUser) (entry : TargetUser) : Prop :=
  u_id entry = lu_id row
  /\ u_username entry = lu_username row
  /\ u_password entry = lu_hashed_password row
  /\ u_phone entry = None
  /\ u_privileges entry = ["NORMAL"].

(** The columns of [tbl_user] that a conflicting upsert overwrites,
    [updated_at] apart, and those it keeps. *)
Definition user_written (r : TargetUser)
    : string * string * option string * list string :=
  (u_username r, u_password r, u_phone r, u_privileges r).

Definition user_kept (r : TargetUser) : Z * datetime :=
  (u_id r, u_created_at r).

(** [entry] carries the columns [_adapt_image_row] computes from [row],
    its uploader and its aspect; the two timestamps are left out. *)
Definition image_adapted (row : LegacyImage) (uploaded_by : Z)
    (aspect_id : string) (entry : TargetImage) : Prop :=
  i_uuid entry = li_uuid row
  /\ i_user_id entry = uploaded_by
  /\ i_aspect_id entry = aspect_id
  /\ i_name entry
     = build_image_name (li_label row) (li_uuid row) (li_kind row)
  /\ i_description entry
     = build_image_description (li_label row) (li_category row) (li_kind row)
  /\ i_visibility entry = 1
  /\ i_labels entry = build_image_labels (li_kind row) (li_category row)
  /\ i_file_name entry = li_file_name row
  /\ i_metadata_id entry = li_trace_id row.

(** The columns of [tbl_image] that a conflicting upsert overwrites,
    [updated_at] apart, and those it keeps. *)
Definition image_written (r : TargetImage)
    : Z * string * string * string * Z * list string * string
      * option string :=
  (i_user_id r, i_aspect_id r, i_name r, i_description r, i_visibility r,
   i_labels r, i_file_name r, i_metadata_id r).

Definition image_kept (r : TargetImage) : string * datetime :=
  (i_uuid r, i_created_at r).

(** The rows the image merge does not skip, with the uploader and the
    aspect it found for them. *)
Definition image_accepted (known_user_ids : gset Z) (row : LegacyImage)
    : option (Z * string) :=
  match li_uploaded_by row with
  | None => None
  | Some uploaded_by =>
      if decide (uploaded_by ∈ known_user_ids) then
        match derive_aspect_id (li_kind row) with
        | Ok aspect_id => Some (uploaded_by, aspect_id)
        | Raise _ => None
        end
      else None
  end.

(** An image row whose owner is a known user and whose aspect is one of
    the two seeded ones. *)
Definition image_row_valid (known_user_ids : gset Z) (r : TargetImage)
    : Prop :=
  i_user_id r ∈ known_user_ids
  /\ (i_aspect_id r = "card-background" \/ i_aspect_id r = "sega-passname").

(** A payload entry that comes from a legacy row with that uploader, a
    known user, and with a kind of that aspect. *)
Definition image_entry_from (known_user_ids : gset Z)
    (rows : list LegacyImage) (entry : TargetImage) : Prop :=
  exists row,
    row ∈ rows
    /\ li_uuid row = i_uuid entry
    /\ li_uploaded_by row = Some (i_user_id entry)
    /\ i_user_id entry ∈ known_user_ids
    /\ derive_aspect_id (li_kind row) = Ok (i_aspect_id entry).

(** The statements the image merge may send. *)
Definition image_stmt_from (known_user_ids : gset Z)
    (rows : list LegacyImage) (s : Stmt) : Prop :=
  match s with
  | UpsertImages payload =>
      Forall (image_entry_from known_user_ids rows) payload
  | UpsertUsers _ | SyncUserIdSeq => False
  | SelectUserIds | SelectImageUuids | SelectAspectIds | InsertAspects _ =>
      True
  end.

(** From [w] to [w'], only such statements were sent, every row of
    [tbl_image] is as before or valid, and [tbl_user] is as before. *)
Definition image_writes (known_user_ids : gset Z) (rows : list LegacyImage)
    (w w' : World) : Prop :=
  (exists new,
      sent (target w') = sent (target w) ++ new
      /\ Forall (image_stmt_from known_user_ids rows) new)
  /\ (forall uuid r,
        tbl_image (session (target w')) !! uuid = Some r ->
        tbl_image (session (target w)) !! uuid = Some r
        \/ image_row_valid known_user_ids r)
  /\ tbl_user (session (target w')) = tbl_user (session (target w)).

(** The legacy rows the image merge accepts, in order, each with its
    uploader and aspect. *)
Definition accepted_rows (known_user_ids : gset Z) (rows : list LegacyImage)
    : list (LegacyImage * Z * string) :=
  omap (fun row =>
          match image_accepted known_user_ids row with
          | Some (uploaded_by, aspect_id) => Some (row, uploaded_by, aspect_id)
          | None => None
          end) rows.

Definition image_entry_of (x : LegacyImage * Z * string)
    (entry : TargetImage) : Prop :=
  image_adapted x.1.1 x.1.2 x.2 entry.

(** [tbl_image_aspect] once [ensure_required_aspects] has run. *)
Definition aspects_ensured (tbl : gmap string Aspect) : gmap string Aspect :=
  upsert_rows a_id aspect_on_conflict tbl
    (filter (fun data =>
               a_id data ∉ dom tbl ∩ ({[ "card-background"; "sega-passname" ]}
                                       : gset string))
            required_aspects).

(** Two rows of [tbl_user], of [tbl_image], equal in every column but
    [updated_at]; two table states with the same keys and such rows. *)
Definition user_same_but_updated_at (a b : TargetUser) : Prop :=
  u_id a = u_id b
  /\ u_username a = u_username b
  /\ u_password a = u_password b
  /\ u_phone a = u_phone b
  /\ u_privileges a = u_privileges b
  /\ u_created_at a = u_created_at b.

Definition image_same_but_updated_at (a b : TargetImage) : Prop :=
  i_uuid a = i_uuid b
  /\ i_user_id a = i_user_id b
  /\ i_aspect_id a = i_aspect_id b
  /\ i_name a = i_name b
  /\ i_description a = i_description b
  /\ i_visibility a = i_visibility b
  /\ i_labels a = i_labels b
  /\ i_file_name a = i_file_name b
  /\ i_metadata_id a = i_metadata_id b
  /\ i_created_at a = i_created_at b.

Definition tables_same_but_updated_at (t1 t2 : Tables) : Prop :=
  (forall k,
      option_Forall2 user_same_but_updated_at
        (tbl_user t1 !! k) (tbl_user t2 !! k))
  /\ (forall k,
        option_Forall2 image_same_but_updated_at
          (tbl_image t1 !! k) (tbl_image t2 !! k))
  /\ tbl_image_aspect t1 = tbl_image_aspect t2.

(** A world whose target server rejects no statement. *)
Definition never_faults (w : World) : Prop :=
  forall n s t, db_fault w n s t = None.

(** [m] returns, in every such world. *)
Definition returns {A : Type} (m : M A) : Prop :=
  forall w, never_faults w -> exists a, fst (m w) = Ok a.

(* ===================================================================== *)
(** ** Sample data                                                       *)
(* ===================================================================== *)

Module Sample.

Definition no_tables : Tables :=
  {| tbl_user := ∅; tbl_image := ∅; tbl_image_aspect := ∅ |}.

(** An empty target whose sequence has never been used. *)
Definition empty_target : TargetDb :=
  {| committed := no_tables; session := no_tables;
     tbl_user_id_seq := {| last_value := 1; is_called := false |};
     sent := [] |}.

(** A clock that advances by one at each reading, and a server that never
    rejects a statement. *)
Definition w0 : World :=
  {| utc_clock := fun n => 1000 + Z.of_nat n;
     clock_reads := 0;
     db_fault := fun _ _ _ => None;
     target := empty_target;
     warnings := [];
     tx_events := [] |}.

(** The same world with a server that rejects every image upsert. *)
Definition w0_failing : World :=
  {| utc_clock := fun n => 1000 + Z.of_nat n;
     clock_reads := 0;
     db_fault := fun _ s _ =>
                   match s with
                   | UpsertImages _ => Some (DatabaseError "rejected")
                   | _ => None
                   end;
     target := empty_target;
     warnings := [];
     tx_events := [] |}.

Definition alice : LegacyUser :=
  {| lu_id := 5; lu_username := "alice"; lu_hashed_password := "h1";
     lu_created_at := None |}.

Definition bob : LegacyUser :=
  {| lu_id := 7; lu_username := "bob"; lu_hashed_password := "h2";
     lu_created_at := Some {| dt_wall := 50; dt_tzinfo := Some 10 |} |}.

Definition image (uuid : string) (kind : option string)
    (uploaded_by : option Z) : LegacyImage :=
  {| li_uuid := uuid; li_kind := kind; li_label := None;
     li_file_name := "f.png"; li_uploaded_by := uploaded_by;
     li_uploaded_at := None; li_category := None; li_trace_id := None |}.

Definition source_conn : SourceConn :=
  {| select_users := Ok [alice; bob];
     select_images :=
       Ok [ image "u1" (Some "frame") (Some 5);
            image "u2" (Some "frame") None;
            image "u3" (Some "zzz") (Some 7);
            image "u4" (Some "PASSNAME") (Some 9) ] |}.

Definition config (dry : bool) : MergeConfig :=
  {| source_url := "mysql://legacy"; target_url := "postgresql://target";
     batch_size := 500; dry_run := dry |}.

(** The counters of a first run on this data. *)
Definition r1 : MergeResult :=
  {| users := {| processed := 2; inserted := 2; updated := 0; skipped := 0 |};
     images := {| processed := 4; inserted := 1; updated := 0;
                  skipped := 3 |} |}.

(** The counters of a second run. *)
Definition r2 : MergeResult :=
  {| users := {| processed := 2; inserted := 0; updated := 2; skipped := 0 |};
     images := {| processed := 4; inserted := 0; updated := 1;
                  skipped := 3 |} |}.

(** The worlds after a first committed run, and after a second one. *)
Definition w1 : World := snd (run_merge (config false) source_conn w0).
Definition w2 : World := snd (run_merge (config false) source_conn w1).

End Sample.

Module SampleRuns.

(** The user merge alone, from [Sample.w0]. *)
Definition users_summary : MergeSectionResult :=
  {| processed := 2; inserted := 2; updated := 0; skipped := 0 |}.

Definition w_users : World :=
  snd (merge_users Sample.source_conn 500 Sample.w0).

(** With the server that rejects image upserts: the world once the
    transactions are open, and after the user merge. *)
Definition w_failing_users : World :=
  snd (merge_users Sample.source_conn 500
         (snd (open_transactions Sample.w0_failing))).

(** A target with one user and one image, and rows that conflict with
    them. *)
Definition old_user : TargetUser :=
  {| u_id := 5; u_username := "al"; u_password := "old";
     u_phone := Some "555"; u_privileges := ["ADMIN"];
     u_created_at := {| dt_wall := 10; dt_tzinfo := None |};
     u_updated_at := {| dt_wall := 20; dt_tzinfo := None |} |}.


Definition old_image : TargetImage :=
  {| i_uuid := "u1"; i_user_id := 7; i_aspect_id := "sega-passname";
     i_name := "old"; i_description := "old"; i_visibility := 0;
     i_labels := ["old"]; i_file_name := "old.png";
     i_metadata_id := Some "t0";
     i_created_at := {| dt_wall := 30; dt_tzinfo := None |};
     i_updated_at := {| dt_wall := 40; dt_tzinfo := None |} |}.


Definition tables : Tables :=
  {| tbl_user := {[ 5 := old_user ]};
     tbl_image := {[ "u1" := old_image ]};
     tbl_image_aspect := ∅ |}.

End SampleRuns.

(* ===================================================================== *)
(** ** Predicates for the properties of the other functions              *)
(* ===================================================================== *)

(** A payload entry of the user merge: adapted from one of [rows]. *)
Definition user_entry_from (rows : list LegacyUser) (entry : TargetUser)
    : Prop :=
  exists row, row ∈ rows /\ user_adapted row entry.

(** The statements the user merge may send. *)
Definition user_stmt_from (rows : list LegacyUser) (s : Stmt) : Prop :=
  match s with
  | UpsertUsers payload => Forall (user_entry_from rows) payload
  | SelectUserIds | SyncUserIdSeq => True
  | SelectImageUuids | SelectAspectIds | InsertAspects _ | UpsertImages _ =>
      False
  end.

(** From [w] to [w'], only such statements were sent, every row of
    [tbl_user] is as before or has no phone and the single role NORMAL,
    and the two other tables are as before. *)
Definition user_writes (rows : list LegacyUser) (w w' : World) : Prop :=
  (exists new,
      sent (target w') = sent (target w) ++ new
      /\ Forall (user_stmt_from rows) new)
  /\ (forall k r,
        tbl_user (session (target w')) !! k = Some r ->
        tbl_user (session (target w)) !! k = Some r
        \/ (u_phone r = None /\ u_privileges r = ["NORMAL"]))
  /\ tbl_image (session (target w')) = tbl_image (session (target w))
  /\ tbl_image_aspect (session (target w'))
     = tbl_image_aspect (session (target w)).

(** An upsert statement with at least one parameter set, and at most
    [batch_size] of them (one when [batch_size] is below 1). *)
Definition stmt_batch_ok (bs : Z) (s : Stmt) : Prop :=
  match s with
  | UpsertUsers payload =>
      payload <> [] /\ Z.of_nat (length payload) <= Z.max bs 1
  | UpsertImages payload =>
      payload <> [] /\ Z.of_nat (length payload) <= Z.max bs 1
  | SelectUserIds | SelectImageUuids | SelectAspectIds | InsertAspects _
  | SyncUserIdSeq => True
  end.

(** From [w] to [w'], only such statements were sent. *)
Definition batches_within (bs : Z) (w w' : World) : Prop :=
  exists new,
    sent (target w') = sent (target w) ++ new
    /\ Forall (stmt_batch_ok bs) new.

(** Two worlds whose servers reject nothing and that differ at most in the
    session tables and in the list of statements sent. *)
Definition same_run_state (w1 w2 : World) : Prop :=
  never_faults w1 /\ never_faults w2
  /\ utc_clock w1 = utc_clock w2
  /\ clock_reads w1 = clock_reads w2
  /\ warnings w1 = warnings w2
  /\ tx_events w1 = tx_events w2
  /\ committed (target w1) = committed (target w2)
  /\ tbl_user_id_seq (target w1) = tbl_user_id_seq (target w2).

(** The same, with equal session tables: only the statements sent may
    differ. *)
Definition agree (w1 w2 : World) : Prop :=
  same_run_state w1 w2 /\ session (target w1) = session (target w2).

(** The session tables once a pending payload is sent. *)
Definition pending_users (payload : list TargetUser) (t : Tables) : Tables :=
  {| tbl_user := upsert_rows u_id user_on_conflict (tbl_user t) payload;
     tbl_image := tbl_image t;
     tbl_image_aspect := tbl_image_aspect t |}.

Definition pending_images (payload : list TargetImage) (t : Tables)
    : Tables :=
  {| tbl_user := tbl_user t;
     tbl_image := upsert_rows i_uuid image_on_conflict (tbl_image t) payload;
     tbl_image_aspect := tbl_image_aspect t |}.

(** [m1] and [m2] return the same value, or raise the same exception, and
    leave worlds that agree, from worlds that agree. *)
Definition respects {A : Type} (m1 m2 : M A) : Prop :=
  forall w1 w2,
    agree w1 w2 ->
    fst (m1 w1) = fst (m2 w2) /\ agree (snd (m1 w1)) (snd (m2 w2)).

(** A statement whose rows carry naive timestamps only (no [tzinfo]). *)
Definition stmt_naive (s : Stmt) : Prop :=
  match s with
  | UpsertUsers payload =>
      Forall (fun entry => dt_tzinfo (u_created_at entry) = None
                           /\ dt_tzinfo (u_updated_at entry) = None) payload
  | UpsertImages payload =>
      Forall (fun entry => dt_tzinfo (i_created_at entry) = None
                           /\ dt_tzinfo (i_updated_at entry) = None) payload
  | SelectUserIds | SelectImageUuids | SelectAspectIds | InsertAspects _
  | SyncUserIdSeq => True
  end.

(** From [w] to [w'], only such statements were sent. *)
Definition sends_naive (w w' : World) : Prop :=
  exists new,
    sent (target w') = sent (target w) ++ new /\ Forall stmt_naive new.

(* ===================================================================== *)
(** * Properties                                                         *)
(* ===================================================================== *)

Example derive_aspect_id_tests :
  derive_aspect_id (Some "BACKGROUND") = Ok "card-background"
  /\ derive_aspect_id (Some "frame") = Ok "card-background"
  /\ derive_aspect_id (Some "PASSNAME") = Ok "sega-passname"
  /\ derive_aspect_id (Some "unknown") = Raise (UnknownAspectError (Some "unknown")).
Proof. repeat split; vm_compute; reflexivity. Qed.

Example build_image_labels_tests :
  build_image_labels (Some "BACKGROUND") None = ["background"]
  /\ build_image_labels (Some "FRAME") (Some "Event") = ["frame"; "event"]
  /\ build_image_labels (Some "") (Some " ") = ["unclassified"].
Proof. repeat split; vm_compute; reflexivity. Qed.

Example build_image_name_tests :
  build_image_name (Some "My Label") "abc" (Some "FRAME") = "My Label"
  /\ build_image_name None "xyz" (Some "background") = "Background-xyz"
  /\ build_image_name (Some " ") "uuid" (Some "") = "Image-uuid".
Proof. repeat split; vm_compute; reflexivity. Qed.

Example build_image_description_tests :
  build_image_description (Some "L") (Some "C") (Some "K") = "L"
  /\ build_image_description None (Some "C") (Some "K") = "C"
  /\ build_image_description None None (Some "kind") = "Kind"
  /\ build_image_description None None (Some "")
     = "Legacy image imported via migration-tools".
Proof. repeat split; vm_compute; reflexivity. Qed.

(* ===================================================================== *)
(** ** transform.py: classification and labels                           *)
(* ===================================================================== *)




Lemma kind_to_aspect_lookup (key : string) :
  _KIND_TO_ASPECT !! key =
    if decide (key ∈ ["BACKGROUND"; "FRAME"; "CHARACTER"; "MASK"; "LABEL"])
    then Some "card-background"
    else if decide (key = "PASSNAME") then Some "sega-passname" else None.
Proof.
  unfold _KIND_TO_ASPECT; simpl.
  rewrite !lookup_insert, lookup_empty.
  repeat case_decide; subst; try reflexivity;
    repeat match goal with
           | H : _ ∈ _ :: _ |- _ => apply elem_of_cons in H; destruct H
           | H : _ ∈ [] |- _ => apply elem_of_nil in H; destruct H
           | H : ~ (_ ∈ _) |- _ => exfalso; apply H; clear H
           end;
    try congruence; set_solver.
Qed.






(* ===================================================================== *)
(** ** The two upserts                                                   *)
(* ===================================================================== *)

Lemma upsert_row_lookup_ne {K R : Type} `{Countable K} (key : R -> K)
    (on_conflict : R -> R -> R) (tbl : gmap K R) (excluded : R) (k : K) :
  key excluded <> k ->
  upsert_row key on_conflict tbl excluded !! k = tbl !! k.
Proof.
  intros Hne. unfold upsert_row.
  destruct (tbl !! key excluded); rewrite lookup_insert_ne; auto.
Qed.

Lemma upsert_row_lookup_conflict {K R : Type} `{Countable K} (key : R -> K)
    (on_conflict : R -> R -> R) (tbl : gmap K R) (existing excluded : R) :
  tbl !! key excluded = Some existing ->
  upsert_row key on_conflict tbl excluded !! key excluded
  = Some (on_conflict existing excluded).
Proof.
  intros E. unfold upsert_row. rewrite E. apply lookup_insert_eq.
Qed.

Lemma upsert_row_lookup_fresh {K R : Type} `{Countable K} (key : R -> K)
    (on_conflict : R -> R -> R) (tbl : gmap K R) (excluded : R) :
  tbl !! key excluded = None ->
  upsert_row key on_conflict tbl excluded !! key excluded = Some excluded.
Proof.
  intros E. unfold upsert_row. rewrite E. apply lookup_insert_eq.
Qed.

Lemma upsert_rows_cons {K R : Type} `{Countable K} (key : R -> K)
    (on_conflict : R -> R -> R) (tbl : gmap K R) (e : R) (es : list R) :
  upsert_rows key on_conflict tbl (e :: es)
  = upsert_rows key on_conflict (upsert_row key on_conflict tbl e) es.
Proof. reflexivity. Qed.

Lemma upsert_rows_app {K R : Type} `{Countable K} (key : R -> K)
    (on_conflict : R -> R -> R) (tbl : gmap K R) (es1 es2 : list R) :
  upsert_rows key on_conflict tbl (es1 ++ es2)
  = upsert_rows key on_conflict (upsert_rows key on_conflict tbl es1) es2.
Proof. unfold upsert_rows. apply foldl_app. Qed.

Lemma upsert_row_dom {K R : Type} `{Countable K} (key : R -> K)
    (on_conflict : R -> R -> R) (tbl : gmap K R) (e : R) :
  dom (upsert_row key on_conflict tbl e) = {[key e]} ∪ dom tbl.
Proof.
  unfold upsert_row. destruct (tbl !! key e); apply dom_insert_L.
Qed.

(** The keys after a batch: those of before, and those of the batch. *)
Lemma upsert_rows_dom {K R : Type} `{Countable K} (key : R -> K)
    (on_conflict : R -> R -> R) (es : list R) :
  forall tbl : gmap K R,
    dom (upsert_rows key on_conflict tbl es)
    = dom tbl ∪ list_to_set (key <$> es).
Proof.
  induction es as [|e es IH]; intros tbl.
  - simpl. rewrite union_empty_r_L. reflexivity.
  - rewrite upsert_rows_cons, IH, upsert_row_dom, fmap_cons, list_to_set_cons.
    rewrite (comm_L (∪) {[key e]} (dom tbl)), (assoc_L (∪)). reflexivity.
Qed.

Section UpsertTheory.

Context {K R P C : Type} `{Countable K}.
Variables (key : R -> K) (on_conflict : R -> R -> R).
Variables (written : R -> P) (kept : R -> C).
Hypothesis written_conflict :
  forall existing excluded,
    written (on_conflict existing excluded) = written excluded.
Hypothesis kept_conflict :
  forall existing excluded,
    kept (on_conflict existing excluded) = kept existing.

(** A key no row of the batch has: the row, or its absence, is
    untouched. *)
Lemma upsert_rows_lookup_unwritten (k : K) (es : list R) :
  forall tbl : gmap K R,
    last_written key written k es = None ->
    upsert_rows key on_conflict tbl es !! k = tbl !! k.
Proof.
  induction es as [|e es IH]; intros tbl Hl; [reflexivity|].
  simpl in Hl. destruct (last_written key written k es); [discriminate|].
  destruct (decide (key e = k)); [discriminate|].
  rewrite upsert_rows_cons, IH by reflexivity.
  apply upsert_row_lookup_ne. assumption.
Qed.

(** A key some row of the batch has: the last such row decides the written
    columns. *)
Lemma upsert_rows_lookup_written (k : K) (es : list R) :
  forall (tbl : gmap K R) (p : P),
    last_written key written k es = Some p ->
    exists r, upsert_rows key on_conflict tbl es !! k = Some r
              /\ written r = p.
Proof.
  induction es as [|e es IH]; intros tbl p Hl; [discriminate|].
  simpl in Hl. rewrite upsert_rows_cons.
  destruct (last_written key written k es) as [p'|] eqn:El.
  - inversion Hl; subst. apply IH. reflexivity.
  - destruct (decide (key e = k)) as [<-|]; [|discriminate].
    inversion Hl; subst.
    rewrite (upsert_rows_lookup_unwritten _ _ _ El).
    destruct (tbl !! key e) as [o|] eqn:Eo.
    + rewrite (upsert_row_lookup_conflict _ _ _ _ _ Eo). eauto.
    + rewrite (upsert_row_lookup_fresh _ _ _ _ Eo). eauto.
Qed.

(** A key the table already has: the row stays, with its kept columns. *)
Lemma upsert_rows_lookup_existing (k : K) (es : list R) :
  forall (tbl : gmap K R) (o : R),
    tbl !! k = Some o ->
    exists r, upsert_rows key on_conflict tbl es !! k = Some r
              /\ kept r = kept o.
Proof.
  induction es as [|e es IH]; intros tbl o Ho; [simpl; eauto|].
  rewrite upsert_rows_cons.
  destruct (decide (key e = k)) as [<-|Hne].
  - destruct (IH (upsert_row key on_conflict tbl e) (on_conflict o e))
      as (r & Hr & Hk).
    + apply upsert_row_lookup_conflict. assumption.
    + exists r. split; [assumption|]. rewrite Hk. apply kept_conflict.
  - apply IH. rewrite upsert_row_lookup_ne; assumption.
Qed.

Lemma last_written_agree (k : K) (es1 es2 : list R) :
  Forall2 (fun a b => key a = key b /\ written a = written b) es1 es2 ->
  last_written key written k es1 = last_written key written k es2.
Proof.
  induction 1 as [|a b es1 es2 [Hk Hw] _ IH]; [reflexivity|].
  simpl. rewrite IH, Hk, Hw. reflexivity.
Qed.

(** Sending a batch again, with the same keys and written columns, leaves
    every row as it is up to the columns that are neither [written] nor
    [kept]; no row appears or disappears. *)
Lemma upsert_rows_twice (tbl : gmap K R) (es1 es2 : list R) (k : K) :
  Forall2 (fun a b => key a = key b /\ written a = written b) es1 es2 ->
  option_Forall2 (fun a b => written a = written b /\ kept a = kept b)
    (upsert_rows key on_conflict tbl es1 !! k)
    (upsert_rows key on_conflict (upsert_rows key on_conflict tbl es1) es2
       !! k).
Proof.
  intros Hagree. apply (last_written_agree k) in Hagree.
  set (t1 := upsert_rows key on_conflict tbl es1).
  destruct (last_written key written k es2) as [p|] eqn:E2.
  - destruct (upsert_rows_lookup_written k es1 tbl p) as (r1 & Hr1 & Hp1);
      [congruence|].
    destruct (upsert_rows_lookup_written k es2 t1 p E2) as (r2 & Hr2 & Hp2).
    destruct (upsert_rows_lookup_existing k es2 t1 r1 Hr1) as (r & Hr & Hk).
    fold t1 in Hr1. rewrite Hr1, Hr2. constructor.
    split; congruence.
  - rewrite (upsert_rows_lookup_unwritten k es2 t1 E2).
    destruct (t1 !! k); constructor. split; reflexivity.
Qed.

End UpsertTheory.


(* ===================================================================== *)
(** ** Timestamps                                                        *)
(* ===================================================================== *)


(* ===================================================================== *)
(** ** What the merge steps leave alone                                  *)
(* ===================================================================== *)

#[local] Instance frame_preorder : PreOrder frame.
Proof.
  split.
  - intros w. repeat split; reflexivity.
  - intros w1 w2 w3 (A1 & A2 & A3 & A4) (B1 & B2 & B3 & B4).
    repeat split; congruence.
Qed.

Section Stable.

Context (R : World -> World -> Prop) `{!PreOrder R}.

Lemma stable_ret {A : Type} (a : A) : stable R (ret a).
Proof. intros w. simpl. reflexivity. Qed.

Lemma stable_raise {A : Type} (e : exn) : stable R (@raise A e).
Proof. intros w. simpl. reflexivity. Qed.

Lemma stable_bind {A B : Type} (m : M A) (k : A -> M B) :
  stable R m -> (forall a, stable R (k a)) -> stable R (bind m k).
Proof.
  intros Hm Hk w. unfold bind. specialize (Hm w).
  destruct (m w) as [[a|e] w1]; simpl in *.
  - transitivity w1; [exact Hm | apply Hk].
  - exact Hm.
Qed.

Lemma stable_source_execute {A : Type} (answer : result (list A)) :
  stable R (source_execute answer).
Proof. intros w. destruct answer; simpl; reflexivity. Qed.

Lemma stable_get_session : stable R get_session.
Proof. intros w. simpl. reflexivity. Qed.

End Stable.

Lemma frame_utcnow : stable frame utcnow.
Proof. intros w. repeat split; reflexivity. Qed.

Lemma frame_log_warning (x : Warning) : stable frame (log_warning x).
Proof. intros w. repeat split; reflexivity. Qed.

Lemma frame_execute (s : Stmt) : stable frame (execute s).
Proof.
  intros w. unfold execute.
  destruct (db_fault w _ s _); [repeat split; reflexivity|].
  destruct (apply_stmt s _ _). repeat split; reflexivity.
Qed.

Create HintDb framedb discriminated.

#[local] Hint Resolve frame_utcnow frame_log_warning frame_execute : framedb.

Ltac frame_auto :=
  repeat first
    [ apply stable_ret; apply frame_preorder
    | apply stable_raise; apply frame_preorder
    | apply stable_get_session; apply frame_preorder
    | apply stable_source_execute; apply frame_preorder
    | solve [ auto with framedb ]
    | apply stable_bind; [ apply frame_preorder | | intros ? ]
    | match goal with
      | |- stable _ (match ?x with _ => _ end) => destruct x
      end ].

Lemma frame_ensure_datetime (value : option datetime) :
  stable frame (_ensure_datetime value).
Proof. unfold _ensure_datetime. frame_auto. Qed.

#[local] Hint Resolve frame_ensure_datetime : framedb.

Lemma frame_adapt_user_row (row : LegacyUser) :
  stable frame (_adapt_user_row row).
Proof. unfold _adapt_user_row. frame_auto. Qed.

Lemma frame_upsert_users (payload : list TargetUser) :
  stable frame (_upsert_users payload).
Proof. unfold _upsert_users. frame_auto. Qed.

#[local] Hint Resolve frame_adapt_user_row frame_upsert_users : framedb.

Lemma frame_merge_users_loop (bs : Z) (rows : list LegacyUser) :
  forall summary existing_ids payload,
    stable frame (merge_users_loop bs rows summary existing_ids payload).
Proof.
  induction rows as [|row rows IH]; intros; cbn [merge_users_loop];
    frame_auto.
Qed.

#[local] Hint Resolve frame_merge_users_loop : framedb.

Lemma frame_merge_users (source_conn : SourceConn) (bs : Z) :
  stable frame (merge_users source_conn bs).
Proof.
  unfold merge_users, _collect_existing_ids_tbl_user, _sync_sequence.
  frame_auto.
Qed.

Lemma frame_adapt_image_row (row : LegacyImage) (u : Z) (a : string) :
  stable frame (_adapt_image_row row u a).
Proof. unfold _adapt_image_row. frame_auto. Qed.

Lemma frame_upsert_images (payload : list TargetImage) :
  stable frame (_upsert_images payload).
Proof. unfold _upsert_images. frame_auto. Qed.

#[local] Hint Resolve frame_adapt_image_row frame_upsert_images : framedb.

Lemma frame_merge_images_step (bs : Z) (known : gset Z) (row : LegacyImage)
    (st : ImageLoop) :
  stable frame (merge_images_step bs known row st).
Proof. unfold merge_images_step. frame_auto. Qed.

#[local] Hint Resolve frame_merge_images_step : framedb.

Lemma frame_merge_images_loop (bs : Z) (known : gset Z)
    (rows : list LegacyImage) :
  forall st, stable frame (merge_images_loop bs known rows st).
Proof.
  induction rows as [|row rows IH]; intros; cbn [merge_images_loop];
    frame_auto.
Qed.

Lemma frame_ensure_required_aspects : stable frame ensure_required_aspects.
Proof. unfold ensure_required_aspects. frame_auto. Qed.

#[local] Hint Resolve frame_merge_images_loop frame_ensure_required_aspects
  : framedb.

Lemma frame_merge_images (source_conn : SourceConn) (bs : Z) :
  stable frame (merge_images source_conn bs).
Proof.
  unfold merge_images, _collect_existing_ids_tbl_user,
    _collect_existing_ids_tbl_image.
  frame_auto.
Qed.

#[local] Hint Resolve frame_merge_users frame_merge_images : framedb.

Lemma frame_merge_steps (config : MergeConfig) (source_conn : SourceConn) :
  stable frame (merge_steps config source_conn).
Proof. unfold merge_steps. frame_auto. Qed.


(* ===================================================================== *)
(** ** The transaction coordinator                                       *)
(* ===================================================================== *)

Lemma open_transactions_run (w : World) :
  fst (open_transactions w) = Ok tt
  /\ tx_events (snd (open_transactions w))
     = tx_events w ++ [Connect Source; Connect Target; Begin Source;
                       Begin Target]
  /\ committed (target (snd (open_transactions w))) = committed (target w)
  /\ session (target (snd (open_transactions w))) = committed (target w)
  /\ tbl_user_id_seq (target (snd (open_transactions w)))
     = tbl_user_id_seq (target w).
Proof.
  unfold open_transactions, bind, connect, begin, tx_event; simpl.
  rewrite <- !app_assoc. simpl. repeat split; reflexivity.
Qed.

Lemma merge_steps_raise (config : MergeConfig) (source_conn : SourceConn)
    (w : World) (e : exn) :
  (fst (merge_users source_conn (batch_size config) w) = Raise e
   \/ exists s w2,
        merge_users source_conn (batch_size config) w = (Ok s, w2)
        /\ fst (merge_images source_conn (batch_size config) w2) = Raise e)
  <-> fst (merge_steps config source_conn w) = Raise e.
Proof.
  unfold merge_steps, bind.
  destruct (merge_users source_conn (batch_size config) w) as [[s|e1] w2];
    simpl.
  - destruct (merge_images source_conn (batch_size config) w2)
      as [[s'|e2] w3] eqn:E; simpl.
    + split; [|discriminate].
      intros [|(s0 & w0 & Heq & Hr)]; [discriminate|].
      inversion Heq; subst. rewrite E in Hr. discriminate.
    + split.
      * intros [|(s0 & w0 & Heq & Hr)]; [discriminate|].
        inversion Heq; subst. rewrite E in Hr. simpl in Hr. congruence.
      * intros Hr. right. exists s, w2. rewrite E. simpl.
        split; [reflexivity|congruence].
  - split.
    + intros [|(s0 & w0 & Heq & _)]; [congruence|discriminate].
    + intros Hr. left. congruence.
Qed.

(** The way out of [run_merge] once the merge steps are over, in each of
    the three cases. *)
Lemma run_merge_unfold (config : MergeConfig) (source_conn : SourceConn)
    (w : World) :
  let w1 := snd (open_transactions w) in
  let w2 := snd (merge_steps config source_conn w1) in
  let ended (first second : TxEvent) (w3 : World) : World :=
    set_tx_events
      (tx_events w2 ++ [first; second; Close Target; Close Source;
                        Dispose Source; Dispose Target]) w3 in
  run_merge config source_conn w =
    match fst (merge_steps config source_conn w1) with
    | Raise e =>
        (Raise e, ended (Rollback Target) (Rollback Source)
                        (discard_session w2))
    | Ok summaries =>
        if dry_run config
        then (Ok summaries, ended (Rollback Target) (Rollback Source)
                                  (discard_session w2))
        else (Ok summaries,
              ended (Commit Target) (Commit Source)
                (set_target
                   {| committed := session (target w2);
                      session := session (target w2);
                      tbl_user_id_seq := tbl_user_id_seq (target w2);
                      sent := sent (target w2) |} w2))
    end.
Proof.
  intros w1 w2 ended. subst ended w2 w1.
  pose proof (open_transactions_run w) as (Hopen & _).
  unfold run_merge, try_finally, try_except_else, bind.
  destruct (open_transactions w) as [r1 w1] eqn:E1.
  simpl in Hopen. subst r1. cbn [fst snd].
  destruct (merge_steps config source_conn w1) as [[summaries|e] w2] eqn:E2;
    cbn [fst snd]; [destruct (dry_run config)| ];
    cbv [rollback commit close dispose tx_event ret raise
         discard_session set_tx_events set_target tx_events target
         utc_clock clock_reads db_fault warnings committed session
         tbl_user_id_seq sent];
    rewrite <- !app_assoc; reflexivity.
Qed.

(** C3. If the user merge raises, or the user merge returns and the image
    merge raises, [run_merge] rolls back the target transaction and then
    the source one, closes and disposes, and raises the same exception; the
    committed tables of the target are those of before the run: no row of
    either step persists. *)
Theorem run_merge_rolls_back_on_exception :
  forall (config : MergeConfig) (source_conn : SourceConn) (w : World)
         (e : exn),
    (fst (merge_users source_conn (batch_size config)
                      (snd (open_transactions w))) = Raise e
     \/ exists s w2,
          merge_users source_conn (batch_size config)
                      (snd (open_transactions w)) = (Ok s, w2)
          /\ fst (merge_images source_conn (batch_size config) w2)
             = Raise e) ->
    fst (run_merge config source_conn w) = Raise e
    /\ tx_events (snd (run_merge config source_conn w))
       = tx_events w ++ [Connect Source; Connect Target; Begin Source;
                         Begin Target; Rollback Target; Rollback Source;
                         Close Target; Close Source; Dispose Source;
                         Dispose Target]
    /\ committed (target (snd (run_merge config source_conn w)))
       = committed (target w)
    /\ session (target (snd (run_merge config source_conn w)))
       = committed (target w).
Proof.
  intros config source_conn w e Hraise.
  apply merge_steps_raise in Hraise.
  pose proof (run_merge_unfold config source_conn w) as Hrun.
  pose proof (open_transactions_run w) as (_ & Hev & Hcom & _).
  pose proof (frame_merge_steps config source_conn
                (snd (open_transactions w))) as (_ & _ & Fev & Fcom).
  cbv zeta in Hrun. rewrite Hraise in Hrun. rewrite Hrun.
  cbn [fst snd set_tx_events set_target discard_session tx_events target
       committed session].
  rewrite Fev, Hev, Fcom, Hcom, <- app_assoc.
  repeat split; reflexivity.
Qed.

Lemma merge_steps_batch_size (config config' : MergeConfig)
    (source_conn : SourceConn) :
  batch_size config = batch_size config' ->
  merge_steps config source_conn = merge_steps config' source_conn.
Proof. unfold merge_steps. intros ->. reflexivity. Qed.

(** A dry run and a real run from the same world return the same
    counters, or raise the same exception. *)
Lemma dry_run_same_counters (config config' : MergeConfig)
    (source_conn : SourceConn) (w : World) :
  batch_size config = batch_size config' ->
  fst (run_merge config source_conn w) = fst (run_merge config' source_conn w).
Proof.
  intros Hbs. rewrite !run_merge_unfold. cbv zeta.
  rewrite (merge_steps_batch_size config config' source_conn Hbs).
  destruct (fst (merge_steps config' source_conn _)); [|reflexivity].
  destruct (dry_run config), (dry_run config'); reflexivity.
Qed.

(** After a dry run, whatever its outcome, the committed tables of the
    target are those of before the run, and the rollbacks happened, target
    first. *)
Lemma dry_run_restores_tables (config : MergeConfig)
    (source_conn : SourceConn) (w : World) :
  dry_run config = true ->
  committed (target (snd (run_merge config source_conn w)))
  = committed (target w)
  /\ session (target (snd (run_merge config source_conn w)))
     = committed (target w)
  /\ tx_events (snd (run_merge config source_conn w))
     = tx_events w ++ [Connect Source; Connect Target; Begin Source;
                       Begin Target; Rollback Target; Rollback Source;
                       Close Target; Close Source; Dispose Source;
                       Dispose Target].
Proof.
  intros Hdry.
  pose proof (open_transactions_run w) as (_ & Hev & Hcom & _).
  pose proof (frame_merge_steps config source_conn
                (snd (open_transactions w))) as (_ & _ & Fev & Fcom).
  rewrite run_merge_unfold. cbv zeta. rewrite Hdry.
  destruct (fst (merge_steps _ source_conn _));
    cbn [fst snd set_tx_events set_target discard_session tx_events target
         committed session];
    rewrite Fev, Hev, Fcom, Hcom, <- app_assoc;
    repeat split; reflexivity.
Qed.

(* ===================================================================== *)
(** ** The user merge, when it returns                                   *)
(* ===================================================================== *)

Lemma bind_ok {A B : Type} (m : M A) (k : A -> M B) (w w' : World) (b : B) :
  bind m k w = (Ok b, w') ->
  exists a w1, m w = (Ok a, w1) /\ k a w1 = (Ok b, w').
Proof.
  unfold bind. destruct (m w) as [[a|e] w1]; [eauto|discriminate].
Qed.

Lemma execute_ok (s : Stmt) (w w' : World) (u : unit) :
  execute s w = (Ok u, w') ->
  session (target w')
  = fst (apply_stmt s (session (target w)) (tbl_user_id_seq (target w)))
  /\ tbl_user_id_seq (target w')
     = snd (apply_stmt s (session (target w)) (tbl_user_id_seq (target w)))
  /\ sent (target w') = sent (target w) ++ [s]
  /\ warnings w' = warnings w
  /\ clock_reads w' = clock_reads w.
Proof.
  unfold execute. destruct (db_fault w _ s _); [discriminate|].
  destruct (apply_stmt s _ _) as [tables seq].
  intros E. inversion E; subst. repeat split; reflexivity.
Qed.

Lemma adapt_user_row_run (row : LegacyUser) (w : World) :
  exists entry n,
    _adapt_user_row row w = (Ok entry, set_clock_reads n w)
    /\ user_adapted row entry.
Proof.
  unfold _adapt_user_row, _ensure_datetime, user_adapted.
  destruct (lu_created_at row) as [v|]; [destruct (dt_tzinfo v)|];
    eexists _, _; (split; [reflexivity|]); repeat split; reflexivity.
Qed.

Lemma upsert_users_ok (payload : list TargetUser) (w w' : World) (u : unit) :
  _upsert_users payload w = (Ok u, w') ->
  tbl_user (session (target w'))
  = upsert_rows u_id user_on_conflict (tbl_user (session (target w))) payload
  /\ tbl_image (session (target w')) = tbl_image (session (target w))
  /\ tbl_image_aspect (session (target w'))
     = tbl_image_aspect (session (target w))
  /\ tbl_user_id_seq (target w') = tbl_user_id_seq (target w).
Proof.
  destruct payload as [|e es]; simpl.
  - intros E. inversion E; subst. repeat split; reflexivity.
  - intros E. apply execute_ok in E. destruct E as (Hs & Hq & _).
    rewrite Hs, Hq. repeat split; reflexivity.
Qed.

Lemma merge_users_loop_ok (bs : Z) (rows : list LegacyUser) :
  forall summary existing_ids payload w summary' payload' w',
    merge_users_loop bs rows summary existing_ids payload w
    = (Ok (summary', payload'), w') ->
    exists entries,
      Forall2 user_adapted rows entries
      /\ upsert_rows u_id user_on_conflict
           (tbl_user (session (target w'))) payload'
         = upsert_rows u_id user_on_conflict
             (tbl_user (session (target w))) (payload ++ entries)
      /\ tbl_image (session (target w')) = tbl_image (session (target w))
      /\ tbl_image_aspect (session (target w'))
         = tbl_image_aspect (session (target w))
      /\ tbl_user_id_seq (target w') = tbl_user_id_seq (target w)
      /\ processed summary' = processed summary + Z.of_nat (length rows)
      /\ inserted summary' + updated summary'
         = inserted summary + updated summary + Z.of_nat (length rows)
      /\ inserted summary <= inserted summary'
      /\ updated summary <= updated summary'
      /\ skipped summary' = skipped summary
      /\ ((forall row, row ∈ rows -> lu_id row ∈ existing_ids) ->
          inserted summary' = inserted summary).
Proof.
  induction rows as [|row rows IH];
    intros summary existing_ids payload w summary' payload' w' Hrun.
  - simpl in Hrun. inversion Hrun; subst. exists [].
    rewrite app_nil_r. simpl length. change (Z.of_nat 0) with 0.
    repeat split; try reflexivity; try lia. constructor.
  - cbn [merge_users_loop] in Hrun.
    apply bind_ok in Hrun. destruct Hrun as (entry & w1 & Hadapt & Hrun).
    destruct (adapt_user_row_run row w) as (entry0 & n & Hadapt0 & Had).
    rewrite Hadapt0 in Hadapt. inversion Hadapt; subst entry0 w1.
    clear Hadapt Hadapt0.
    set (counted :=
           if decide (lu_id row ∈ existing_ids)
           then (incr_updated (incr_processed summary), existing_ids)
           else (incr_inserted (incr_processed summary),
                 {[lu_id row]} ∪ existing_ids)) in *.
    assert (Hc : processed counted.1 = processed summary + 1
                 /\ inserted counted.1 + updated counted.1
                    = inserted summary + updated summary + 1
                 /\ inserted summary <= inserted counted.1
                 /\ updated summary <= updated counted.1
                 /\ skipped counted.1 = skipped summary
                 /\ existing_ids ⊆ counted.2
                 /\ (lu_id row ∈ existing_ids ->
                     inserted counted.1 = inserted summary)).
    { subst counted. destruct (decide (lu_id row ∈ existing_ids)); simpl;
        repeat split; try lia; try set_solver. }
    destruct counted as [summary1 existing1]. simpl in Hc.
    destruct Hc as (C1 & C2 & C3 & C4 & C5 & C6 & C7).
    apply bind_ok in Hrun. destruct Hrun as (payload1 & w2 & Hflush & Hrun).
    apply IH in Hrun.
    destruct Hrun as (entries & F & V & I1 & I2 & I3 & P1 & P2 & P3 & P4
                      & P5 & P6).
    exists (entry :: entries).
    assert (Hview :
              upsert_rows u_id user_on_conflict
                (tbl_user (session (target w2))) payload1
              = upsert_rows u_id user_on_conflict
                  (tbl_user (session (target w))) (payload ++ [entry])
              /\ tbl_image (session (target w2))
                 = tbl_image (session (target w))
              /\ tbl_image_aspect (session (target w2))
                 = tbl_image_aspect (session (target w))
              /\ tbl_user_id_seq (target w2) = tbl_user_id_seq (target w)).
    { destruct (Z.of_nat (length (payload ++ [entry])) >=? bs).
      - apply bind_ok in Hflush.
        destruct Hflush as (u & w3 & Hups & Hret).
        inversion Hret; subst payload1 w3.
        apply upsert_users_ok in Hups. simpl in Hups.
        destruct Hups as (U1 & U2 & U3 & U4).
        rewrite U1, U2, U3, U4. repeat split; reflexivity.
      - inversion Hflush; subst payload1 w2. simpl.
        repeat split; reflexivity. }
    destruct Hview as (V1 & V2 & V3 & V4).
    split; [constructor; assumption|].
    split.
    { rewrite V, upsert_rows_app, V1, <- upsert_rows_app, <- app_assoc.
      reflexivity. }
    rewrite I1, I2, I3, V2, V3, V4.
    simpl length. rewrite Nat2Z.inj_succ.
    repeat split; try reflexivity; try lia.
    intros Hall. rewrite P6.
    + apply C7. apply Hall. left.
    + intros r Hr. apply C6. apply Hall. right. assumption.
Qed.

Lemma collect_user_ids_ok (w w' : World) (ids : gset Z) :
  _collect_existing_ids_tbl_user w = (Ok ids, w') ->
  ids = dom (tbl_user (session (target w)))
  /\ session (target w') = session (target w)
  /\ tbl_user_id_seq (target w') = tbl_user_id_seq (target w).
Proof.
  unfold _collect_existing_ids_tbl_user. intros E.
  apply bind_ok in E. destruct E as (u & w1 & Hex & E).
  apply execute_ok in Hex. destruct Hex as (Hs & Hq & _). simpl in Hs, Hq.
  unfold bind, get_session, ret in E. inversion E; subst.
  rewrite Hs, Hq. repeat split; reflexivity.
Qed.

Lemma collect_image_uuids_ok (w w' : World) (ids : gset string) :
  _collect_existing_ids_tbl_image w = (Ok ids, w') ->
  ids = dom (tbl_image (session (target w)))
  /\ session (target w') = session (target w)
  /\ tbl_user_id_seq (target w') = tbl_user_id_seq (target w).
Proof.
  unfold _collect_existing_ids_tbl_image. intros E.
  apply bind_ok in E. destruct E as (u & w1 & Hex & E).
  apply execute_ok in Hex. destruct Hex as (Hs & Hq & _). simpl in Hs, Hq.
  unfold bind, get_session, ret in E. inversion E; subst.
  rewrite Hs, Hq. repeat split; reflexivity.
Qed.

Lemma source_execute_ok {A : Type} (answer : result (list A)) (w w' : World)
    (rows : list A) :
  source_execute answer w = (Ok rows, w') -> answer = Ok rows /\ w' = w.
Proof.
  unfold source_execute. destruct answer; intros E; inversion E; auto.
Qed.

(** What [merge_users] has done when it returns. *)
Lemma merge_users_ok (source_conn : SourceConn) (bs : Z) (w w' : World)
    (summary : MergeSectionResult) :
  merge_users source_conn bs w = (Ok summary, w') ->
  exists rows entries,
    select_users source_conn = Ok rows
    /\ Forall2 user_adapted rows entries
    /\ tbl_user (session (target w'))
       = upsert_rows u_id user_on_conflict (tbl_user (session (target w)))
           entries
    /\ tbl_image (session (target w')) = tbl_image (session (target w))
    /\ tbl_image_aspect (session (target w'))
       = tbl_image_aspect (session (target w))
    /\ tbl_user_id_seq (target w')
       = setval (COALESCE (max_id (tbl_user (session (target w')))) 0) true
    /\ processed summary = Z.of_nat (length rows)
    /\ inserted summary + updated summary = Z.of_nat (length rows)
    /\ 0 <= inserted summary
    /\ 0 <= updated summary
    /\ skipped summary = 0
    /\ ((forall row, row ∈ rows ->
           lu_id row ∈ dom (tbl_user (session (target w)))) ->
        inserted summary = 0).
Proof.
  unfold merge_users. intros E.
  apply bind_ok in E. destruct E as (ids & w1 & Hids & E).
  apply collect_user_ids_ok in Hids. destruct Hids as (-> & S1 & Q1).
  apply bind_ok in E. destruct E as (rows & w2 & Hrows & E).
  apply source_execute_ok in Hrows. destruct Hrows as (Hrows & ->).
  apply bind_ok in E. destruct E as ([summary1 payload] & w3 & Hloop & E).
  apply merge_users_loop_ok in Hloop.
  destruct Hloop as (entries & F & V & I1 & I2 & I3 & P1 & P2 & P3 & P4
                     & P5 & P6).
  apply bind_ok in E. destruct E as (u & w4 & Hflush & E).
  apply upsert_users_ok in Hflush. destruct Hflush as (U1 & U2 & U3 & U4).
  apply bind_ok in E. destruct E as (u' & w5 & Hsync & E).
  unfold _sync_sequence in Hsync. apply execute_ok in Hsync.
  destruct Hsync as (Hs & Hq & _). simpl in Hs, Hq.
  inversion E; subst summary1 w5. clear E.
  exists rows, entries. rewrite Hs, Hq, U1, U2, U3, V, I1, I2, S1.
  simpl in *. rewrite Z.add_0_l in *.
  repeat split; try assumption; try reflexivity; try lia.
Qed.

(* ===================================================================== *)
(** ** The sequence behind [tbl_user.id]                                 *)
(* ===================================================================== *)

Lemma max_id_upper_bound (tbl : gmap Z TargetUser) (k : Z) :
  k ∈ dom tbl -> exists m, max_id tbl = Some m /\ k <= m.
Proof.
  unfold max_id. rewrite <- elem_of_elements.
  induction (elements (dom tbl)) as [|x l IH]; intros Hin.
  - apply elem_of_nil in Hin. destruct Hin.
  - apply elem_of_cons in Hin. simpl.
    destruct (foldr _ None l) as [m|] eqn:E.
    + eexists; split; [reflexivity|].
      destruct Hin as [->|Hin]; [lia|].
      destruct (IH Hin) as (m' & Hm' & Hle). inversion Hm'; subst. lia.
    + eexists; split; [reflexivity|].
      destruct Hin as [->|Hin]; [lia|].
      destruct (IH Hin) as (m' & Hm' & _). discriminate.
Qed.

Lemma nextval_nth_called (n : nat) :
  forall s : Sequence,
    is_called s = true -> nextval_nth n s = last_value s + 1 + Z.of_nat n.
Proof.
  induction n as [|n IH]; intros s Hs; simpl nextval_nth.
  - unfold nextval. rewrite Hs. simpl. lia.
  - rewrite IH by reflexivity. unfold nextval. rewrite Hs. simpl. lia.
Qed.

(** C9. When [merge_users] returns, the sequence of [tbl_user.id] has been
    set, as called, to the greatest [id] of [tbl_user] (0 for an empty
    table): every id of the table, among them every migrated one, is at
    most its value, and every value drawn from the sequence afterwards is
    greater than all of them, hence not an id of the table. *)
Theorem merge_users_syncs_sequence :
  forall (source_conn : SourceConn) (bs : Z) (w w' : World)
         (summary : MergeSectionResult),
    merge_users source_conn bs w = (Ok summary, w') ->
    let seq := tbl_user_id_seq (target w') in
    let ids := dom (tbl_user (session (target w'))) in
    seq = setval (COALESCE (max_id (tbl_user (session (target w')))) 0) true
    /\ (forall rows row, select_users source_conn = Ok rows ->
          row ∈ rows -> lu_id row ∈ ids)
    /\ (forall k, k ∈ ids -> k <= last_value seq)
    /\ (forall n k, k ∈ ids -> k < nextval_nth n seq)
    /\ (forall n, nextval_nth n seq ∉ ids).
Proof.
  intros source_conn bs w w' summary Hrun seq ids.
  apply merge_users_ok in Hrun.
  destruct Hrun as (rows & entries & Hrows & F & Hu & _ & _ & Hseq & _).
  assert (Hle : forall k, k ∈ ids -> k <= last_value seq).
  { intros k Hk. subst seq. rewrite Hseq.
    destruct (max_id_upper_bound _ k Hk) as (m & -> & Hm). exact Hm. }
  assert (Hnext : forall n k, k ∈ ids -> k < nextval_nth n seq).
  { intros n k Hk. rewrite nextval_nth_called.
    - specialize (Hle k Hk). lia.
    - subst seq. rewrite Hseq. reflexivity. }
  split; [exact Hseq|]. split; [|split; [exact Hle|split; [exact Hnext|]]].
  - intros rows' row Hrows' Hin. rewrite Hrows in Hrows'.
    inversion Hrows'; subst rows'.
    subst ids. rewrite Hu, upsert_rows_dom.
    apply elem_of_union_r, elem_of_list_to_set.
    apply list_elem_of_lookup in Hin. destruct Hin as (i & Hi).
    destruct (Forall2_lookup_l _ _ _ _ _ F Hi) as (e & He & Had).
    destruct Had as (Hid & _). rewrite <- Hid.
    apply list_elem_of_fmap. exists e. split; [reflexivity|].
    apply list_elem_of_lookup. eauto.
  - intros n Hin. specialize (Hnext n _ Hin). lia.
Qed.

(* ===================================================================== *)
(** ** The image merge: what it writes                                   *)
(* ===================================================================== *)

Lemma derive_aspect_id_seeded (kind : option string) (aspect_id : string) :
  derive_aspect_id kind = Ok aspect_id ->
  aspect_id = "card-background" \/ aspect_id = "sega-passname".
Proof.
  unfold derive_aspect_id. rewrite kind_to_aspect_lookup.
  repeat case_decide; intros E; inversion E; auto.
Qed.

Lemma image_entry_from_valid (known : gset Z) (rows : list LegacyImage)
    (entry : TargetImage) :
  image_entry_from known rows entry -> image_row_valid known entry.
Proof.
  intros (row & _ & _ & _ & Hk & Hd). split; [exact Hk|].
  eapply derive_aspect_id_seeded. exact Hd.
Qed.

(** Rows of a table after an upsert batch: as before, or with the written
    columns of a payload row. *)
Lemma upsert_rows_lookup_inv {K R : Type} `{Countable K} (key : R -> K)
    (on_conflict : R -> R -> R) (Q : R -> Prop) (es : list R) :
  (forall existing excluded, Q excluded -> Q (on_conflict existing excluded)) ->
  Forall Q es ->
  forall (tbl : gmap K R) (k : K) (r : R),
    upsert_rows key on_conflict tbl es !! k = Some r ->
    tbl !! k = Some r \/ Q r.
Proof.
  intros HQ. induction 1 as [|e es He _ IH]; intros tbl k r Hr.
  - left. exact Hr.
  - rewrite upsert_rows_cons in Hr. apply IH in Hr.
    destruct Hr as [Hr|Hr]; [|right; exact Hr].
    destruct (decide (key e = k)) as [<-|Hne].
    + destruct (tbl !! key e) as [o|] eqn:Eo.
      * rewrite (upsert_row_lookup_conflict _ _ _ _ _ Eo) in Hr.
        inversion Hr; subst. right. apply HQ. exact He.
      * rewrite (upsert_row_lookup_fresh _ _ _ _ Eo) in Hr.
        inversion Hr; subst. right. exact He.
    + rewrite upsert_row_lookup_ne in Hr by assumption. left. exact Hr.
Qed.

#[local] Instance image_writes_preorder (known : gset Z)
    (rows : list LegacyImage) : PreOrder (image_writes known rows).
Proof.
  split.
  - intros w. split; [|split].
    + exists []. rewrite app_nil_r. split; [reflexivity|constructor].
    + intros uuid r Hr. left. exact Hr.
    + reflexivity.
  - intros w1 w2 w3 ((n1 & S1 & F1) & T1 & U1) ((n2 & S2 & F2) & T2 & U2).
    split; [|split].
    + exists (n1 ++ n2). rewrite S2, S1, app_assoc.
      split; [reflexivity|]. apply Forall_app. split; assumption.
    + intros uuid r Hr. apply T2 in Hr. destruct Hr as [Hr|Hr]; auto.
    + congruence.
Qed.

Lemma image_writes_utcnow (known : gset Z) (rows : list LegacyImage) :
  stable (image_writes known rows) utcnow.
Proof.
  intros w. pose proof (reflexivity (R := image_writes known rows) w) as Hr.
  exact Hr.
Qed.

Lemma image_writes_log_warning (known : gset Z) (rows : list LegacyImage)
    (x : Warning) :
  stable (image_writes known rows) (log_warning x).
Proof.
  intros w. pose proof (reflexivity (R := image_writes known rows) w) as Hr.
  exact Hr.
Qed.

Lemma image_writes_execute (known : gset Z) (rows : list LegacyImage)
    (s : Stmt) :
  image_stmt_from known rows s ->
  stable (image_writes known rows) (execute s).
Proof.
  intros Hs w. unfold execute.
  destruct (db_fault w _ s _).
  - split; [|split]; simpl.
    + exists [s]. split; [reflexivity|]. constructor; [exact Hs|constructor].
    + auto.
    + reflexivity.
  - destruct (apply_stmt s _ _) as [tables seq] eqn:E.
    split; [|split]; simpl.
    + exists [s]. split; [reflexivity|]. constructor; [exact Hs|constructor].
    + intros uuid r Hr.
      destruct s; try (exfalso; exact Hs);
        simpl in E; inversion E; subst; simpl in Hr; auto.
      eapply upsert_rows_lookup_inv in Hr; [exact Hr| |].
      * intros o n' (Hu & Ha). split; assumption.
      * simpl in Hs. eapply Forall_impl; [exact Hs|].
        intros x. apply image_entry_from_valid.
    + destruct s; try (exfalso; exact Hs);
        simpl in E; inversion E; subst; reflexivity.
Qed.

Lemma adapt_image_row_run (row : LegacyImage) (u : Z) (a : string)
    (w : World) :
  exists entry n,
    _adapt_image_row row u a w = (Ok entry, set_clock_reads n w)
    /\ image_adapted row u a entry.
Proof.
  unfold _adapt_image_row, _ensure_datetime, image_adapted.
  destruct (li_uploaded_at row) as [v|]; [destruct (dt_tzinfo v)|];
    eexists _, _; (split; [reflexivity|]); repeat split; reflexivity.
Qed.

Lemma image_accepted_Some (known : gset Z) (row : LegacyImage) (u : Z)
    (a : string) :
  image_accepted known row = Some (u, a)
  <-> li_uploaded_by row = Some u /\ u ∈ known
      /\ derive_aspect_id (li_kind row) = Ok a.
Proof.
  unfold image_accepted. destruct (li_uploaded_by row) as [u'|].
  - destruct (decide (u' ∈ known)).
    + destruct (derive_aspect_id (li_kind row)) as [a1|exc].
      * split; [intros E; inversion E; subst; auto|].
        intros (E1 & _ & E2). inversion E1; inversion E2; reflexivity.
      * split; [discriminate|]. intros (_ & _ & E2). discriminate.
    + split; [discriminate|]. intros (E1 & Hk & _).
      inversion E1; subst. contradiction.
  - split; [discriminate|]. intros (E1 & _). discriminate.
Qed.

Lemma bind_rel (R : World -> World -> Prop) `{!PreOrder R} {A B : Type}
    (m : M A) (k : A -> M B) (w : World) :
  R w (snd (m w)) ->
  (forall a w1, m w = (Ok a, w1) -> R w1 (snd (k a w1))) ->
  R w (snd (bind m k w)).
Proof.
  intros Hm Hk. unfold bind. destruct (m w) as [[a|e] w1] eqn:E; simpl in *.
  - transitivity w1; [exact Hm | apply Hk; reflexivity].
  - exact Hm.
Qed.

Lemma upsert_images_snoc (payload : list TargetImage) (entry : TargetImage) :
  _upsert_images (payload ++ [entry])
  = execute (UpsertImages (payload ++ [entry])).
Proof. destruct payload; reflexivity. Qed.

Lemma image_writes_upsert_images (known : gset Z) (rows : list LegacyImage)
    (payload : list TargetImage) :
  Forall (image_entry_from known rows) payload ->
  stable (image_writes known rows) (_upsert_images payload).
Proof.
  intros Hp. destruct payload as [|e es].
  - apply stable_ret. apply image_writes_preorder.
  - apply image_writes_execute. exact Hp.
Qed.

(** The two shapes of an iteration of the image loop. *)
Lemma merge_images_step_skipped (bs : Z) (known : gset Z)
    (row : LegacyImage) (st : ImageLoop) (w : World) :
  image_accepted known row = None ->
  exists reason,
    merge_images_step bs known row st w
    = (Ok (mkImageLoop (incr_skipped (incr_processed (il_summary st)))
                       (il_existing_uuids st) (il_payload st)),
       set_warnings (warnings w ++ [reason]) w).
Proof.
  unfold image_accepted, merge_images_step.
  destruct (li_uploaded_by row) as [u|]; [|eexists; reflexivity].
  destruct (decide (u ∉ known)) as [Hnk|Hk].
  - intros _. eexists; reflexivity.
  - apply dec_stable in Hk. rewrite decide_True by exact Hk.
    destruct (derive_aspect_id (li_kind row)); [discriminate|].
    intros _. eexists; reflexivity.
Qed.

Lemma merge_images_step_accepted (bs : Z) (known : gset Z)
    (row : LegacyImage) (st : ImageLoop) (w : World) (u : Z) (a : string) :
  image_accepted known row = Some (u, a) ->
  exists entry n,
    image_adapted row u a entry
    /\ merge_images_step bs known row st w
       = let counted :=
           if decide (li_uuid row ∈ il_existing_uuids st)
           then (incr_updated (incr_processed (il_summary st)),
                 il_existing_uuids st)
           else (incr_inserted (incr_processed (il_summary st)),
                 {[li_uuid row]} ∪ il_existing_uuids st) in
         if Z.of_nat (length (il_payload st ++ [entry])) >=? bs
         then
           match execute (UpsertImages (il_payload st ++ [entry]))
                         (set_clock_reads n w) with
           | (Ok _, w2) => (Ok (mkImageLoop counted.1 counted.2 []), w2)
           | (Raise e, w2) => (Raise e, w2)
           end
         else (Ok (mkImageLoop counted.1 counted.2 (il_payload st ++ [entry])),
               set_clock_reads n w).
Proof.
  intros Hacc. apply image_accepted_Some in Hacc.
  destruct Hacc as (Hu & Hk & Hd).
  destruct (adapt_image_row_run row u a w) as (entry & n & Hrun & Had).
  exists entry, n. split; [exact Had|].
  unfold merge_images_step. rewrite Hu.
  rewrite decide_False by (intros Hn; apply Hn; exact Hk).
  rewrite Hd. unfold bind at 1. rewrite Hrun.
  destruct (decide (li_uuid row ∈ il_existing_uuids st));
    (destruct (Z.of_nat (length (il_payload st ++ [entry])) >=? bs);
     [ rewrite upsert_images_snoc; unfold bind;
       destruct (execute (UpsertImages (il_payload st ++ [entry]))
                   (set_clock_reads n w)) as [[u0|err] w2]; reflexivity
     | reflexivity ]).
Qed.

Lemma image_writes_step (bs : Z) (known : gset Z) (rows : list LegacyImage)
    (row : LegacyImage) (st : ImageLoop) (w : World) :
  row ∈ rows ->
  Forall (image_entry_from known rows) (il_payload st) ->
  image_writes known rows w (snd (merge_images_step bs known row st w))
  /\ (forall st', fst (merge_images_step bs known row st w) = Ok st' ->
        Forall (image_entry_from known rows) (il_payload st')).
Proof.
  intros Hrow Hpay.
  pose proof (reflexivity (R := image_writes known rows) w) as Hrefl.
  destruct (image_accepted known row) as [[u a]|] eqn:Hacc.
  2:{ destruct (merge_images_step_skipped bs known row st w Hacc)
        as (reason & ->).
      split; [exact Hrefl|]. simpl. intros st' E. inversion E; subst.
      exact Hpay. }
  destruct (merge_images_step_accepted bs known row st w u a Hacc)
    as (entry & n & Had & ->).
  apply image_accepted_Some in Hacc. destruct Hacc as (Hu & Hk & Hd).
  assert (Hentry : image_entry_from known rows entry).
  { destruct Had as (H1 & H2 & H3 & _). exists row.
    rewrite H1, H2, H3. repeat split; auto. }
  assert (Hpay' : Forall (image_entry_from known rows)
                    (il_payload st ++ [entry])).
  { apply Forall_app. split; [exact Hpay|]. constructor; [exact Hentry|].
    constructor. }
  cbv zeta.
  destruct (Z.of_nat (length (il_payload st ++ [entry])) >=? bs).
  - pose proof (image_writes_execute known rows
                  (UpsertImages (il_payload st ++ [entry])) Hpay'
                  (set_clock_reads n w)) as Hex.
    destruct (execute (UpsertImages (il_payload st ++ [entry]))
                (set_clock_reads n w)) as [[u0|err] w2]; simpl in *.
    + split; [exact Hex|]. intros st' E. inversion E; subst. constructor.
    + split; [exact Hex|]. discriminate.
  - simpl. split; [exact Hrefl|]. intros st' E. inversion E; subst.
    exact Hpay'.
Qed.

Lemma image_writes_loop (bs : Z) (known : gset Z) (rows : list LegacyImage)
    (suffix : list LegacyImage) :
  forall st w,
    (forall row, row ∈ suffix -> row ∈ rows) ->
    Forall (image_entry_from known rows) (il_payload st) ->
    image_writes known rows w (snd (merge_images_loop bs known suffix st w))
    /\ (forall st', fst (merge_images_loop bs known suffix st w) = Ok st' ->
          Forall (image_entry_from known rows) (il_payload st')).
Proof.
  induction suffix as [|row suffix IH]; intros st w Hsub Hpay.
  - simpl. split.
    + apply (reflexivity (R := image_writes known rows)).
    + intros st' E. inversion E; subst. exact Hpay.
  - cbn [merge_images_loop].
    destruct (image_writes_step bs known rows row st w) as (Hw & Hp);
      [apply Hsub; left | exact Hpay |].
    unfold bind.
    destruct (merge_images_step bs known row st w) as [[st1|e] w1];
      simpl in *.
    + destruct (IH st1 w1) as (Hw' & Hp').
      * intros r Hr. apply Hsub. right. exact Hr.
      * apply Hp. reflexivity.
      * split; [|exact Hp'].
        transitivity w1; assumption.
    + split; [exact Hw|]. discriminate.
Qed.

Lemma image_writes_ensure_required_aspects (known : gset Z)
    (rows : list LegacyImage) :
  stable (image_writes known rows) ensure_required_aspects.
Proof.
  unfold ensure_required_aspects.
  apply stable_bind; [apply image_writes_preorder| |intros _].
  { apply image_writes_execute. exact I. }
  apply stable_bind; [apply image_writes_preorder| |intros t].
  { apply stable_get_session. apply image_writes_preorder. }
  destruct (filter _ required_aspects).
  - apply stable_ret. apply image_writes_preorder.
  - apply image_writes_execute. exact I.
Qed.

Lemma image_writes_collect_image_uuids (known : gset Z)
    (rows : list LegacyImage) :
  stable (image_writes known rows) _collect_existing_ids_tbl_image.
Proof.
  unfold _collect_existing_ids_tbl_image.
  apply stable_bind; [apply image_writes_preorder| |intros _].
  { apply image_writes_execute. exact I. }
  apply stable_bind; [apply image_writes_preorder| |intros t].
  { apply stable_get_session. apply image_writes_preorder. }
  apply stable_ret. apply image_writes_preorder.
Qed.

Lemma image_writes_collect_user_ids (known : gset Z)
    (rows : list LegacyImage) :
  stable (image_writes known rows) _collect_existing_ids_tbl_user.
Proof.
  unfold _collect_existing_ids_tbl_user.
  apply stable_bind; [apply image_writes_preorder| |intros _].
  { apply image_writes_execute. exact I. }
  apply stable_bind; [apply image_writes_preorder| |intros t].
  { apply stable_get_session. apply image_writes_preorder. }
  apply stable_ret. apply image_writes_preorder.
Qed.

(** The rows the source answers with, none when the query raises. *)
Lemma image_writes_merge_images (source_conn : SourceConn) (bs : Z)
    (w : World) :
  image_writes (dom (tbl_user (session (target w))))
    (match select_images source_conn with Ok rows => rows | Raise _ => [] end)
    w (snd (merge_images source_conn bs w)).
Proof.
  set (known := dom (tbl_user (session (target w)))).
  set (rows := match select_images source_conn with
               | Ok rows => rows | Raise _ => [] end).
  unfold merge_images.
  apply bind_rel; [apply image_writes_preorder| |intros u1 w1 E1].
  { apply image_writes_ensure_required_aspects. }
  pose proof (image_writes_ensure_required_aspects known rows w) as R1.
  rewrite E1 in R1. simpl in R1.
  apply bind_rel; [apply image_writes_preorder| |intros uuids w2 E2].
  { apply image_writes_collect_image_uuids. }
  pose proof (image_writes_collect_image_uuids known rows w1) as R2.
  rewrite E2 in R2. simpl in R2.
  apply bind_rel; [apply image_writes_preorder| |intros ids w3 E3].
  { apply image_writes_collect_user_ids. }
  apply collect_user_ids_ok in E3. destruct E3 as (Hids & Hs3 & _).
  assert (Hknown : ids = known).
  { subst ids known. destruct R1 as (_ & _ & U1). destruct R2 as (_ & _ & U2).
    rewrite U2, U1. reflexivity. }
  subst ids. rewrite Hknown. clear Hknown.
  apply bind_rel; [apply image_writes_preorder| |intros rows' w4 E4].
  { apply stable_source_execute. apply image_writes_preorder. }
  apply source_execute_ok in E4. destruct E4 as (Hrows & ->).
  assert (rows' = rows) as -> by (subst rows; rewrite Hrows; reflexivity).
  destruct (image_writes_loop bs known rows rows
              (mkImageLoop MergeSectionResult0 uuids []) w3) as (Hw & Hp);
    [auto | constructor |].
  apply bind_rel; [apply image_writes_preorder|exact Hw|intros st w5 E5].
  apply bind_rel; [apply image_writes_preorder| |intros u6 w6 E6].
  - apply image_writes_upsert_images. apply Hp. rewrite E5. reflexivity.
  - apply (reflexivity (R := image_writes known rows)).
Qed.

(** C1. Whatever the image merge sends to [tbl_image], whether it returns
    or raises: every entry of every upsert batch comes from a legacy row
    with a non-null uploader, which is the entry's [user_id] and belongs to
    the set of target user ids as it is when the image merge starts, and
    with a kind that [derive_aspect_id] maps to the entry's [aspect_id], one
    of the two seeded identifiers. Every row of [tbl_image] afterwards is
    either as it was or has such an owner and aspect. *)
Theorem merge_images_writes_only_valid_rows :
  forall (source_conn : SourceConn) (bs : Z) (w : World),
    let known_user_ids := dom (tbl_user (session (target w))) in
    let w' := snd (merge_images source_conn bs w) in
    (exists new,
        sent (target w') = sent (target w) ++ new
        /\ forall payload entry,
             UpsertImages payload ∈ new -> entry ∈ payload ->
             i_user_id entry ∈ known_user_ids
             /\ (i_aspect_id entry = "card-background"
                 \/ i_aspect_id entry = "sega-passname")
             /\ exists rows row,
                  select_images source_conn = Ok rows
                  /\ row ∈ rows
                  /\ li_uuid row = i_uuid entry
                  /\ li_uploaded_by row = Some (i_user_id entry)
                  /\ derive_aspect_id (li_kind row)
                     = Ok (i_aspect_id entry))
    /\ (forall uuid r,
          tbl_image (session (target w')) !! uuid = Some r ->
          tbl_image (session (target w)) !! uuid = Some r
          \/ (i_user_id r ∈ known_user_ids
              /\ (i_aspect_id r = "card-background"
                  \/ i_aspect_id r = "sega-passname"))).
Proof.
  intros source_conn bs w known_user_ids w'.
  destruct (image_writes_merge_images source_conn bs w)
    as ((new & Hsent & Hnew) & Htbl & _).
  split; [|exact Htbl].
  exists new. split; [exact Hsent|].
  intros payload entry Hin Hentry.
  rewrite Forall_forall in Hnew. specialize (Hnew _ Hin). simpl in Hnew.
  rewrite Forall_forall in Hnew. specialize (Hnew _ Hentry).
  pose proof (image_entry_from_valid _ _ _ Hnew) as (Hu & Ha).
  split; [exact Hu|]. split; [exact Ha|].
  destruct Hnew as (row & Hrow & H1 & H2 & _ & H3).
  destruct (select_images source_conn) as [rows|e].
  - exists rows, row. repeat split; assumption.
  - apply elem_of_nil in Hrow. destruct Hrow.
Qed.

(* ===================================================================== *)
(** ** The image merge, when it returns                                  *)
(* ===================================================================== *)

Lemma accepted_rows_cons (known : gset Z) (row : LegacyImage)
    (rows : list LegacyImage) :
  accepted_rows known (row :: rows)
  = match image_accepted known row with
    | Some (u, a) => (row, u, a) :: accepted_rows known rows
    | None => accepted_rows known rows
    end.
Proof.
  unfold accepted_rows. simpl.
  destruct (image_accepted known row) as [[u a]|]; reflexivity.
Qed.

Lemma accepted_rows_length (known : gset Z) (rows : list LegacyImage) :
  (length (accepted_rows known rows) <= length rows)%nat.
Proof.
  induction rows as [|row rows IH]; [reflexivity|].
  rewrite accepted_rows_cons.
  destruct (image_accepted known row) as [[u a]|]; simpl; lia.
Qed.

Lemma merge_images_loop_ok (bs : Z) (known : gset Z)
    (rows : list LegacyImage) :
  forall st w st' w',
    merge_images_loop bs known rows st w = (Ok st', w') ->
    exists entries,
      Forall2 image_entry_of (accepted_rows known rows) entries
      /\ upsert_rows i_uuid image_on_conflict
           (tbl_image (session (target w'))) (il_payload st')
         = upsert_rows i_uuid image_on_conflict
             (tbl_image (session (target w))) (il_payload st ++ entries)
      /\ tbl_user (session (target w')) = tbl_user (session (target w))
      /\ tbl_image_aspect (session (target w'))
         = tbl_image_aspect (session (target w))
      /\ tbl_user_id_seq (target w') = tbl_user_id_seq (target w)
      /\ processed (il_summary st')
         = processed (il_summary st) + Z.of_nat (length rows)
      /\ skipped (il_summary st')
         = skipped (il_summary st) + Z.of_nat (length rows)
           - Z.of_nat (length entries)
      /\ inserted (il_summary st') + updated (il_summary st')
         = inserted (il_summary st) + updated (il_summary st)
           + Z.of_nat (length entries)
      /\ inserted (il_summary st) <= inserted (il_summary st')
      /\ updated (il_summary st) <= updated (il_summary st')
      /\ ((forall x, x ∈ accepted_rows known rows ->
             li_uuid x.1.1 ∈ il_existing_uuids st) ->
          inserted (il_summary st') = inserted (il_summary st)).
Proof.
  induction rows as [|row rows IH]; intros st w st' w' Hrun.
  - simpl in Hrun. inversion Hrun; subst. exists [].
    rewrite app_nil_r. simpl length. change (Z.of_nat 0) with 0.
    repeat split; try reflexivity; try lia. constructor.
  - cbn [merge_images_loop] in Hrun.
    apply bind_ok in Hrun. destruct Hrun as (st1 & w1 & Hstep & Hrun).
    apply IH in Hrun.
    destruct Hrun as (entries & F & V & I1 & I2 & I3 & P1 & P2 & P3 & P4
                      & P5 & P6).
    rewrite accepted_rows_cons.
    simpl length. rewrite Nat2Z.inj_succ.
    destruct (image_accepted known row) as [[u a]|] eqn:Hacc.
    + destruct (merge_images_step_accepted bs known row st w u a Hacc)
        as (entry & n & Had & Hstep').
      rewrite Hstep' in Hstep. clear Hstep'. cbv zeta in Hstep.
      set (counted :=
             if decide (li_uuid row ∈ il_existing_uuids st)
             then (incr_updated (incr_processed (il_summary st)),
                   il_existing_uuids st)
             else (incr_inserted (incr_processed (il_summary st)),
                   {[li_uuid row]} ∪ il_existing_uuids st)) in *.
      assert (Hc : processed counted.1 = processed (il_summary st) + 1
                   /\ skipped counted.1 = skipped (il_summary st)
                   /\ inserted counted.1 + updated counted.1
                      = inserted (il_summary st) + updated (il_summary st) + 1
                   /\ inserted (il_summary st) <= inserted counted.1
                   /\ updated (il_summary st) <= updated counted.1
                   /\ il_existing_uuids st ⊆ counted.2
                   /\ (li_uuid row ∈ il_existing_uuids st ->
                       inserted counted.1 = inserted (il_summary st))).
      { subst counted.
        destruct (decide (li_uuid row ∈ il_existing_uuids st)); simpl;
          repeat split; try lia; try set_solver. }
      destruct counted as [summary1 existing1]. simpl in Hc, Hstep.
      destruct Hc as (C1 & C2 & C3 & C4 & C5 & C6 & C7).
      assert (Hview :
                upsert_rows i_uuid image_on_conflict
                  (tbl_image (session (target w1))) (il_payload st1)
                = upsert_rows i_uuid image_on_conflict
                    (tbl_image (session (target w)))
                    (il_payload st ++ [entry])
                /\ tbl_user (session (target w1))
                   = tbl_user (session (target w))
                /\ tbl_image_aspect (session (target w1))
                   = tbl_image_aspect (session (target w))
                /\ tbl_user_id_seq (target w1) = tbl_user_id_seq (target w)
                /\ il_summary st1 = summary1
                /\ il_existing_uuids st1 = existing1).
      { destruct (Z.of_nat (length (il_payload st ++ [entry])) >=? bs).
        - destruct (execute (UpsertImages (il_payload st ++ [entry]))
                      (set_clock_reads n w)) as [[u0|err] w2] eqn:Ex;
            [|discriminate].
          inversion Hstep; subst st1 w2. clear Hstep.
          apply execute_ok in Ex. destruct Ex as (Hs & Hq & _).
          simpl in Hs, Hq. rewrite Hs, Hq. simpl.
          repeat split; reflexivity.
        - inversion Hstep; subst st1 w1. simpl.
          repeat split; reflexivity. }
      destruct Hview as (V1 & V2 & V3 & V4 & V5 & V6).
      rewrite V5 in *. rewrite V6 in *.
      exists (entry :: entries).
      split; [constructor; [exact Had|exact F]|].
      split.
      { rewrite V, upsert_rows_app, V1, <- upsert_rows_app, <- app_assoc.
        reflexivity. }
      rewrite I1, I2, I3, V2, V3, V4.
      simpl length. rewrite Nat2Z.inj_succ.
      repeat split; try reflexivity; try lia.
      intros Hall. rewrite P6.
      * apply C7. apply (Hall (row, u, a)). left.
      * intros x Hx. apply C6. apply Hall. right. exact Hx.
    + destruct (merge_images_step_skipped bs known row st w Hacc)
        as (reason & Hstep').
      rewrite Hstep' in Hstep. inversion Hstep; subst st1 w1. clear Hstep.
      simpl in *.
      exists entries. split; [exact F|]. split; [exact V|].
      repeat split; try assumption; try lia.
Qed.

Lemma upsert_images_ok (payload : list TargetImage) (w w' : World)
    (u : unit) :
  _upsert_images payload w = (Ok u, w') ->
  tbl_image (session (target w'))
  = upsert_rows i_uuid image_on_conflict (tbl_image (session (target w)))
      payload
  /\ tbl_user (session (target w')) = tbl_user (session (target w))
  /\ tbl_image_aspect (session (target w'))
     = tbl_image_aspect (session (target w))
  /\ tbl_user_id_seq (target w') = tbl_user_id_seq (target w).
Proof.
  destruct payload as [|e es]; simpl.
  - intros E. inversion E; subst. repeat split; reflexivity.
  - intros E. apply execute_ok in E. destruct E as (Hs & Hq & _).
    rewrite Hs, Hq. repeat split; reflexivity.
Qed.

Lemma ensure_required_aspects_ok (w w' : World) (u : unit) :
  ensure_required_aspects w = (Ok u, w') ->
  tbl_image_aspect (session (target w'))
  = aspects_ensured (tbl_image_aspect (session (target w)))
  /\ tbl_user (session (target w')) = tbl_user (session (target w))
  /\ tbl_image (session (target w')) = tbl_image (session (target w))
  /\ tbl_user_id_seq (target w') = tbl_user_id_seq (target w).
Proof.
  unfold ensure_required_aspects. intros E.
  apply bind_ok in E. destruct E as (u1 & w1 & Hex & E).
  apply execute_ok in Hex. destruct Hex as (Hs & Hq & _). simpl in Hs, Hq.
  apply bind_ok in E. destruct E as (t & w2 & Hget & E).
  inversion Hget; subst t w2. clear Hget.
  unfold aspects_ensured. rewrite <- Hs.
  destruct (filter _ required_aspects) as [|d ds] eqn:Ef.
  - inversion E; subst. rewrite Hs, Hq. repeat split; reflexivity.
  - apply execute_ok in E. destruct E as (Hs' & Hq' & _).
    rewrite Hs', Hq'. simpl. rewrite Hs, Hq. repeat split; reflexivity.
Qed.

(** What [merge_images] has done when it returns. *)
Lemma merge_images_ok (source_conn : SourceConn) (bs : Z) (w w' : World)
    (summary : MergeSectionResult) :
  merge_images source_conn bs w = (Ok summary, w') ->
  let known := dom (tbl_user (session (target w))) in
  exists rows entries,
    select_images source_conn = Ok rows
    /\ Forall2 image_entry_of (accepted_rows known rows) entries
    /\ tbl_image (session (target w'))
       = upsert_rows i_uuid image_on_conflict
           (tbl_image (session (target w))) entries
    /\ tbl_user (session (target w')) = tbl_user (session (target w))
    /\ tbl_image_aspect (session (target w'))
       = aspects_ensured (tbl_image_aspect (session (target w)))
    /\ tbl_user_id_seq (target w') = tbl_user_id_seq (target w)
    /\ processed summary = Z.of_nat (length rows)
    /\ skipped summary
       = Z.of_nat (length rows) - Z.of_nat (length entries)
    /\ inserted summary + updated summary = Z.of_nat (length entries)
    /\ 0 <= inserted summary
    /\ 0 <= updated summary
    /\ ((forall x, x ∈ accepted_rows known rows ->
           li_uuid x.1.1 ∈ dom (tbl_image (session (target w)))) ->
        inserted summary = 0).
Proof.
  intros E known. unfold merge_images in E.
  apply bind_ok in E. destruct E as (u1 & w1 & Hens & E).
  apply ensure_required_aspects_ok in Hens.
  destruct Hens as (A1 & A2 & A3 & A4).
  apply bind_ok in E. destruct E as (uuids & w2 & Huu & E).
  apply collect_image_uuids_ok in Huu. destruct Huu as (-> & S2 & Q2).
  apply bind_ok in E. destruct E as (ids & w3 & Hids & E).
  apply collect_user_ids_ok in Hids. destruct Hids as (-> & S3 & Q3).
  apply bind_ok in E. destruct E as (rows & w4 & Hrows & E).
  apply source_execute_ok in Hrows. destruct Hrows as (Hrows & ->).
  apply bind_ok in E. destruct E as (st & w5 & Hloop & E).
  apply merge_images_loop_ok in Hloop.
  destruct Hloop as (entries & F & V & I1 & I2 & I3 & P1 & P2 & P3 & P4
                     & P5 & P6).
  apply bind_ok in E. destruct E as (u6 & w6 & Hflush & E).
  apply upsert_images_ok in Hflush. destruct Hflush as (U1 & U2 & U3 & U4).
  inversion E; subst summary w6. clear E.
  assert (Hk : dom (tbl_user (session (target w2))) = known).
  { subst known. rewrite S2, A2. reflexivity. }
  rewrite Hk in *.
  exists rows, entries.
  simpl in V, P1, P2, P3, P4, P5, P6.
  rewrite S3, S2 in V, I1, I2. rewrite A3 in V, P6.
  rewrite U1, U2, U3, U4, V, I1, I2, I3, Q3, Q2, A1, A2, A4.
  repeat split; try assumption; try reflexivity; try lia.
Qed.

(* ===================================================================== *)
(** ** Skipped image rows                                                *)
(* ===================================================================== *)

(** C2. One iteration of the image loop tests, in this order: a null
    uploader, an uploader that is not a known target user, a kind that
    [derive_aspect_id] rejects. The first test that fails decides the
    warning; the iteration then returns with [processed] and [skipped] each
    one up and everything else as it was (counters of inserts and updates,
    pending payload, known uuids), sends nothing to the target, and the
    loop goes on with the rows that follow. When the whole image merge
    returns, it has processed every row and skipped exactly those that are
    not accepted. *)
Theorem merge_images_skip_order :
  forall (bs : Z) (known : gset Z) (row : LegacyImage)
         (rows : list LegacyImage) (st : ImageLoop) (w : World),
    let st_skip :=
      mkImageLoop
        {| processed := processed (il_summary st) + 1;
           inserted := inserted (il_summary st);
           updated := updated (il_summary st);
           skipped := skipped (il_summary st) + 1 |}
        (il_existing_uuids st) (il_payload st) in
    let w_skip reason := set_warnings (warnings w ++ [reason]) w in
    (li_uploaded_by row = None ->
       merge_images_step bs known row st w
       = (Ok st_skip, w_skip (WarnNoUploader (li_uuid row))))
    /\ (forall u, li_uploaded_by row = Some u -> u ∉ known ->
          merge_images_step bs known row st w
          = (Ok st_skip, w_skip (WarnUploaderMissing (li_uuid row) u)))
    /\ (forall u exc, li_uploaded_by row = Some u -> u ∈ known ->
          derive_aspect_id (li_kind row) = Raise exc ->
          merge_images_step bs known row st w
          = (Ok st_skip, w_skip (WarnUnknownAspect (li_uuid row) exc)))
    /\ (forall reason,
          merge_images_step bs known row st w = (Ok st_skip, w_skip reason) ->
          target (w_skip reason) = target w
          /\ merge_images_loop bs known (row :: rows) st w
             = merge_images_loop bs known rows st_skip (w_skip reason))
    /\ (image_accepted known row = None <->
        li_uploaded_by row = None
        \/ (exists u, li_uploaded_by row = Some u /\ u ∉ known)
        \/ (exists u exc, li_uploaded_by row = Some u /\ u ∈ known
                          /\ derive_aspect_id (li_kind row) = Raise exc))
    /\ (forall source_conn summary w' all_rows,
          merge_images source_conn bs w = (Ok summary, w') ->
          select_images source_conn = Ok all_rows ->
          let accepted :=
            accepted_rows (dom (tbl_user (session (target w)))) all_rows in
          processed summary = Z.of_nat (length all_rows)
          /\ skipped summary
             = Z.of_nat (length all_rows) - Z.of_nat (length accepted)
          /\ inserted summary + updated summary
             = Z.of_nat (length accepted)).
Proof.
  intros bs known row rows st w st_skip w_skip.
  split; [|split; [|split; [|split; [|split]]]].
  - intros Hu. unfold merge_images_step. rewrite Hu. reflexivity.
  - intros u Hu Hnk. unfold merge_images_step. rewrite Hu.
    rewrite decide_True by exact Hnk. reflexivity.
  - intros u exc Hu Hk Hd. unfold merge_images_step. rewrite Hu.
    rewrite decide_False by (intros Hn; apply Hn; exact Hk).
    rewrite Hd. reflexivity.
  - intros reason Hstep. split; [reflexivity|].
    cbn [merge_images_loop]. unfold bind at 1. rewrite Hstep. reflexivity.
  - unfold image_accepted.
    destruct (li_uploaded_by row) as [u|].
    + destruct (decide (u ∈ known)) as [Hk|Hnk].
      * destruct (derive_aspect_id (li_kind row)) as [a|exc].
        -- split; [discriminate|].
           intros [E|[(u' & E & Hn)|(u' & exc & E & _ & Hd)]];
             [discriminate| |discriminate].
           inversion E; subst. contradiction.
        -- split; [|reflexivity]. intros _. right. right. eauto.
      * split; [|reflexivity]. intros _. right. left. eauto.
    + split; [|reflexivity]. intros _. left. reflexivity.
  - intros source_conn summary w' all_rows Hrun Hrows accepted.
    apply merge_images_ok in Hrun.
    destruct Hrun as (rows' & entries & Hrows' & F & _ & _ & _ & _ & P1 & P2
                      & P3 & _).
    rewrite Hrows in Hrows'. inversion Hrows'; subst rows'.
    apply Forall2_length in F. subst accepted. rewrite F.
    repeat split; assumption.
Qed.

(* ===================================================================== *)
(** ** Running the merge again                                           *)
(* ===================================================================== *)

Lemma merge_steps_ok (config : MergeConfig) (source_conn : SourceConn)
    (w w' : World) (r : MergeResult) :
  merge_steps config source_conn w = (Ok r, w') ->
  exists wa,
    merge_users source_conn (batch_size config) w = (Ok (users r), wa)
    /\ merge_images source_conn (batch_size config) wa = (Ok (images r), w').
Proof.
  unfold merge_steps. intros E.
  apply bind_ok in E. destruct E as (su & wa & Hu & E).
  apply bind_ok in E. destruct E as (si & wb & Hi & E).
  inversion E; subst. exists wa. split; assumption.
Qed.

Lemma max_id_dom (t1 t2 : gmap Z TargetUser) :
  dom t1 = dom t2 -> max_id t1 = max_id t2.
Proof. unfold max_id. intros ->. reflexivity. Qed.

Lemma aspects_ensured_required (tbl : gmap string Aspect) (data : Aspect) :
  data ∈ required_aspects -> a_id data ∈ dom (aspects_ensured tbl).
Proof.
  intros Hin. unfold aspects_ensured. rewrite upsert_rows_dom.
  destruct (decide (a_id data ∈ dom tbl)) as [Hd|Hd].
  - apply elem_of_union_l. exact Hd.
  - apply elem_of_union_r, elem_of_list_to_set, list_elem_of_fmap.
    exists data. split; [reflexivity|].
    apply list_elem_of_filter. split; [|exact Hin].
    intros Hi. apply elem_of_intersection in Hi. destruct Hi as [Hi _].
    contradiction.
Qed.

Lemma aspects_ensured_dom (tbl : gmap string Aspect) :
  "card-background" ∈ dom (aspects_ensured tbl)
  /\ "sega-passname" ∈ dom (aspects_ensured tbl).
Proof.
  split.
  - apply (aspects_ensured_required tbl required_card_background).
    apply elem_of_cons. left. reflexivity.
  - apply (aspects_ensured_required tbl required_sega_passname).
    apply elem_of_cons. right. apply elem_of_cons. left. reflexivity.
Qed.

Lemma aspects_ensured_id (tbl : gmap string Aspect) :
  "card-background" ∈ dom tbl -> "sega-passname" ∈ dom tbl ->
  aspects_ensured tbl = tbl.
Proof.
  intros H1 H2. unfold aspects_ensured, required_aspects.
  rewrite !filter_cons, filter_nil.
  rewrite !decide_False; [reflexivity| |]; simpl; intros Hn; apply Hn;
    apply elem_of_intersection; (split; [assumption|]);
    rewrite elem_of_union, !elem_of_singleton; auto.
Qed.

Lemma aspects_ensured_idempotent (tbl : gmap string Aspect) :
  aspects_ensured (aspects_ensured tbl) = aspects_ensured tbl.
Proof.
  destruct (aspects_ensured_dom tbl). apply aspects_ensured_id; assumption.
Qed.

(** A run that commits, seen from the committed tables. *)
Lemma run_merge_real_ok (config : MergeConfig) (source_conn : SourceConn)
    (w w' : World) (r : MergeResult) :
  dry_run config = false ->
  run_merge config source_conn w = (Ok r, w') ->
  exists rows_u es_u rows_i es_i,
    select_users source_conn = Ok rows_u
    /\ Forall2 user_adapted rows_u es_u
    /\ tbl_user (committed (target w'))
       = upsert_rows u_id user_on_conflict (tbl_user (committed (target w)))
           es_u
    /\ select_images source_conn = Ok rows_i
    /\ Forall2 image_entry_of
         (accepted_rows (dom (tbl_user (committed (target w')))) rows_i) es_i
    /\ tbl_image (committed (target w'))
       = upsert_rows i_uuid image_on_conflict
           (tbl_image (committed (target w))) es_i
    /\ tbl_image_aspect (committed (target w'))
       = aspects_ensured (tbl_image_aspect (committed (target w)))
    /\ tbl_user_id_seq (target w')
       = setval (COALESCE (max_id (tbl_user (committed (target w')))) 0) true
    /\ processed (users r) = Z.of_nat (length rows_u)
    /\ inserted (users r) + updated (users r) = Z.of_nat (length rows_u)
    /\ skipped (users r) = 0
    /\ ((forall row, row ∈ rows_u ->
           lu_id row ∈ dom (tbl_user (committed (target w)))) ->
        inserted (users r) = 0)
    /\ processed (images r) = Z.of_nat (length rows_i)
    /\ skipped (images r)
       = Z.of_nat (length rows_i) - Z.of_nat (length es_i)
    /\ inserted (images r) + updated (images r) = Z.of_nat (length es_i)
    /\ ((forall x,
           x ∈ accepted_rows (dom (tbl_user (committed (target w')))) rows_i ->
           li_uuid x.1.1 ∈ dom (tbl_image (committed (target w)))) ->
        inserted (images r) = 0).
Proof.
  intros Hreal Hrun.
  rewrite run_merge_unfold in Hrun. cbv zeta in Hrun.
  pose proof (open_transactions_run w) as (_ & _ & _ & Hsess & _).
  set (wo := snd (open_transactions w)) in *.
  destruct (merge_steps config source_conn wo) as [[r'|e] wb] eqn:Esteps;
    simpl in Hrun; [|discriminate].
  rewrite Hreal in Hrun. inversion Hrun; subst r' w'. clear Hrun.
  simpl.
  apply merge_steps_ok in Esteps. destruct Esteps as (wa & Hu & Hi).
  apply merge_users_ok in Hu.
  destruct Hu as (rows_u & es_u & Su & Fu & Tu & Ti & Ta & Tq & U1 & U2 & _
                  & _ & U5 & U6).
  apply merge_images_ok in Hi.
  destruct Hi as (rows_i & es_i & Si & Fi & Vi & Vu & Va & Vq & I1 & I2 & I3
                  & _ & _ & I6).
  exists rows_u, es_u, rows_i, es_i.
  rewrite Vu, Vi, Va, Vq, Tq, Tu, Ti, Ta, Hsess in *.
  repeat split; assumption.
Qed.

Lemma user_adapted_agree (rows : list LegacyUser) :
  forall es1 es2,
    Forall2 user_adapted rows es1 -> Forall2 user_adapted rows es2 ->
    Forall2 (fun a b => u_id a = u_id b /\ user_written a = user_written b)
      es1 es2.
Proof.
  induction rows as [|row rows IH]; intros es1 es2 F1 F2;
    inversion F1; inversion F2; subst; constructor.
  - unfold user_written.
    repeat match goal with
           | H : user_adapted _ _ |- _ =>
               destruct H as (? & ? & ? & ? & ?)
           end.
    split; congruence.
  - apply IH; assumption.
Qed.

Lemma image_entry_agree (xs : list (LegacyImage * Z * string)) :
  forall es1 es2,
    Forall2 image_entry_of xs es1 -> Forall2 image_entry_of xs es2 ->
    Forall2 (fun a b => i_uuid a = i_uuid b
                        /\ image_written a = image_written b) es1 es2.
Proof.
  induction xs as [|x xs IH]; intros es1 es2 F1 F2;
    inversion F1; inversion F2; subst; constructor.
  - unfold image_written.
    repeat match goal with
           | H : image_entry_of _ _ |- _ =>
               destruct H as (? & ? & ? & ? & ? & ? & ? & ? & ?)
           end.
    split; congruence.
  - apply IH; assumption.
Qed.

Lemma adapted_user_ids (rows : list LegacyUser) (es : list TargetUser) :
  Forall2 user_adapted rows es -> u_id <$> es = lu_id <$> rows.
Proof.
  induction 1 as [|row e rows es (Hid & _) _ IH]; [reflexivity|].
  rewrite !fmap_cons. f_equal; assumption.
Qed.

Lemma adapted_image_uuids (xs : list (LegacyImage * Z * string))
    (es : list TargetImage) :
  Forall2 image_entry_of xs es ->
  i_uuid <$> es = (fun x => li_uuid x.1.1) <$> xs.
Proof.
  induction 1 as [|x e xs es (Hid & _) _ IH]; [reflexivity|].
  rewrite !fmap_cons. f_equal; assumption.
Qed.

(** C5 (as the code has it). A second committed run on the same source
    answers, from the target state the first one left (at any later time),
    leaves the same rows in [tbl_user] and [tbl_image] up to their
    [updated_at], which is the time of the second run, the same
    [tbl_image_aspect] and the same sequence value; it inserts nothing:
    every user row is counted as an update, and every image row as an
    update or, as in the first run, as a skip. *)
Theorem run_merge_twice :
  forall (config : MergeConfig) (source_conn : SourceConn)
         (w0 w1 w1' w2 : World) (r1 r2 : MergeResult),
    dry_run config = false ->
    run_merge config source_conn w0 = (Ok r1, w1) ->
    committed (target w1') = committed (target w1) ->
    run_merge config source_conn w1' = (Ok r2, w2) ->
    tables_same_but_updated_at (committed (target w1)) (committed (target w2))
    /\ tbl_user_id_seq (target w2) = tbl_user_id_seq (target w1)
    /\ inserted (users r2) = 0
    /\ updated (users r2) = processed (users r2)
    /\ inserted (images r2) = 0
    /\ updated (images r2) = processed (images r2) - skipped (images r2)
    /\ processed (users r2) = processed (users r1)
    /\ processed (images r2) = processed (images r1)
    /\ skipped (images r2) = skipped (images r1).
Proof.
  intros config source_conn w0 w1 w1' w2 r1 r2 Hreal Hrun1 Hsame Hrun2.
  apply run_merge_real_ok in Hrun1; [|exact Hreal].
  apply run_merge_real_ok in Hrun2; [|exact Hreal].
  rewrite Hsame in Hrun2.
  destruct Hrun1 as (rows_u & eu1 & rows_i & ei1 & Su & Fu1 & Tu1 & Si & Fi1
                     & Ti1 & Ta1 & Tq1 & PU1 & _ & _ & _ & PI1 & PI2 & _).
  destruct Hrun2 as (rows_u' & eu2 & rows_i' & ei2 & Su' & Fu2 & Tu2 & Si'
                     & Fi2 & Ti2 & Ta2 & Tq2 & QU1 & QU2 & QU3 & QU4 & QI1
                     & QI2 & QI3 & QI4).
  rewrite Su in Su'. inversion Su'; subst rows_u'. clear Su'.
  rewrite Si in Si'. inversion Si'; subst rows_i'. clear Si'.
  assert (Hids : forall row, row ∈ rows_u ->
                   lu_id row ∈ dom (tbl_user (committed (target w1)))).
  { intros row Hin. rewrite Tu1, upsert_rows_dom.
    apply elem_of_union_r, elem_of_list_to_set.
    rewrite (adapted_user_ids _ _ Fu1).
    apply list_elem_of_fmap. exists row. split; [reflexivity|exact Hin]. }
  assert (Hdom : dom (tbl_user (committed (target w2)))
                 = dom (tbl_user (committed (target w1)))).
  { rewrite Tu2, upsert_rows_dom, (adapted_user_ids _ _ Fu2).
    rewrite (comm_L (∪)). apply subseteq_union_1_L. intros k Hk.
    apply elem_of_list_to_set, list_elem_of_fmap in Hk.
    destruct Hk as (row & -> & Hin). apply Hids. exact Hin. }
  rewrite Hdom in Fi2, QI4.
  assert (Huuids : forall x,
             x ∈ accepted_rows (dom (tbl_user (committed (target w1))))
                   rows_i ->
             li_uuid x.1.1 ∈ dom (tbl_image (committed (target w1)))).
  { intros x Hin. rewrite Ti1, upsert_rows_dom.
    apply elem_of_union_r, elem_of_list_to_set.
    rewrite (adapted_image_uuids _ _ Fi1).
    apply list_elem_of_fmap. exists x. split; [reflexivity|exact Hin]. }
  assert (Hlen : length ei2 = length ei1).
  { apply Forall2_length in Fi1. apply Forall2_length in Fi2. congruence. }
  specialize (QU4 Hids). specialize (QI4 Huuids).
  split; [|repeat split; try lia].
  - split; [|split].
    + intros k. rewrite Tu2, Tu1.
      pose proof (upsert_rows_twice u_id user_on_conflict user_written
                    user_kept (fun _ _ => eq_refl) (fun _ _ => eq_refl)
                    (tbl_user (committed (target w0))) eu1 eu2 k
                    (user_adapted_agree _ _ _ Fu1 Fu2)) as Hk.
      destruct Hk as [a b (Hw & Hkp)|]; constructor.
      unfold user_written, user_kept in Hw, Hkp.
      inversion Hw; inversion Hkp. repeat split; assumption.
    + intros k. rewrite Ti2, Ti1.
      pose proof (upsert_rows_twice i_uuid image_on_conflict image_written
                    image_kept (fun _ _ => eq_refl) (fun _ _ => eq_refl)
                    (tbl_image (committed (target w0))) ei1 ei2 k
                    (image_entry_agree _ _ _ Fi1 Fi2)) as Hk.
      destruct Hk as [a b (Hw & Hkp)|]; constructor.
      unfold image_written, image_kept in Hw, Hkp.
      inversion Hw; inversion Hkp. repeat split; assumption.
    + rewrite Ta2, Ta1. symmetry. apply aspects_ensured_idempotent.
  - rewrite Tq2, Tq1. rewrite (max_id_dom _ _ Hdom). reflexivity.
Qed.

(* ===================================================================== *)
(** ** The run returns when nothing is rejected                          *)
(* ===================================================================== *)

Lemma returns_ret {A : Type} (a : A) : returns (ret a).
Proof. intros w _. exists a. reflexivity. Qed.

Lemma returns_bind {A B : Type} (m : M A) (k : A -> M B) :
  stable frame m -> returns m -> (forall a, returns (k a)) ->
  returns (bind m k).
Proof.
  intros Hf Hm Hk w Hw. destruct (Hm w Hw) as (a & Ha).
  specialize (Hf w). unfold bind.
  destruct (m w) as [r w1]. simpl in Ha, Hf. subst r.
  apply Hk. intros n s t. destruct Hf as (_ & Hfault & _).
  rewrite Hfault. apply Hw.
Qed.

Lemma returns_utcnow : returns utcnow.
Proof. intros w _. eexists. reflexivity. Qed.

Lemma returns_log_warning (x : Warning) : returns (log_warning x).
Proof. intros w _. eexists. reflexivity. Qed.

Lemma returns_get_session : returns get_session.
Proof. intros w _. eexists. reflexivity. Qed.

Lemma returns_execute (s : Stmt) : returns (execute s).
Proof.
  intros w Hw. unfold execute. rewrite Hw.
  destruct (apply_stmt s _ _). exists tt. reflexivity.
Qed.

Lemma returns_source_execute {A : Type} (rows : list A) :
  returns (source_execute (Ok rows)).
Proof. intros w _. exists rows. reflexivity. Qed.

Create HintDb returnsdb discriminated.

#[local] Hint Resolve returns_utcnow returns_log_warning returns_get_session
  returns_execute : returnsdb.

Ltac returns_auto :=
  repeat first
    [ apply returns_ret
    | apply returns_source_execute
    | solve [ auto with returnsdb ]
    | apply returns_bind; [ solve [ frame_auto ] | | intros ? ]
    | match goal with
      | |- returns (match ?x with _ => _ end) => destruct x
      end ].

Lemma returns_ensure_datetime (value : option datetime) :
  returns (_ensure_datetime value).
Proof. unfold _ensure_datetime. returns_auto. Qed.

#[local] Hint Resolve returns_ensure_datetime : returnsdb.

Lemma returns_adapt_user_row (row : LegacyUser) :
  returns (_adapt_user_row row).
Proof. unfold _adapt_user_row. returns_auto. Qed.

Lemma returns_upsert_users (payload : list TargetUser) :
  returns (_upsert_users payload).
Proof. unfold _upsert_users. returns_auto. Qed.

#[local] Hint Resolve returns_adapt_user_row returns_upsert_users
  : returnsdb.

Lemma returns_merge_users_loop (bs : Z) (rows : list LegacyUser) :
  forall summary existing_ids payload,
    returns (merge_users_loop bs rows summary existing_ids payload).
Proof.
  induction rows as [|row rows IH]; intros; cbn [merge_users_loop];
    returns_auto.
Qed.

#[local] Hint Resolve returns_merge_users_loop : returnsdb.

Lemma returns_merge_users (source_conn : SourceConn) (bs : Z)
    (rows : list LegacyUser) :
  select_users source_conn = Ok rows ->
  returns (merge_users source_conn bs).
Proof.
  intros Hrows.
  unfold merge_users, _collect_existing_ids_tbl_user, _sync_sequence.
  rewrite Hrows. returns_auto.
Qed.

Lemma returns_adapt_image_row (row : LegacyImage) (u : Z) (a : string) :
  returns (_adapt_image_row row u a).
Proof. unfold _adapt_image_row. returns_auto. Qed.

Lemma returns_upsert_images (payload : list TargetImage) :
  returns (_upsert_images payload).
Proof. unfold _upsert_images. returns_auto. Qed.

#[local] Hint Resolve returns_adapt_image_row returns_upsert_images
  : returnsdb.

Lemma returns_merge_images_step (bs : Z) (known : gset Z)
    (row : LegacyImage) (st : ImageLoop) :
  returns (merge_images_step bs known row st).
Proof. unfold merge_images_step. returns_auto. Qed.

#[local] Hint Resolve returns_merge_images_step : returnsdb.

Lemma returns_merge_images_loop (bs : Z) (known : gset Z)
    (rows : list LegacyImage) :
  forall st, returns (merge_images_loop bs known rows st).
Proof.
  induction rows as [|row rows IH]; intros; cbn [merge_images_loop];
    returns_auto.
Qed.

Lemma returns_ensure_required_aspects : returns ensure_required_aspects.
Proof. unfold ensure_required_aspects. returns_auto. Qed.

#[local] Hint Resolve returns_merge_images_loop
  returns_ensure_required_aspects : returnsdb.

Lemma returns_merge_images (source_conn : SourceConn) (bs : Z)
    (rows : list LegacyImage) :
  select_images source_conn = Ok rows ->
  returns (merge_images source_conn bs).
Proof.
  intros Hrows.
  unfold merge_images, _collect_existing_ids_tbl_user,
    _collect_existing_ids_tbl_image.
  rewrite Hrows. returns_auto.
Qed.

(** When the two source queries answer and the target server rejects no
    statement, [run_merge] returns counters, dry run or not. *)
Lemma run_merge_returns (config : MergeConfig) (source_conn : SourceConn)
    (w : World) (rows_u : list LegacyUser) (rows_i : list LegacyImage) :
  never_faults w ->
  select_users source_conn = Ok rows_u ->
  select_images source_conn = Ok rows_i ->
  exists r, fst (run_merge config source_conn w) = Ok r.
Proof.
  intros Hw Hu Hi.
  assert (Hsteps : returns (merge_steps config source_conn)).
  { unfold merge_steps.
    pose proof (returns_merge_users source_conn (batch_size config) _ Hu).
    pose proof (returns_merge_images source_conn (batch_size config) _ Hi).
    apply returns_bind; [apply frame_merge_users|assumption|intros su].
    apply returns_bind; [apply frame_merge_images|assumption|intros si].
    apply returns_ret. }
  destruct (Hsteps (snd (open_transactions w))) as (r & Hr).
  { intros n s t. apply Hw. }
  exists r. rewrite run_merge_unfold. cbv zeta. rewrite Hr.
  destruct (dry_run config); reflexivity.
Qed.

(* ===================================================================== *)
(** ** The properties on the sample data                                 *)
(* ===================================================================== *)

Lemma sample_first_run :
  run_merge (Sample.config false) Sample.source_conn Sample.w0
  = (Ok Sample.r1, Sample.w1).
Proof. vm_compute. reflexivity. Qed.

Lemma sample_second_run :
  run_merge (Sample.config false) Sample.source_conn Sample.w1
  = (Ok Sample.r2, Sample.w2).
Proof. vm_compute. reflexivity. Qed.

Lemma sample_updated_at_first :
  u_updated_at <$> (tbl_user (committed (target Sample.w1)) !! 5)
  = Some {| dt_wall := 1001; dt_tzinfo := None |}.
Proof. vm_compute. reflexivity. Qed.

Lemma sample_updated_at_second :
  u_updated_at <$> (tbl_user (committed (target Sample.w2)) !! 5)
  = Some {| dt_wall := 1006; dt_tzinfo := None |}.
Proof. vm_compute. reflexivity. Qed.

(** C5 (as stated) fails: both runs return, and after the second one the
    row of user 5 has another [updated_at] than after the first, so the two
    target states differ. *)
Lemma run_merge_twice_changes_updated_at :
  run_merge (Sample.config false) Sample.source_conn Sample.w0
  = (Ok Sample.r1, Sample.w1)
  /\ run_merge (Sample.config false) Sample.source_conn Sample.w1
     = (Ok Sample.r2, Sample.w2)
  /\ committed (target Sample.w2) <> committed (target Sample.w1).
Proof.
  split; [exact sample_first_run|]. split; [exact sample_second_run|].
  intros E. pose proof sample_updated_at_second as H2.
  rewrite E, sample_updated_at_first in H2. discriminate.
Qed.

(** C5 on the sample data: the two runs of [Sample], the second one
    starting from the world the first one left. *)
Lemma run_merge_twice_sample :
  tables_same_but_updated_at (committed (target Sample.w1))
    (committed (target Sample.w2))
  /\ tbl_user_id_seq (target Sample.w2) = tbl_user_id_seq (target Sample.w1)
  /\ inserted (users Sample.r2) = 0
  /\ updated (users Sample.r2) = processed (users Sample.r2)
  /\ inserted (images Sample.r2) = 0
  /\ updated (images Sample.r2)
     = processed (images Sample.r2) - skipped (images Sample.r2)
  /\ processed (users Sample.r2) = processed (users Sample.r1)
  /\ processed (images Sample.r2) = processed (images Sample.r1)
  /\ skipped (images Sample.r2) = skipped (images Sample.r1).
Proof.
  apply (run_merge_twice (Sample.config false) Sample.source_conn
           Sample.w0 Sample.w1 Sample.w1 Sample.w2 Sample.r1 Sample.r2).
  - reflexivity.
  - vm_compute. reflexivity.
  - reflexivity.
  - vm_compute. reflexivity.
Defined.

Lemma sample_dry_run_sequence :
  tbl_user_id_seq
    (target (snd (run_merge (Sample.config true) Sample.source_conn
                    Sample.w0)))
  = {| last_value := 7; is_called := true |}.
Proof. vm_compute. reflexivity. Qed.

Lemma sample_dry_run_counters :
  fst (run_merge (Sample.config true) Sample.source_conn Sample.w0)
  = Ok Sample.r1.
Proof. vm_compute. reflexivity. Qed.

Lemma sample_real_run_counters :
  fst (run_merge (Sample.config false) Sample.source_conn Sample.w0)
  = Ok Sample.r1.
Proof. vm_compute. reflexivity. Qed.

Lemma sample_dry_run_tables :
  committed
    (target (snd (run_merge (Sample.config true) Sample.source_conn
                    Sample.w0)))
  = committed (target Sample.w0).
Proof.
  exact (proj1 (dry_run_restores_tables (Sample.config true)
                  Sample.source_conn Sample.w0 eq_refl)).
Qed.

(** C4, on the sample data. The dry run returns the counters of the real
    run and leaves the committed tables as they were, but not the target
    database: the sequence of [tbl_user.id], which had never been used and
    would have given 1, has been set to 7 and will give 8. *)
Theorem dry_run_moves_sequence :
  fst (run_merge (Sample.config true) Sample.source_conn Sample.w0)
  = Ok Sample.r1
  /\ fst (run_merge (Sample.config false) Sample.source_conn Sample.w0)
     = Ok Sample.r1
  /\ committed
       (target (snd (run_merge (Sample.config true) Sample.source_conn
                       Sample.w0)))
     = committed (target Sample.w0)
  /\ tbl_user_id_seq (target Sample.w0)
     = {| last_value := 1; is_called := false |}
  /\ tbl_user_id_seq
       (target (snd (run_merge (Sample.config true) Sample.source_conn
                       Sample.w0)))
     = {| last_value := 7; is_called := true |}
  /\ fst (nextval (tbl_user_id_seq (target Sample.w0))) = 1
  /\ fst (nextval
            (tbl_user_id_seq
               (target (snd (run_merge (Sample.config true)
                               Sample.source_conn Sample.w0))))) = 8
  /\ tbl_user_id_seq
       (target (snd (run_merge (Sample.config true) Sample.source_conn
                       Sample.w0)))
     <> tbl_user_id_seq (target Sample.w0).
Proof.
  split; [exact sample_dry_run_counters|].
  split; [exact sample_real_run_counters|].
  split; [exact sample_dry_run_tables|].
  split; [reflexivity|].
  split; [exact sample_dry_run_sequence|].
  split; [reflexivity|].
  rewrite sample_dry_run_sequence.
  split; [reflexivity|discriminate].
Qed.

Lemma sample_failing_user_merge :
  merge_users Sample.source_conn (batch_size (Sample.config false))
    (snd (open_transactions Sample.w0_failing))
  = (Ok SampleRuns.users_summary, SampleRuns.w_failing_users).
Proof. vm_compute. reflexivity. Defined.

Lemma sample_failing_image_merge :
  fst (merge_images Sample.source_conn (batch_size (Sample.config false))
         SampleRuns.w_failing_users)
  = Raise (DatabaseError "rejected").
Proof. vm_compute. reflexivity. Defined.

(** C3 on the sample data: the server rejects the image upsert, after the
    user merge has returned. *)
Lemma run_merge_rolls_back_sample :
  fst (run_merge (Sample.config false) Sample.source_conn Sample.w0_failing)
  = Raise (DatabaseError "rejected")
  /\ tx_events
       (snd (run_merge (Sample.config false) Sample.source_conn
               Sample.w0_failing))
     = tx_events Sample.w0_failing
       ++ [Connect Source; Connect Target; Begin Source; Begin Target;
           Rollback Target; Rollback Source; Close Target; Close Source;
           Dispose Source; Dispose Target]
  /\ committed
       (target (snd (run_merge (Sample.config false) Sample.source_conn
                       Sample.w0_failing)))
     = committed (target Sample.w0_failing)
  /\ session
       (target (snd (run_merge (Sample.config false) Sample.source_conn
                       Sample.w0_failing)))
     = committed (target Sample.w0_failing).
Proof.
  apply (run_merge_rolls_back_on_exception (Sample.config false)
           Sample.source_conn Sample.w0_failing (DatabaseError "rejected")).
  right. exists SampleRuns.users_summary, SampleRuns.w_failing_users.
  split.
  - vm_compute. reflexivity.
  - vm_compute. reflexivity.
Defined.

Lemma sample_user_merge :
  merge_users Sample.source_conn 500 Sample.w0
  = (Ok SampleRuns.users_summary, SampleRuns.w_users).
Proof. vm_compute. reflexivity. Defined.

(** C9 on the sample data: users 5 and 7 into an empty target. *)
Lemma merge_users_syncs_sequence_sample :
  merge_users Sample.source_conn 500 Sample.w0
  = (Ok SampleRuns.users_summary, SampleRuns.w_users)
  /\ (let seq := tbl_user_id_seq (target SampleRuns.w_users) in
      let ids := dom (tbl_user (session (target SampleRuns.w_users))) in
      seq = setval
              (COALESCE
                 (max_id (tbl_user (session (target SampleRuns.w_users)))) 0)
              true
      /\ (forall rows row, select_users Sample.source_conn = Ok rows ->
            row ∈ rows -> lu_id row ∈ ids)
      /\ (forall k, k ∈ ids -> k <= last_value seq)
      /\ (forall n k, k ∈ ids -> k < nextval_nth n seq)
      /\ (forall n, nextval_nth n seq ∉ ids)).
Proof.
  split.
  - vm_compute. reflexivity.
  - apply (merge_users_syncs_sequence Sample.source_conn 500 Sample.w0
             SampleRuns.w_users SampleRuns.users_summary).
    vm_compute. reflexivity.
Defined.


(* ===================================================================== *)
(** ** transform.py: names and descriptions                              *)
(* ===================================================================== *)










(* ===================================================================== *)
(** ** The user merge: what it writes                                    *)
(* ===================================================================== *)

#[local] Instance user_writes_preorder (rows : list LegacyUser) :
  PreOrder (user_writes rows).
Proof.
  split.
  - intros w. split; [|split; [|split]].
    + exists []. rewrite app_nil_r. split; [reflexivity|constructor].
    + intros k r Hr. left. exact Hr.
    + reflexivity.
    + reflexivity.
  - intros w1 w2 w3 ((n1 & S1 & F1) & T1 & I1 & A1)
      ((n2 & S2 & F2) & T2 & I2 & A2).
    split; [|split; [|split]].
    + exists (n1 ++ n2). rewrite S2, S1, app_assoc.
      split; [reflexivity|]. apply Forall_app. split; assumption.
    + intros k r Hr. apply T2 in Hr. destruct Hr as [Hr|Hr]; auto.
    + congruence.
    + congruence.
Qed.

Lemma user_writes_execute (rows : list LegacyUser) (s : Stmt) :
  user_stmt_from rows s -> stable (user_writes rows) (execute s).
Proof.
  intros Hs w. unfold execute.
  assert (Hsent : exists new : list Stmt,
             sent (target w) ++ [s] = sent (target w) ++ new
             /\ Forall (user_stmt_from rows) new).
  { exists [s]. split; [reflexivity|]. constructor; [exact Hs|constructor]. }
  destruct (db_fault w _ s _).
  - split; [exact Hsent|]. simpl. repeat split; auto.
  - destruct (apply_stmt s _ _) as [tables seq] eqn:E.
    split; [exact Hsent|]. simpl.
    destruct s; try (exfalso; exact Hs); simpl in E; inversion E; subst;
      simpl; repeat split; auto.
    intros k r Hr.
    eapply (upsert_rows_lookup_inv u_id user_on_conflict
              (fun x => u_phone x = None /\ u_privileges x = ["NORMAL"]));
      [| |exact Hr].
    + intros o n' (Hp & Hv). split; assumption.
    + simpl in Hs. eapply Forall_impl; [exact Hs|].
      intros x (row & _ & (_ & _ & _ & Hp & Hv)). split; assumption.
Qed.

Lemma user_writes_upsert_users (rows : list LegacyUser)
    (payload : list TargetUser) :
  Forall (user_entry_from rows) payload ->
  stable (user_writes rows) (_upsert_users payload).
Proof.
  intros Hp. destruct payload as [|e es].
  - apply stable_ret. apply user_writes_preorder.
  - apply user_writes_execute. exact Hp.
Qed.

(** One iteration of the user loop. *)
Lemma merge_users_loop_cons (bs : Z) (row : LegacyUser)
    (rows : list LegacyUser) (summary : MergeSectionResult)
    (existing_ids : gset Z) (payload : list TargetUser) (w : World) :
  exists entry n,
    user_adapted row entry
    /\ merge_users_loop bs (row :: rows) summary existing_ids payload w
       = let counted :=
           if decide (lu_id row ∈ existing_ids)
           then (incr_updated (incr_processed summary), existing_ids)
           else (incr_inserted (incr_processed summary),
                 {[lu_id row]} ∪ existing_ids) in
         if Z.of_nat (length (payload ++ [entry])) >=? bs
         then
           match execute (UpsertUsers (payload ++ [entry]))
                         (set_clock_reads n w) with
           | (Ok _, w2) => merge_users_loop bs rows counted.1 counted.2 [] w2
           | (Raise e, w2) => (Raise e, w2)
           end
         else merge_users_loop bs rows counted.1 counted.2
                (payload ++ [entry]) (set_clock_reads n w).
Proof.
  destruct (adapt_user_row_run row w) as (entry & n & Hrun & Had).
  exists entry, n. split; [exact Had|].
  cbn [merge_users_loop]. unfold bind at 1. rewrite Hrun.
  assert (Hups : _upsert_users (payload ++ [entry])
                 = execute (UpsertUsers (payload ++ [entry])))
    by (destruct payload; reflexivity).
  destruct (decide (lu_id row ∈ existing_ids));
    (destruct (Z.of_nat (length (payload ++ [entry])) >=? bs);
     [ rewrite Hups; unfold bind;
       destruct (execute (UpsertUsers (payload ++ [entry]))
                   (set_clock_reads n w)) as [[u0|err] w2]; reflexivity
     | reflexivity ]).
Qed.

Lemma user_writes_loop (bs : Z) (rows : list LegacyUser)
    (suffix : list LegacyUser) :
  forall summary existing_ids payload w,
    (forall row, row ∈ suffix -> row ∈ rows) ->
    Forall (user_entry_from rows) payload ->
    user_writes rows w
      (snd (merge_users_loop bs suffix summary existing_ids payload w))
    /\ (forall summary' payload',
          fst (merge_users_loop bs suffix summary existing_ids payload w)
          = Ok (summary', payload') ->
          Forall (user_entry_from rows) payload').
Proof.
  induction suffix as [|row suffix IH];
    intros summary existing_ids payload w Hsub Hpay.
  - simpl. split.
    + apply (reflexivity (R := user_writes rows)).
    + intros s' p' E. inversion E; subst. exact Hpay.
  - destruct (merge_users_loop_cons bs row suffix summary existing_ids
                payload w) as (entry & n & Had & ->).
    assert (Hpay' : Forall (user_entry_from rows) (payload ++ [entry])).
    { apply Forall_app. split; [exact Hpay|].
      constructor; [|constructor]. exists row. split; [|exact Had].
      apply Hsub. left. }
    assert (Hsub' : forall r, r ∈ suffix -> r ∈ rows)
      by (intros r Hr; apply Hsub; right; exact Hr).
    cbv zeta.
    destruct (if decide (lu_id row ∈ existing_ids)
              then (incr_updated (incr_processed summary), existing_ids)
              else (incr_inserted (incr_processed summary),
                    {[lu_id row]} ∪ existing_ids)) as [summary1 existing1].
    cbn [fst snd].
    destruct (Z.of_nat (length (payload ++ [entry])) >=? bs).
    + pose proof (user_writes_execute rows
                    (UpsertUsers (payload ++ [entry])) Hpay'
                    (set_clock_reads n w)) as Hw.
      destruct (execute (UpsertUsers (payload ++ [entry]))
                  (set_clock_reads n w)) as [[u|e] w2]; simpl in Hw.
      * destruct (IH summary1 existing1 [] w2 Hsub') as (Hw' & Hp');
          [constructor|].
        split; [|exact Hp']. transitivity w2; [exact Hw|exact Hw'].
      * split; [exact Hw|]. discriminate.
    + destruct (IH summary1 existing1 (payload ++ [entry])
                  (set_clock_reads n w) Hsub' Hpay') as (Hw' & Hp').
      split; [exact Hw'|exact Hp'].
Qed.

Lemma user_writes_merge_users (source_conn : SourceConn) (bs : Z)
    (w : World) :
  user_writes
    (match select_users source_conn with Ok rows => rows | Raise _ => [] end)
    w (snd (merge_users source_conn bs w)).
Proof.
  set (rows := match select_users source_conn with
               | Ok rows => rows | Raise _ => [] end).
  unfold merge_users.
  apply bind_rel; [apply user_writes_preorder| |intros ids w1 E1].
  { unfold _collect_existing_ids_tbl_user.
    apply stable_bind; [apply user_writes_preorder| |intros _].
    { apply user_writes_execute. exact I. }
    apply stable_bind; [apply user_writes_preorder| |intros t].
    { apply stable_get_session. apply user_writes_preorder. }
    apply stable_ret. apply user_writes_preorder. }
  apply bind_rel; [apply user_writes_preorder| |intros rows' w2 E2].
  { apply stable_source_execute. apply user_writes_preorder. }
  apply source_execute_ok in E2. destruct E2 as (Hrows & ->).
  assert (rows' = rows) as -> by (subst rows; rewrite Hrows; reflexivity).
  destruct (user_writes_loop bs rows rows MergeSectionResult0 ids [] w1)
    as (Hw & Hp); [auto|constructor|].
  apply bind_rel; [apply user_writes_preorder|exact Hw|].
  intros [summary payload] w3 E3.
  apply bind_rel; [apply user_writes_preorder| |intros u4 w4 E4].
  { apply user_writes_upsert_users. apply (Hp summary). rewrite E3.
    reflexivity. }
  apply bind_rel; [apply user_writes_preorder| |intros u5 w5 E5].
  { apply user_writes_execute. exact I. }
  apply (reflexivity (R := user_writes rows)).
Qed.

(** X3. Whatever the user merge sends, whether it returns or raises: every
    entry of every user upsert batch carries the id, the username and the
    hashed password of one legacy row, no phone and the single role NORMAL;
    the merge sends nothing to the image and aspect tables and leaves them
    as they are; every row of [tbl_user] afterwards is as it was or has no
    phone and the single role NORMAL. *)
Theorem merge_users_writes_only_adapted_rows :
  forall (source_conn : SourceConn) (bs : Z) (w : World),
    let w' := snd (merge_users source_conn bs w) in
    (exists new,
        sent (target w') = sent (target w) ++ new
        /\ (forall s, s ∈ new ->
              s = SelectUserIds \/ s = SyncUserIdSeq
              \/ exists payload, s = UpsertUsers payload)
        /\ forall payload entry,
             UpsertUsers payload ∈ new -> entry ∈ payload ->
             u_phone entry = None
             /\ u_privileges entry = ["NORMAL"]
             /\ exists rows row,
                  select_users source_conn = Ok rows
                  /\ row ∈ rows
                  /\ u_id entry = lu_id row
                  /\ u_username entry = lu_username row
                  /\ u_password entry = lu_hashed_password row)
    /\ (forall k r,
          tbl_user (session (target w')) !! k = Some r ->
          tbl_user (session (target w)) !! k = Some r
          \/ (u_phone r = None /\ u_privileges r = ["NORMAL"]))
    /\ tbl_image (session (target w')) = tbl_image (session (target w))
    /\ tbl_image_aspect (session (target w'))
       = tbl_image_aspect (session (target w)).
Proof.
  intros source_conn bs w w'.
  destruct (user_writes_merge_users source_conn bs w)
    as ((new & Hsent & Hnew) & Htbl & Himg & Hasp).
  split; [|split; [exact Htbl|split; [exact Himg|exact Hasp]]].
  exists new. split; [exact Hsent|]. rewrite Forall_forall in Hnew. split.
  - intros s Hs. specialize (Hnew s Hs).
    destruct s; simpl in Hnew; try contradiction; eauto.
  - intros payload entry Hin Hentry. specialize (Hnew _ Hin). simpl in Hnew.
    rewrite Forall_forall in Hnew.
    destruct (Hnew _ Hentry) as (row & Hrow & H1 & H2 & H3 & H4 & H5).
    split; [exact H4|]. split; [exact H5|].
    destruct (select_users source_conn) as [rows|e].
    + exists rows, row. repeat split; assumption.
    + apply elem_of_nil in Hrow. destruct Hrow.
Qed.

(* ===================================================================== *)
(** ** Seeding the aspect table                                          *)
(* ===================================================================== *)

(** With [ON CONFLICT DO NOTHING], a row that is there stays as it is. *)
Lemma insert_if_missing_keeps (es : list Aspect) :
  forall (tbl : gmap string Aspect) (k : string) (r : Aspect),
    tbl !! k = Some r ->
    upsert_rows a_id aspect_on_conflict tbl es !! k = Some r.
Proof.
  induction es as [|e es IH]; intros tbl k r Hr; [exact Hr|].
  rewrite upsert_rows_cons. apply IH.
  destruct (decide (a_id e = k)) as [<-|Hne].
  - rewrite (upsert_row_lookup_conflict _ _ _ _ _ Hr). reflexivity.
  - rewrite upsert_row_lookup_ne by exact Hne. exact Hr.
Qed.

Lemma upsert_rows_lookup_other {K R : Type} `{Countable K} (key : R -> K)
    (on_conflict : R -> R -> R) (es : list R) (k : K) :
  Forall (fun e => key e <> k) es ->
  forall tbl : gmap K R,
    upsert_rows key on_conflict tbl es !! k = tbl !! k.
Proof.
  induction 1 as [|e es He _ IH]; intros tbl; [reflexivity|].
  rewrite upsert_rows_cons, IH. apply upsert_row_lookup_ne. exact He.
Qed.

Lemma aspects_ensured_lookup (tbl : gmap string Aspect) :
  (forall k r, tbl !! k = Some r -> aspects_ensured tbl !! k = Some r)
  /\ (forall k, k <> "card-background" -> k <> "sega-passname" ->
        aspects_ensured tbl !! k = tbl !! k)
  /\ (tbl !! "card-background" = None ->
        aspects_ensured tbl !! "card-background"
        = Some required_card_background)
  /\ (tbl !! "sega-passname" = None ->
        aspects_ensured tbl !! "sega-passname"
        = Some required_sega_passname).
Proof.
  split; [|split; [|split]].
  - intros k r Hr. apply insert_if_missing_keeps. exact Hr.
  - intros k H1 H2. apply upsert_rows_lookup_other.
    apply Forall_forall. intros e He.
    apply list_elem_of_filter in He. destruct He as (_ & He).
    unfold required_aspects in He.
    apply elem_of_cons in He. destruct He as [->|He]; [simpl; congruence|].
    apply elem_of_cons in He. destruct He as [->|He]; [simpl; congruence|].
    apply elem_of_nil in He. destruct He.
  - intros Hnone. unfold aspects_ensured, required_aspects.
    rewrite filter_cons. rewrite decide_True.
    2:{ simpl. intros Hin. apply elem_of_intersection in Hin.
        destruct Hin as (Hin & _). apply elem_of_dom in Hin.
        rewrite Hnone in Hin. destruct Hin as (x & Hx). discriminate. }
    rewrite upsert_rows_cons.
    rewrite upsert_rows_lookup_other.
    + apply (upsert_row_lookup_fresh a_id aspect_on_conflict tbl
               required_card_background). exact Hnone.
    + apply Forall_forall. intros e He.
      apply list_elem_of_filter in He. destruct He as (_ & He).
      apply elem_of_cons in He. destruct He as [->|He]; [discriminate|].
      apply elem_of_nil in He. destruct He.
  - intros Hnone. unfold aspects_ensured, required_aspects.
    assert (Hsega :
              forall t : gmap string Aspect,
                t !! "sega-passname" = None ->
                upsert_rows a_id aspect_on_conflict t
                  (filter (fun data =>
                             a_id data ∉ dom tbl
                               ∩ ({[ "card-background"; "sega-passname" ]}
                                  : gset string))
                          [required_sega_passname])
                  !! "sega-passname" = Some required_sega_passname).
    { intros t Ht. rewrite filter_cons, filter_nil. rewrite decide_True.
      - simpl. apply (upsert_row_lookup_fresh a_id aspect_on_conflict t
                        required_sega_passname). exact Ht.
      - simpl. intros Hin. apply elem_of_intersection in Hin.
        destruct Hin as (Hin & _). apply elem_of_dom in Hin.
        rewrite Hnone in Hin. destruct Hin as (x & Hx). discriminate. }
    rewrite filter_cons. case_decide.
    + rewrite upsert_rows_cons. apply Hsega.
      rewrite upsert_row_lookup_ne by discriminate. exact Hnone.
    + apply Hsega. exact Hnone.
Qed.

(** X4. When [ensure_required_aspects] returns, [tbl_image_aspect] has the
    two identifiers "card-background" and "sega-passname"; each of them that
    was missing is now the fixed seed row (768 x 1220, 338 x 112); every row
    that was there, seed or not, is exactly as it was; the user and image
    tables and the sequence are untouched. *)
Theorem ensure_required_aspects_seeds :
  forall (w w' : World) (u : unit),
    ensure_required_aspects w = (Ok u, w') ->
    let before := tbl_image_aspect (session (target w)) in
    let after := tbl_image_aspect (session (target w')) in
    "card-background" ∈ dom after
    /\ "sega-passname" ∈ dom after
    /\ (forall k r, before !! k = Some r -> after !! k = Some r)
    /\ (forall k, k <> "card-background" -> k <> "sega-passname" ->
          after !! k = before !! k)
    /\ (before !! "card-background" = None ->
          after !! "card-background"
          = Some {| a_id := "card-background"; a_name := "Card Background";
                    a_description := a_description required_card_background;
                    a_ratio_width_unit := 768;
                    a_ratio_height_unit := 1220 |})
    /\ (before !! "sega-passname" = None ->
          after !! "sega-passname"
          = Some {| a_id := "sega-passname"; a_name := "SEGA Passname";
                    a_description := a_description required_sega_passname;
                    a_ratio_width_unit := 338;
                    a_ratio_height_unit := 112 |})
    /\ tbl_user (session (target w')) = tbl_user (session (target w))
    /\ tbl_image (session (target w')) = tbl_image (session (target w))
    /\ tbl_user_id_seq (target w') = tbl_user_id_seq (target w).
Proof.
  intros w w' u Hrun before after.
  apply ensure_required_aspects_ok in Hrun.
  destruct Hrun as (Ha & Hu & Hi & Hq).
  subst after before. rewrite Ha.
  destruct (aspects_ensured_dom (tbl_image_aspect (session (target w))))
    as (D1 & D2).
  destruct (aspects_ensured_lookup (tbl_image_aspect (session (target w))))
    as (L1 & L2 & L3 & L4).
  repeat split; assumption.
Qed.

(** X5. When both identifiers are already in [tbl_image_aspect],
    [ensure_required_aspects] sends the one [SELECT] and nothing else,
    whether that statement is rejected or not, and changes no table. *)
Theorem ensure_required_aspects_present :
  forall w : World,
    "card-background" ∈ dom (tbl_image_aspect (session (target w))) ->
    "sega-passname" ∈ dom (tbl_image_aspect (session (target w))) ->
    let w' := snd (ensure_required_aspects w) in
    sent (target w') = sent (target w) ++ [SelectAspectIds]
    /\ session (target w') = session (target w)
    /\ committed (target w') = committed (target w)
    /\ tbl_user_id_seq (target w') = tbl_user_id_seq (target w).
Proof.
  intros w H1 H2 w'. subst w'.
  set (logged :=
         set_target {| committed := committed (target w);
                       session := session (target w);
                       tbl_user_id_seq := tbl_user_id_seq (target w);
                       sent := sent (target w) ++ [SelectAspectIds] |} w).
  assert (Hrun : snd (ensure_required_aspects w) = logged).
  { unfold ensure_required_aspects, bind, execute.
    destruct (db_fault w _ SelectAspectIds _); [reflexivity|].
    cbn [apply_stmt get_session fst snd set_target target session].
    unfold required_aspects. rewrite !filter_cons, filter_nil.
    rewrite !decide_False.
    - reflexivity.
    - simpl. intros Hn. apply Hn. apply elem_of_intersection.
      split; [exact H2|]. rewrite elem_of_union, !elem_of_singleton. auto.
    - simpl. intros Hn. apply Hn. apply elem_of_intersection.
      split; [exact H1|]. rewrite elem_of_union, !elem_of_singleton. auto. }
  rewrite Hrun. repeat split; reflexivity.
Qed.

Lemma sample_aspects_seeded :
  ensure_required_aspects Sample.w0
  = (Ok tt, snd (ensure_required_aspects Sample.w0)).
Proof. vm_compute. reflexivity. Defined.

(** X4 on the sample data: an empty aspect table gets the two seed rows. *)
Lemma ensure_required_aspects_seeds_sample :
  ensure_required_aspects Sample.w0
  = (Ok tt, snd (ensure_required_aspects Sample.w0))
  /\ dom (tbl_image_aspect
            (session (target (snd (ensure_required_aspects Sample.w0)))))
     = {["card-background"; "sega-passname"]}
  /\ tbl_image_aspect
       (session (target (snd (ensure_required_aspects Sample.w0))))
     !! "sega-passname"
     = Some required_sega_passname.
Proof.
  split; [exact sample_aspects_seeded|].
  pose proof (ensure_required_aspects_seeds Sample.w0
                (snd (ensure_required_aspects Sample.w0)) tt
                sample_aspects_seeded) as H.
  cbv zeta in H.
  destruct H as (_ & _ & _ & _ & _ & Hp & _).
  split.
  - vm_compute. reflexivity.
  - rewrite Hp; [reflexivity|]. vm_compute. reflexivity.
Defined.

(** X5 on the sample data: a second call on the seeded table sends the
    [SELECT] only. *)
Lemma ensure_required_aspects_present_sample :
  let w := snd (ensure_required_aspects Sample.w0) in
  let w' := snd (ensure_required_aspects w) in
  sent (target w') = sent (target w) ++ [SelectAspectIds]
  /\ session (target w') = session (target w)
  /\ committed (target w') = committed (target w)
  /\ tbl_user_id_seq (target w') = tbl_user_id_seq (target w).
Proof.
  apply (ensure_required_aspects_present
           (snd (ensure_required_aspects Sample.w0))).
  - apply elem_of_dom. eexists. vm_compute. reflexivity.
  - apply elem_of_dom. eexists. vm_compute. reflexivity.
Defined.

(* ===================================================================== *)
(** ** Batches                                                           *)
(* ===================================================================== *)

#[local] Instance batches_within_preorder (bs : Z) :
  PreOrder (batches_within bs).
Proof.
  split.
  - intros w. exists []. rewrite app_nil_r. split; [reflexivity|constructor].
  - intros w1 w2 w3 (n1 & S1 & F1) (n2 & S2 & F2).
    exists (n1 ++ n2). rewrite S2, S1, app_assoc.
    split; [reflexivity|]. apply Forall_app. split; assumption.
Qed.

Lemma batches_within_execute (bs : Z) (s : Stmt) :
  stmt_batch_ok bs s -> stable (batches_within bs) (execute s).
Proof.
  intros Hs w. unfold execute.
  destruct (db_fault w _ s _); [|destruct (apply_stmt s _ _)];
    exists [s]; (split; [reflexivity|]); constructor;
    solve [exact Hs | constructor].
Qed.

Lemma batches_within_clock (bs : Z) (n : nat) (w w' : World) :
  batches_within bs (set_clock_reads n w) w' -> batches_within bs w w'.
Proof. intros H. exact H. Qed.

Lemma snoc_batch_ok {A : Type} (bs : Z) (payload : list A) (entry : A) :
  Z.of_nat (length payload) < Z.max bs 1 ->
  payload ++ [entry] <> []
  /\ Z.of_nat (length (payload ++ [entry])) <= Z.max bs 1
  /\ ((Z.of_nat (length (payload ++ [entry])) >=? bs) = false ->
      Z.of_nat (length (payload ++ [entry])) < Z.max bs 1).
Proof.
  intros Hlt. rewrite length_app. simpl length.
  split; [destruct payload; discriminate|].
  split; [lia|]. intros Hge.
  destruct (Z.geb_spec (Z.of_nat (length payload + 1)) bs); [discriminate|].
  lia.
Qed.

Lemma batches_within_users_loop (bs : Z) (rows : list LegacyUser) :
  forall summary existing_ids payload w,
    Z.of_nat (length payload) < Z.max bs 1 ->
    batches_within bs w
      (snd (merge_users_loop bs rows summary existing_ids payload w))
    /\ (forall summary' payload',
          fst (merge_users_loop bs rows summary existing_ids payload w)
          = Ok (summary', payload') ->
          Z.of_nat (length payload') < Z.max bs 1).
Proof.
  induction rows as [|row rows IH];
    intros summary existing_ids payload w Hlt.
  - simpl. split.
    + apply (reflexivity (R := batches_within bs)).
    + intros s' p' E. inversion E; subst. exact Hlt.
  - destruct (merge_users_loop_cons bs row rows summary existing_ids
                payload w) as (entry & n & _ & ->).
    destruct (snoc_batch_ok bs payload entry Hlt) as (Hne & Hle & Hlt').
    cbv zeta.
    destruct (if decide (lu_id row ∈ existing_ids)
              then (incr_updated (incr_processed summary), existing_ids)
              else (incr_inserted (incr_processed summary),
                    {[lu_id row]} ∪ existing_ids)) as [summary1 existing1].
    cbn [fst snd].
    destruct (Z.of_nat (length (payload ++ [entry])) >=? bs).
    + pose proof (batches_within_execute bs
                    (UpsertUsers (payload ++ [entry])) (conj Hne Hle)
                    (set_clock_reads n w)) as Hw.
      destruct (execute (UpsertUsers (payload ++ [entry]))
                  (set_clock_reads n w)) as [[u|e] w2]; simpl in Hw.
      * destruct (IH summary1 existing1 [] w2) as (Hw' & Hp');
          [simpl; lia|].
        split; [|exact Hp']. transitivity w2; [exact Hw|exact Hw'].
      * split; [exact Hw|]. discriminate.
    + destruct (IH summary1 existing1 (payload ++ [entry])
                  (set_clock_reads n w)) as (Hw' & Hp');
        [apply Hlt'; reflexivity|].
      split; [exact Hw'|exact Hp'].
Qed.

Lemma batches_within_images_loop (bs : Z) (known : gset Z)
    (rows : list LegacyImage) :
  forall st w,
    Z.of_nat (length (il_payload st)) < Z.max bs 1 ->
    batches_within bs w (snd (merge_images_loop bs known rows st w))
    /\ (forall st', fst (merge_images_loop bs known rows st w) = Ok st' ->
          Z.of_nat (length (il_payload st')) < Z.max bs 1).
Proof.
  induction rows as [|row rows IH]; intros st w Hlt.
  - simpl. split.
    + apply (reflexivity (R := batches_within bs)).
    + intros st' E. inversion E; subst. exact Hlt.
  - cbn [merge_images_loop]. unfold bind.
    destruct (image_accepted known row) as [[u a]|] eqn:Hacc.
    + destruct (merge_images_step_accepted bs known row st w u a Hacc)
        as (entry & n & _ & ->).
      destruct (snoc_batch_ok bs (il_payload st) entry Hlt)
        as (Hne & Hle & Hlt').
      cbv zeta.
      destruct (if decide (li_uuid row ∈ il_existing_uuids st)
                then (incr_updated (incr_processed (il_summary st)),
                      il_existing_uuids st)
                else (incr_inserted (incr_processed (il_summary st)),
                      {[li_uuid row]} ∪ il_existing_uuids st))
        as [summary1 existing1].
      cbn [fst snd].
      destruct (Z.of_nat (length (il_payload st ++ [entry])) >=? bs).
      * pose proof (batches_within_execute bs
                      (UpsertImages (il_payload st ++ [entry]))
                      (conj Hne Hle) (set_clock_reads n w)) as Hw.
        destruct (execute (UpsertImages (il_payload st ++ [entry]))
                    (set_clock_reads n w)) as [[u0|e] w2]; simpl in Hw.
        -- destruct (IH (mkImageLoop summary1 existing1 []) w2)
             as (Hw' & Hp'); [simpl; lia|].
           split; [|exact Hp']. transitivity w2; [exact Hw|exact Hw'].
        -- split; [exact Hw|]. discriminate.
      * destruct (IH (mkImageLoop summary1 existing1
                        (il_payload st ++ [entry])) (set_clock_reads n w))
          as (Hw' & Hp'); [apply Hlt'; reflexivity|].
        split; [exact Hw'|exact Hp'].
    + destruct (merge_images_step_skipped bs known row st w Hacc)
        as (reason & ->).
      destruct (IH (mkImageLoop (incr_skipped (incr_processed (il_summary st)))
                      (il_existing_uuids st) (il_payload st))
                  (set_warnings (warnings w ++ [reason]) w) Hlt)
        as (Hw' & Hp').
      split; [exact Hw'|exact Hp'].
Qed.

Lemma batches_within_read (bs : Z) (s : Stmt) {A : Type}
    (f : Tables -> A) :
  stmt_batch_ok bs s ->
  stable (batches_within bs)
    (execute s;;; let* t := get_session in ret (f t)).
Proof.
  intros Hs.
  apply stable_bind; [apply batches_within_preorder| |intros _].
  { apply batches_within_execute. exact Hs. }
  apply stable_bind; [apply batches_within_preorder| |intros t].
  { apply stable_get_session. apply batches_within_preorder. }
  apply stable_ret. apply batches_within_preorder.
Qed.

Lemma batches_within_upsert_users (bs : Z) (payload : list TargetUser) :
  Z.of_nat (length payload) < Z.max bs 1 ->
  stable (batches_within bs) (_upsert_users payload).
Proof.
  intros Hlt. destruct payload as [|e es].
  - apply stable_ret. apply batches_within_preorder.
  - apply batches_within_execute. split; [discriminate|lia].
Qed.

Lemma batches_within_upsert_images (bs : Z) (payload : list TargetImage) :
  Z.of_nat (length payload) < Z.max bs 1 ->
  stable (batches_within bs) (_upsert_images payload).
Proof.
  intros Hlt. destruct payload as [|e es].
  - apply stable_ret. apply batches_within_preorder.
  - apply batches_within_execute. split; [discriminate|lia].
Qed.

Lemma batches_within_merge_users (source_conn : SourceConn) (bs : Z) :
  stable (batches_within bs) (merge_users source_conn bs).
Proof.
  intros w. unfold merge_users.
  apply bind_rel; [apply batches_within_preorder| |intros ids w1 E1].
  { apply (batches_within_read bs SelectUserIds
             (fun t => dom (tbl_user t)) I). }
  apply bind_rel; [apply batches_within_preorder| |intros rows w2 E2].
  { apply stable_source_execute. apply batches_within_preorder. }
  destruct (batches_within_users_loop bs rows MergeSectionResult0 ids [] w2)
    as (Hw & Hp); [simpl; lia|].
  apply bind_rel; [apply batches_within_preorder|exact Hw|].
  intros [summary payload] w3 E3.
  apply bind_rel; [apply batches_within_preorder| |intros u4 w4 E4].
  { apply batches_within_upsert_users. apply (Hp summary). rewrite E3.
    reflexivity. }
  apply bind_rel; [apply batches_within_preorder| |intros u5 w5 E5].
  { apply batches_within_execute. exact I. }
  apply (reflexivity (R := batches_within bs)).
Qed.

Lemma batches_within_merge_images (source_conn : SourceConn) (bs : Z) :
  stable (batches_within bs) (merge_images source_conn bs).
Proof.
  intros w. unfold merge_images.
  apply bind_rel; [apply batches_within_preorder| |intros u1 w1 E1].
  { unfold ensure_required_aspects.
    apply stable_bind; [apply batches_within_preorder| |intros _].
    { apply batches_within_execute. exact I. }
    apply stable_bind; [apply batches_within_preorder| |intros t].
    { apply stable_get_session. apply batches_within_preorder. }
    destruct (filter _ required_aspects).
    - apply stable_ret. apply batches_within_preorder.
    - apply batches_within_execute. exact I. }
  apply bind_rel; [apply batches_within_preorder| |intros uuids w2 E2].
  { apply (batches_within_read bs SelectImageUuids
             (fun t => dom (tbl_image t)) I). }
  apply bind_rel; [apply batches_within_preorder| |intros ids w3 E3].
  { apply (batches_within_read bs SelectUserIds
             (fun t => dom (tbl_user t)) I). }
  apply bind_rel; [apply batches_within_preorder| |intros rows w4 E4].
  { apply stable_source_execute. apply batches_within_preorder. }
  destruct (batches_within_images_loop bs ids rows
              (mkImageLoop MergeSectionResult0 uuids []) w4) as (Hw & Hp);
    [simpl; lia|].
  apply bind_rel; [apply batches_within_preorder|exact Hw|intros st w5 E5].
  apply bind_rel; [apply batches_within_preorder| |intros u6 w6 E6].
  - apply batches_within_upsert_images. apply Hp. rewrite E5. reflexivity.
  - apply (reflexivity (R := batches_within bs)).
Qed.

(** X6. Whatever [run_merge] sends to the target, whether it returns or
    raises: no upsert statement has an empty parameter list, and none has
    more parameter sets than [batch_size]; with a [batch_size] of 1 or less
    (0 and negative values included) every upsert carries exactly one
    row. *)
Theorem run_merge_batches_bounded :
  forall (config : MergeConfig) (source_conn : SourceConn) (w : World),
    let bounded (n : nat) : Prop :=
      (1 <= n)%nat
      /\ (1 <= batch_size config -> Z.of_nat n <= batch_size config)
      /\ (batch_size config <= 1 -> n = 1%nat) in
    exists new,
      sent (target (snd (run_merge config source_conn w)))
      = sent (target w) ++ new
      /\ (forall payload, UpsertUsers payload ∈ new ->
            bounded (length payload))
      /\ (forall payload, UpsertImages payload ∈ new ->
            bounded (length payload)).
Proof.
  intros config source_conn w bounded.
  assert (Hsteps : stable (batches_within (batch_size config))
                     (merge_steps config source_conn)).
  { unfold merge_steps.
    apply stable_bind; [apply batches_within_preorder| |intros su].
    { apply batches_within_merge_users. }
    apply stable_bind; [apply batches_within_preorder| |intros si].
    { apply batches_within_merge_images. }
    apply stable_ret. apply batches_within_preorder. }
  destruct (Hsteps (snd (open_transactions w))) as (new & Hsent & Hnew).
  assert (Hopen : sent (target (snd (open_transactions w)))
                  = sent (target w)) by reflexivity.
  assert (Hbounded : forall (A : Type) (payload : list A),
             payload <> [] ->
             Z.of_nat (length payload) <= Z.max (batch_size config) 1 ->
             bounded (length payload)).
  { intros A payload Hne Hle. subst bounded. cbv beta.
    assert (Hpos : (1 <= length payload)%nat)
      by (destruct payload; [contradiction|simpl; lia]).
    split; [exact Hpos|]. split; lia. }
  exists new. rewrite Forall_forall in Hnew. split; [|split].
  - rewrite run_merge_unfold. cbv zeta. rewrite <- Hopen, <- Hsent.
    destruct (fst (merge_steps config source_conn _)); [|reflexivity].
    destruct (dry_run config); reflexivity.
  - intros payload Hs. destruct (Hnew _ Hs) as (Hne & Hle).
    apply Hbounded; assumption.
  - intros payload Hs. destruct (Hnew _ Hs) as (Hne & Hle).
    apply Hbounded; assumption.
Qed.

(* ===================================================================== *)
(** ** What a merge leaves in the tables                                 *)
(* ===================================================================== *)

Section LastWritten.

Context {K R P : Type} `{EqDecision K}.
Variables (key : R -> K) (written : R -> P).

Lemma last_written_None (k : K) (es : list R) :
  last_written key written k es = None <-> forall e, e ∈ es -> key e <> k.
Proof.
  induction es as [|e es IH]; simpl.
  - split; [|reflexivity]. intros _ e He. inversion He.
  - destruct (last_written key written k es) as [p|].
    + split; [discriminate|]. intros Hall.
      destruct IH as [_ IH].
      discriminate IH. intros x Hx. apply Hall. right. exact Hx.
    + destruct IH as [IH _]. specialize (IH eq_refl).
      destruct (decide (key e = k)) as [Hk|Hk].
      * split; [discriminate|]. intros Hall. exfalso.
        apply (Hall e); [left|exact Hk].
      * split; [|reflexivity]. intros _ x Hx.
        apply elem_of_cons in Hx. destruct Hx as [->|Hx]; [exact Hk|].
        apply IH. exact Hx.
Qed.

Lemma last_written_last (es1 es2 : list R) (e : R) :
  (forall x, x ∈ es2 -> key x <> key e) ->
  last_written key written (key e) (es1 ++ e :: es2) = Some (written e).
Proof.
  intros Hlast. apply last_written_None in Hlast.
  induction es1 as [|a es1 IH]; simpl.
  - rewrite Hlast. destruct (decide (key e = key e)); [reflexivity|].
    contradiction.
  - rewrite IH. reflexivity.
Qed.

End LastWritten.

Lemma Forall2_split_l {A B : Type} (Q : A -> B -> Prop) (xs1 xs2 : list A)
    (x : A) (ys : list B) :
  Forall2 Q (xs1 ++ x :: xs2) ys ->
  exists ys1 y ys2,
    ys = ys1 ++ y :: ys2 /\ Forall2 Q xs1 ys1 /\ Q x y /\ Forall2 Q xs2 ys2.
Proof.
  intros F. apply Forall2_app_inv_l in F.
  destruct F as (ys1 & ys' & F1 & F2 & ->).
  inversion F2 as [|? y ? ys2 Hxy F3]; subst.
  exists ys1, y, ys2. repeat split; assumption.
Qed.

Lemma user_written_conflict (existing excluded : TargetUser) :
  user_written (user_on_conflict existing excluded) = user_written excluded.
Proof. reflexivity. Qed.

Lemma user_created_conflict (existing excluded : TargetUser) :
  u_created_at (user_on_conflict existing excluded) = u_created_at existing.
Proof. reflexivity. Qed.

Lemma image_written_conflict (existing excluded : TargetImage) :
  image_written (image_on_conflict existing excluded)
  = image_written excluded.
Proof. reflexivity. Qed.

Lemma image_created_conflict (existing excluded : TargetImage) :
  i_created_at (image_on_conflict existing excluded) = i_created_at existing.
Proof. reflexivity. Qed.

(** X7. When [merge_users] returns: the identifiers of [tbl_user] are those
    of before and those of the legacy rows; a row no legacy row names is
    untouched; for every identifier of the legacy rows, the last legacy row
    that has it decides username and password, the phone is NULL and the
    roles are NORMAL, also where the target had other values; a row that
    was there keeps its [created_at]. *)
Theorem merge_users_round_trip :
  forall (source_conn : SourceConn) (bs : Z) (w w' : World)
         (summary : MergeSectionResult) (rows : list LegacyUser),
    merge_users source_conn bs w = (Ok summary, w') ->
    select_users source_conn = Ok rows ->
    let before := tbl_user (session (target w)) in
    let after := tbl_user (session (target w')) in
    dom after = dom before ∪ list_to_set (lu_id <$> rows)
    /\ (forall k, (forall row, row ∈ rows -> lu_id row <> k) ->
          after !! k = before !! k)
    /\ (forall earlier row later,
          rows = earlier ++ row :: later ->
          (forall x, x ∈ later -> lu_id x <> lu_id row) ->
          exists r,
            after !! lu_id row = Some r
            /\ u_username r = lu_username row
            /\ u_password r = lu_hashed_password row
            /\ u_phone r = None
            /\ u_privileges r = ["NORMAL"])
    /\ (forall k old, before !! k = Some old ->
          exists r, after !! k = Some r
                    /\ u_created_at r = u_created_at old).
Proof.
  intros source_conn bs w w' summary rows Hrun Hrows before after.
  apply merge_users_ok in Hrun.
  destruct Hrun as (rows0 & entries & Hrows0 & Hadapted & Htbl & _).
  rewrite Hrows in Hrows0. inversion Hrows0; subst rows0. clear Hrows0.
  subst after before. rewrite Htbl.
  split; [|split; [|split]].
  - rewrite upsert_rows_dom, (adapted_user_ids rows entries Hadapted).
    reflexivity.
  - intros k Hk.
    apply (upsert_rows_lookup_unwritten u_id user_on_conflict user_written).
    apply last_written_None. intros e He.
    assert (Hin : u_id e ∈ u_id <$> entries).
    { apply list_elem_of_fmap. exists e. split; [reflexivity|exact He]. }
    rewrite (adapted_user_ids rows entries Hadapted) in Hin.
    apply list_elem_of_fmap in Hin. destruct Hin as (row & Hid & Hrow).
    rewrite Hid. apply Hk. exact Hrow.
  - intros earlier row later -> Hlast.
    apply Forall2_split_l in Hadapted.
    destruct Hadapted as (es1 & e & es2 & -> & _ & He & F2).
    destruct He as (Hid & Hname & Hpw & Hphone & Hpriv).
    destruct (upsert_rows_lookup_written u_id user_on_conflict user_written
                user_written_conflict (u_id e) (es1 ++ e :: es2)
                (tbl_user (session (target w))) (user_written e))
      as (r & Hr & Hw).
    { apply last_written_last. intros x Hx.
      assert (Hin : u_id x ∈ u_id <$> es2).
      { apply list_elem_of_fmap. exists x. split; [reflexivity|exact Hx]. }
      rewrite (adapted_user_ids later es2 F2) in Hin.
      apply list_elem_of_fmap in Hin. destruct Hin as (y & Hy & Hyin).
      rewrite Hy, Hid. apply Hlast. exact Hyin. }
    exists r. rewrite <- Hid. split; [exact Hr|].
    unfold user_written in Hw. inversion Hw as [[H1 H2 H3 H4]].
    rewrite H1, H2, H3, H4. repeat split; assumption.
  - intros k old Hold.
    apply (upsert_rows_lookup_existing u_id user_on_conflict u_created_at
             user_created_conflict k entries _ old Hold).
Qed.

Lemma sample_users_answer :
  select_users Sample.source_conn = Ok [Sample.alice; Sample.bob].
Proof. reflexivity. Defined.

(** X7 on the sample data: users 5 and 7 into an empty target. *)
Lemma merge_users_round_trip_sample :
  dom (tbl_user (session (target SampleRuns.w_users)))
  = dom (tbl_user (session (target Sample.w0)))
    ∪ list_to_set (lu_id <$> [Sample.alice; Sample.bob]).
Proof.
  exact (proj1 (merge_users_round_trip Sample.source_conn 500 Sample.w0
                  SampleRuns.w_users SampleRuns.users_summary
                  [Sample.alice; Sample.bob]
                  sample_user_merge sample_users_answer)).
Defined.

(** X8. When [merge_images] returns, with [known] the user identifiers of
    the target when it starts: a [tbl_image] row whose uuid no accepted
    legacy row has (none at all, or only skipped ones) is untouched; for
    every uuid of the accepted rows, the last accepted row that has it
    decides owner, aspect, name, description, labels, file name and
    metadata, and the visibility is 1; a row that was there keeps its
    [created_at]. *)
Theorem merge_images_round_trip :
  forall (source_conn : SourceConn) (bs : Z) (w w' : World)
         (summary : MergeSectionResult) (rows : list LegacyImage),
    merge_images source_conn bs w = (Ok summary, w') ->
    select_images source_conn = Ok rows ->
    let known := dom (tbl_user (session (target w))) in
    let before := tbl_image (session (target w)) in
    let after := tbl_image (session (target w')) in
    dom after
    = dom before
      ∪ list_to_set ((fun x => li_uuid x.1.1) <$> accepted_rows known rows)
    /\ (forall uuid,
          (forall row, row ∈ rows -> li_uuid row = uuid ->
             image_accepted known row = None) ->
          after !! uuid = before !! uuid)
    /\ (forall earlier row uploaded_by aspect_id later,
          accepted_rows known rows
          = earlier ++ (row, uploaded_by, aspect_id) :: later ->
          (forall x, x ∈ later -> li_uuid x.1.1 <> li_uuid row) ->
          exists r,
            after !! li_uuid row = Some r
            /\ image_written r
               = (uploaded_by, aspect_id,
                  build_image_name (li_label row) (li_uuid row) (li_kind row),
                  build_image_description (li_label row) (li_category row)
                    (li_kind row),
                  1,
                  build_image_labels (li_kind row) (li_category row),
                  li_file_name row, li_trace_id row))
    /\ (forall uuid old, before !! uuid = Some old ->
          exists r, after !! uuid = Some r
                    /\ i_created_at r = i_created_at old).
Proof.
  intros source_conn bs w w' summary rows Hrun Hrows known before after.
  apply merge_images_ok in Hrun. cbv zeta in Hrun.
  destruct Hrun as (rows0 & entries & Hrows0 & Hadapted & Htbl & _).
  rewrite Hrows in Hrows0. inversion Hrows0; subst rows0. clear Hrows0.
  fold known in Hadapted.
  subst after before. rewrite Htbl.
  split; [|split; [|split]].
  - rewrite upsert_rows_dom, (adapted_image_uuids _ entries Hadapted).
    reflexivity.
  - intros uuid Hk.
    apply (upsert_rows_lookup_unwritten i_uuid image_on_conflict
             image_written).
    apply last_written_None. intros e He Hid.
    assert (Hin : i_uuid e ∈ i_uuid <$> entries).
    { apply list_elem_of_fmap. exists e. split; [reflexivity|exact He]. }
    rewrite (adapted_image_uuids _ entries Hadapted) in Hin.
    apply list_elem_of_fmap in Hin. destruct Hin as (x & Hx & Hxin).
    unfold accepted_rows in Hxin. apply list_elem_of_omap in Hxin.
    destruct Hxin as (row & Hrow & Hacc).
    destruct (image_accepted known row) as [[u a]|] eqn:Eacc;
      [|discriminate].
    inversion Hacc; subst x. simpl in Hx.
    rewrite (Hk row Hrow) in Eacc; [discriminate|congruence].
  - intros earlier row uploaded_by aspect_id later Hsplit Hlast.
    rewrite Hsplit in Hadapted.
    apply Forall2_split_l in Hadapted.
    destruct Hadapted as (es1 & e & es2 & -> & _ & He & F2).
    unfold image_entry_of, image_adapted in He. simpl in He.
    destruct He as (Hid & H1 & H2 & H3 & H4 & H5 & H6 & H7 & H8).
    destruct (upsert_rows_lookup_written i_uuid image_on_conflict
                image_written image_written_conflict (i_uuid e)
                (es1 ++ e :: es2)
                (tbl_image (session (target w))) (image_written e))
      as (r & Hr & Hw).
    { apply last_written_last. intros x Hx.
      assert (Hin : i_uuid x ∈ i_uuid <$> es2).
      { apply list_elem_of_fmap. exists x. split; [reflexivity|exact Hx]. }
      rewrite (adapted_image_uuids later es2 F2) in Hin.
      apply list_elem_of_fmap in Hin. destruct Hin as (y & Hy & Hyin).
      rewrite Hy, Hid. apply Hlast. exact Hyin. }
    exists r. split; [rewrite <- Hid; exact Hr|].
    rewrite Hw. unfold image_written.
    rewrite H1, H2, H3, H4, H5, H6, H7, H8. reflexivity.
  - intros uuid old Hold.
    apply (upsert_rows_lookup_existing i_uuid image_on_conflict i_created_at
             image_created_conflict uuid entries _ old Hold).
Qed.

Lemma sample_image_merge :
  merge_images Sample.source_conn 500 SampleRuns.w_users
  = (Ok {| processed := 4; inserted := 1; updated := 0; skipped := 3 |},
     snd (merge_images Sample.source_conn 500 SampleRuns.w_users)).
Proof. vm_compute. reflexivity. Defined.

Lemma sample_images_answer :
  select_images Sample.source_conn
  = Ok [ Sample.image "u1" (Some "frame") (Some 5);
         Sample.image "u2" (Some "frame") None;
         Sample.image "u3" (Some "zzz") (Some 7);
         Sample.image "u4" (Some "PASSNAME") (Some 9) ].
Proof. reflexivity. Defined.

(** X8 on the sample data: of the four legacy images, one is accepted. *)
Lemma merge_images_round_trip_sample :
  dom (tbl_image
         (session
            (target
               (snd (merge_images Sample.source_conn 500
                       SampleRuns.w_users)))))
  = dom (tbl_image (session (target SampleRuns.w_users)))
    ∪ list_to_set
        ((fun x => li_uuid x.1.1)
           <$> accepted_rows
                 (dom (tbl_user (session (target SampleRuns.w_users))))
                 [ Sample.image "u1" (Some "frame") (Some 5);
                   Sample.image "u2" (Some "frame") None;
                   Sample.image "u3" (Some "zzz") (Some 7);
                   Sample.image "u4" (Some "PASSNAME") (Some 9) ]).
Proof.
  exact (proj1 (merge_images_round_trip Sample.source_conn 500
                  SampleRuns.w_users
                  (snd (merge_images Sample.source_conn 500
                          SampleRuns.w_users))
                  {| processed := 4; inserted := 1; updated := 0;
                     skipped := 3 |}
                  _ sample_image_merge sample_images_answer)).
Defined.

(* ===================================================================== *)
(** ** The counters and the size of the tables                           *)
(* ===================================================================== *)

Lemma size_new_keys_known {K : Type} `{Countable K} (k : K) (ks known : gset K) :
  k ∈ known -> size (({[k]} ∪ ks) ∖ known) = size (ks ∖ known).
Proof.
  intros Hk. f_equal. apply set_eq. intros x.
  rewrite !elem_of_difference, elem_of_union, elem_of_singleton.
  split.
  - intros [[->|Hx] Hn]; [contradiction|]. split; assumption.
  - intros [Hx Hn]. split; [right|]; assumption.
Qed.

Lemma size_new_keys_fresh {K : Type} `{Countable K} (k : K) (ks known : gset K) :
  k ∉ known ->
  size (({[k]} ∪ ks) ∖ known) = S (size (ks ∖ ({[k]} ∪ known))).
Proof.
  intros Hk.
  assert (Heq : ({[k]} ∪ ks) ∖ known = {[k]} ∪ ks ∖ ({[k]} ∪ known)).
  { apply set_eq. intros x.
    rewrite elem_of_union, !elem_of_difference, !elem_of_union,
      !elem_of_singleton.
    split.
    - intros [[->|Hx] Hn]; [left; reflexivity|].
      destruct (decide (x = k)) as [->|Hne]; [left; reflexivity|].
      right. split; [exact Hx|]. intros [Heq|Hin]; contradiction.
    - intros [->|[Hx Hn]].
      + split; [left; reflexivity|exact Hk].
      + split; [right; exact Hx|]. intros Hin. apply Hn. right. exact Hin. }
  rewrite Heq, size_union, size_singleton; [reflexivity|].
  intros x Hx1 Hx2. apply elem_of_singleton in Hx1. subst x.
  apply elem_of_difference in Hx2. destruct Hx2 as [_ Hn].
  apply Hn. apply elem_of_union. left. apply elem_of_singleton. reflexivity.
Qed.

Lemma size_grown {K : Type} `{Countable K} (before new : gset K) :
  Z.of_nat (size (new ∖ before))
  = Z.of_nat (size (before ∪ new)) - Z.of_nat (size before).
Proof. pose proof (size_union_alt before new) as Hsize. lia. Qed.

(** The [inserted] counter of the user loop goes up by the number of
    distinct identifiers of [rows] that [existing_ids] does not have. *)
Lemma merge_users_loop_inserted (bs : Z) (rows : list LegacyUser) :
  forall summary existing_ids payload w summary' payload' w',
    merge_users_loop bs rows summary existing_ids payload w
    = (Ok (summary', payload'), w') ->
    inserted summary'
    = inserted summary
      + Z.of_nat (size (list_to_set (lu_id <$> rows) ∖ existing_ids)).
Proof.
  induction rows as [|row rows IH];
    intros summary existing_ids payload w summary' payload' w' Hrun.
  - simpl in Hrun. inversion Hrun; subst.
    rewrite fmap_nil, list_to_set_nil, difference_disjoint_L by set_solver.
    rewrite size_empty. lia.
  - destruct (merge_users_loop_cons bs row rows summary existing_ids
                payload w) as (entry & n & _ & Heq).
    rewrite Heq in Hrun. clear Heq. cbv zeta in Hrun.
    rewrite fmap_cons, list_to_set_cons.
    destruct (decide (lu_id row ∈ existing_ids)) as [Hin|Hnew];
      cbn [fst snd] in Hrun.
    + rewrite size_new_keys_known by exact Hin.
      destruct (Z.of_nat (length (payload ++ [entry])) >=? bs).
      * destruct (execute (UpsertUsers (payload ++ [entry]))
                    (set_clock_reads n w)) as [[u|e] w2]; [|discriminate].
        apply IH in Hrun. rewrite Hrun. reflexivity.
      * apply IH in Hrun. rewrite Hrun. reflexivity.
    + rewrite size_new_keys_fresh by exact Hnew.
      destruct (Z.of_nat (length (payload ++ [entry])) >=? bs).
      * destruct (execute (UpsertUsers (payload ++ [entry]))
                    (set_clock_reads n w)) as [[u|e] w2]; [|discriminate].
        apply IH in Hrun. rewrite Hrun. simpl inserted. lia.
      * apply IH in Hrun. rewrite Hrun. simpl inserted. lia.
Qed.

(** The same for the image loop, over the rows it accepts. *)
Lemma merge_images_loop_inserted (bs : Z) (known : gset Z)
    (rows : list LegacyImage) :
  forall st w st' w',
    merge_images_loop bs known rows st w = (Ok st', w') ->
    inserted (il_summary st')
    = inserted (il_summary st)
      + Z.of_nat
          (size (list_to_set
                   ((fun x => li_uuid x.1.1) <$> accepted_rows known rows)
                 ∖ il_existing_uuids st)).
Proof.
  induction rows as [|row rows IH]; intros st w st' w' Hrun.
  - simpl in Hrun. inversion Hrun; subst.
    change (accepted_rows known []) with (@nil (LegacyImage * Z * string)).
    rewrite fmap_nil, list_to_set_nil, difference_disjoint_L by set_solver.
    rewrite size_empty. lia.
  - cbn [merge_images_loop] in Hrun.
    apply bind_ok in Hrun. destruct Hrun as (st1 & w1 & Hstep & Hrun).
    apply IH in Hrun. rewrite Hrun. clear Hrun.
    rewrite accepted_rows_cons.
    destruct (image_accepted known row) as [[u a]|] eqn:Hacc.
    + destruct (merge_images_step_accepted bs known row st w u a Hacc)
        as (entry & n & _ & Heq).
      rewrite Heq in Hstep. clear Heq. cbv zeta in Hstep.
      rewrite fmap_cons, list_to_set_cons. cbn [fst snd].
      destruct (decide (li_uuid row ∈ il_existing_uuids st)) as [Hin|Hnew];
        cbn [fst snd] in Hstep.
      * rewrite size_new_keys_known by exact Hin.
        destruct (Z.of_nat (length (il_payload st ++ [entry])) >=? bs).
        -- destruct (execute (UpsertImages (il_payload st ++ [entry]))
                       (set_clock_reads n w)) as [[u0|e] w2];
             [|discriminate].
           inversion Hstep; subst. reflexivity.
        -- inversion Hstep; subst. reflexivity.
      * rewrite size_new_keys_fresh by exact Hnew.
        destruct (Z.of_nat (length (il_payload st ++ [entry])) >=? bs).
        -- destruct (execute (UpsertImages (il_payload st ++ [entry]))
                       (set_clock_reads n w)) as [[u0|e] w2];
             [|discriminate].
           inversion Hstep; subst. simpl. lia.
        -- inversion Hstep; subst. simpl. lia.
    + destruct (merge_images_step_skipped bs known row st w Hacc)
        as (reason & Heq).
      rewrite Heq in Hstep. inversion Hstep; subst. reflexivity.
Qed.

(** X9. When [merge_users] returns, [inserted] is the number of rows
    [tbl_user] has gained (the distinct legacy identifiers the target did
    not have), [updated] counts every other legacy row (a second row with
    an identifier already seen included), and nothing is skipped. *)
Theorem merge_users_inserted_is_growth :
  forall (source_conn : SourceConn) (bs : Z) (w w' : World)
         (summary : MergeSectionResult) (rows : list LegacyUser),
    merge_users source_conn bs w = (Ok summary, w') ->
    select_users source_conn = Ok rows ->
    let before := dom (tbl_user (session (target w))) in
    let after := dom (tbl_user (session (target w'))) in
    inserted summary = Z.of_nat (size after) - Z.of_nat (size before)
    /\ inserted summary
       = Z.of_nat (size (list_to_set (lu_id <$> rows) ∖ before))
    /\ updated summary = Z.of_nat (length rows) - inserted summary
    /\ processed summary = inserted summary + updated summary
    /\ skipped summary = 0.
Proof.
  intros source_conn bs w w' summary rows Hrun Hrows before after.
  assert (Hcount : inserted summary
                   = Z.of_nat (size (list_to_set (lu_id <$> rows) ∖ before))).
  { unfold merge_users in Hrun.
    apply bind_ok in Hrun. destruct Hrun as (ids & w1 & Hids & Hrun).
    apply collect_user_ids_ok in Hids. destruct Hids as (-> & _ & _).
    apply bind_ok in Hrun. destruct Hrun as (rows0 & w2 & Hrows0 & Hrun).
    apply source_execute_ok in Hrows0. destruct Hrows0 as (Hrows0 & ->).
    rewrite Hrows in Hrows0. inversion Hrows0; subst rows0.
    apply bind_ok in Hrun.
    destruct Hrun as ([summary1 payload] & w3 & Hloop & Hrun).
    apply merge_users_loop_inserted in Hloop.
    apply bind_ok in Hrun. destruct Hrun as (u & w4 & _ & Hrun).
    apply bind_ok in Hrun. destruct Hrun as (u' & w5 & _ & Hrun).
    inversion Hrun; subst summary1. rewrite Hloop. simpl. reflexivity. }
  apply merge_users_ok in Hrun.
  destruct Hrun as (rows0 & entries & Hrows0 & Hadapted & Htbl & _ & _ & _
                    & Hp & Hiu & _ & _ & Hs & _).
  rewrite Hrows in Hrows0. inversion Hrows0; subst rows0.
  split; [|split; [exact Hcount|split; [lia|split; [lia|exact Hs]]]].
  rewrite Hcount. subst after before.
  rewrite Htbl, upsert_rows_dom, (adapted_user_ids rows entries Hadapted).
  apply size_grown.
Qed.

(** X9 on the sample data. *)
Lemma merge_users_inserted_is_growth_sample :
  inserted SampleRuns.users_summary
  = Z.of_nat (size (dom (tbl_user (session (target SampleRuns.w_users)))))
    - Z.of_nat (size (dom (tbl_user (session (target Sample.w0))))).
Proof.
  exact (proj1 (merge_users_inserted_is_growth Sample.source_conn 500
                  Sample.w0 SampleRuns.w_users SampleRuns.users_summary
                  [Sample.alice; Sample.bob]
                  sample_user_merge sample_users_answer)).
Defined.

(** X10. When [merge_images] returns, [inserted] is the number of rows
    [tbl_image] has gained, [skipped] the number of legacy rows that are
    not accepted, [updated] counts every other row, and the four counters
    add up. *)
Theorem merge_images_inserted_is_growth :
  forall (source_conn : SourceConn) (bs : Z) (w w' : World)
         (summary : MergeSectionResult) (rows : list LegacyImage),
    merge_images source_conn bs w = (Ok summary, w') ->
    select_images source_conn = Ok rows ->
    let known := dom (tbl_user (session (target w))) in
    let before := dom (tbl_image (session (target w))) in
    let after := dom (tbl_image (session (target w'))) in
    inserted summary = Z.of_nat (size after) - Z.of_nat (size before)
    /\ skipped summary
       = Z.of_nat (length rows)
         - Z.of_nat (length (accepted_rows known rows))
    /\ updated summary
       = Z.of_nat (length (accepted_rows known rows)) - inserted summary
    /\ processed summary
       = inserted summary + updated summary + skipped summary.
Proof.
  intros source_conn bs w w' summary rows Hrun Hrows known before after.
  assert (Hcount :
            inserted summary
            = Z.of_nat
                (size (list_to_set
                         ((fun x => li_uuid x.1.1)
                            <$> accepted_rows known rows) ∖ before))).
  { unfold merge_images in Hrun.
    apply bind_ok in Hrun. destruct Hrun as (u1 & w1 & Hens & Hrun).
    apply ensure_required_aspects_ok in Hens.
    destruct Hens as (_ & A2 & A3 & _).
    apply bind_ok in Hrun. destruct Hrun as (uuids & w2 & Huu & Hrun).
    apply collect_image_uuids_ok in Huu. destruct Huu as (-> & S2 & _).
    apply bind_ok in Hrun. destruct Hrun as (ids & w3 & Hids & Hrun).
    apply collect_user_ids_ok in Hids. destruct Hids as (-> & _ & _).
    apply bind_ok in Hrun. destruct Hrun as (rows0 & w4 & Hrows0 & Hrun).
    apply source_execute_ok in Hrows0. destruct Hrows0 as (Hrows0 & ->).
    rewrite Hrows in Hrows0. inversion Hrows0; subst rows0.
    apply bind_ok in Hrun. destruct Hrun as (st & w5 & Hloop & Hrun).
    apply merge_images_loop_inserted in Hloop.
    apply bind_ok in Hrun. destruct Hrun as (u6 & w6 & _ & Hrun).
    inversion Hrun; subst summary. rewrite Hloop. simpl.
    subst known before. rewrite S2, A2, A3. reflexivity. }
  apply merge_images_ok in Hrun. cbv zeta in Hrun.
  destruct Hrun as (rows0 & entries & Hrows0 & Hadapted & Htbl & _ & _ & _
                    & Hp & Hsk & Hiu & _).
  rewrite Hrows in Hrows0. inversion Hrows0; subst rows0.
  fold known in Hadapted.
  pose proof (Forall2_length _ _ _ Hadapted) as Hlen.
  split; [|split; [lia|split; lia]].
  rewrite Hcount. subst after before.
  rewrite Htbl, upsert_rows_dom, (adapted_image_uuids _ entries Hadapted).
  apply size_grown.
Qed.

(** X10 on the sample data. *)
Lemma merge_images_inserted_is_growth_sample :
  1 = Z.of_nat
        (size (dom (tbl_image
                      (session
                         (target
                            (snd (merge_images Sample.source_conn 500
                                    SampleRuns.w_users)))))))
      - Z.of_nat
          (size (dom (tbl_image (session (target SampleRuns.w_users))))).
Proof.
  exact (proj1 (merge_images_inserted_is_growth Sample.source_conn 500
                  SampleRuns.w_users
                  (snd (merge_images Sample.source_conn 500
                          SampleRuns.w_users))
                  {| processed := 4; inserted := 1; updated := 0;
                     skipped := 3 |}
                  _ sample_image_merge sample_images_answer)).
Defined.

(* ===================================================================== *)
(** ** The fields of an accepted image                                   *)
(* ===================================================================== *)







(* ===================================================================== *)
(** ** The life cycle of a run                                           *)
(* ===================================================================== *)


(* ===================================================================== *)
(** ** The batch size and the outcome of a run                           *)
(* ===================================================================== *)

Lemma same_run_state_sym (w1 w2 : World) :
  same_run_state w1 w2 -> same_run_state w2 w1.
Proof.
  intros (A1 & A2 & A3 & A4 & A5 & A6 & A7 & A8).
  repeat split; try assumption; symmetry; assumption.
Qed.

Lemma same_run_state_trans (w1 w2 w3 : World) :
  same_run_state w1 w2 -> same_run_state w2 w3 -> same_run_state w1 w3.
Proof.
  intros (A1 & A2 & A3 & A4 & A5 & A6 & A7 & A8)
         (B1 & B2 & B3 & B4 & B5 & B6 & B7 & B8).
  repeat split; try assumption; congruence.
Qed.

Lemma same_run_state_clock (n : nat) (w1 w2 : World) :
  same_run_state w1 w2 ->
  same_run_state (set_clock_reads n w1) (set_clock_reads n w2).
Proof.
  intros (A1 & A2 & A3 & A4 & A5 & A6 & A7 & A8).
  repeat split; assumption.
Qed.

Lemma same_run_state_warning (x : Warning) (w1 w2 : World) :
  same_run_state w1 w2 ->
  same_run_state (set_warnings (warnings w1 ++ [x]) w1)
                 (set_warnings (warnings w2 ++ [x]) w2).
Proof.
  intros (A1 & A2 & A3 & A4 & A5 & A6 & A7 & A8).
  repeat split; try assumption. simpl. rewrite A5. reflexivity.
Qed.

Lemma pending_users_nil (t : Tables) : pending_users [] t = t.
Proof. destruct t; reflexivity. Qed.

Lemma pending_images_nil (t : Tables) : pending_images [] t = t.
Proof. destruct t; reflexivity. Qed.

Lemma pending_users_snoc (payload1 payload2 : list TargetUser)
    (entry : TargetUser) (t1 t2 : Tables) :
  pending_users payload1 t1 = pending_users payload2 t2 ->
  pending_users (payload1 ++ [entry]) t1
  = pending_users (payload2 ++ [entry]) t2.
Proof.
  unfold pending_users. intros E. inversion E as [[Hu Hi Ha]].
  rewrite !upsert_rows_app, Hu, Hi, Ha. reflexivity.
Qed.

Lemma pending_images_snoc (payload1 payload2 : list TargetImage)
    (entry : TargetImage) (t1 t2 : Tables) :
  pending_images payload1 t1 = pending_images payload2 t2 ->
  pending_images (payload1 ++ [entry]) t1
  = pending_images (payload2 ++ [entry]) t2.
Proof.
  unfold pending_images. intros E. inversion E as [[Hu Hi Ha]].
  rewrite !upsert_rows_app, Hu, Hi, Ha. reflexivity.
Qed.

(** A statement that is not rejected: what it leaves. *)
Lemma execute_never_faults (s : Stmt) (w : World) :
  never_faults w ->
  exists w',
    execute s w = (Ok tt, w')
    /\ session (target w')
       = fst (apply_stmt s (session (target w)) (tbl_user_id_seq (target w)))
    /\ tbl_user_id_seq (target w')
       = snd (apply_stmt s (session (target w)) (tbl_user_id_seq (target w)))
    /\ never_faults w'
    /\ utc_clock w' = utc_clock w
    /\ clock_reads w' = clock_reads w
    /\ warnings w' = warnings w
    /\ tx_events w' = tx_events w
    /\ committed (target w') = committed (target w).
Proof.
  intros Hw. unfold execute. rewrite Hw.
  destruct (apply_stmt s _ _) as [tables seq].
  eexists. split; [reflexivity|]. repeat split; try reflexivity.
  intros n s' t. apply Hw.
Qed.

Section Respects.

Lemma respects_ret {A : Type} (a : A) : respects (ret a) (ret a).
Proof. intros w1 w2 H. split; [reflexivity|exact H]. Qed.

Lemma respects_raise {A : Type} (e : exn) : respects (@raise A e) (raise e).
Proof. intros w1 w2 H. split; [reflexivity|exact H]. Qed.

Lemma respects_bind {A B : Type} (m1 m2 : M A) (k1 k2 : A -> M B) :
  respects m1 m2 -> (forall a, respects (k1 a) (k2 a)) ->
  respects (bind m1 k1) (bind m2 k2).
Proof.
  intros Hm Hk w1 w2 H. unfold bind. destruct (Hm w1 w2 H) as (Hv & Hw).
  destruct (m1 w1) as [[a1|e1] w1'], (m2 w2) as [[a2|e2] w2'];
    simpl in Hv, Hw; inversion Hv; subst.
  - apply Hk. exact Hw.
  - split; [reflexivity|exact Hw].
Qed.

Lemma respects_utcnow : respects utcnow utcnow.
Proof.
  intros w1 w2 ((A1 & A2 & A3 & A4 & A5 & A6 & A7 & A8) & S).
  unfold utcnow. cbn [fst snd]. rewrite A3, A4.
  split; [reflexivity|]. split; [|exact S].
  repeat split; assumption.
Qed.

Lemma respects_log_warning (x : Warning) :
  respects (log_warning x) (log_warning x).
Proof.
  intros w1 w2 (H & S). split; [reflexivity|]. split; [|exact S].
  apply same_run_state_warning. exact H.
Qed.

Lemma respects_get_session : respects get_session get_session.
Proof.
  intros w1 w2 (H & S). unfold get_session. cbn [fst snd].
  rewrite S. split; [reflexivity|]. split; assumption.
Qed.

Lemma respects_source_execute {A : Type} (answer : result (list A)) :
  respects (source_execute answer) (source_execute answer).
Proof.
  intros w1 w2 H. unfold source_execute.
  destruct answer; (split; [reflexivity|exact H]).
Qed.

Lemma respects_execute (s : Stmt) : respects (execute s) (execute s).
Proof.
  intros w1 w2 ((A1 & A2 & A3 & A4 & A5 & A6 & A7 & A8) & S).
  destruct (execute_never_faults s w1 A1)
    as (w1' & -> & S1 & Q1 & N1 & C1 & R1 & W1 & T1 & K1).
  destruct (execute_never_faults s w2 A2)
    as (w2' & -> & S2 & Q2 & N2 & C2 & R2 & W2 & T2 & K2).
  cbn [fst snd]. split; [reflexivity|].
  split; [repeat split; try assumption; congruence|].
  rewrite S1, S2, S, A8. reflexivity.
Qed.

End Respects.

Create HintDb respectsdb discriminated.

#[local] Hint Resolve respects_utcnow respects_log_warning
  respects_get_session respects_execute : respectsdb.

Ltac respects_auto :=
  repeat first
    [ apply respects_ret
    | apply respects_raise
    | apply respects_source_execute
    | solve [ auto with respectsdb ]
    | apply respects_bind; [ | intros ? ]
    | match goal with
      | |- respects (match ?x with _ => _ end) _ => destruct x
      end ].

Lemma respects_collect_user_ids :
  respects _collect_existing_ids_tbl_user _collect_existing_ids_tbl_user.
Proof. unfold _collect_existing_ids_tbl_user. respects_auto. Qed.

Lemma respects_collect_image_uuids :
  respects _collect_existing_ids_tbl_image _collect_existing_ids_tbl_image.
Proof. unfold _collect_existing_ids_tbl_image. respects_auto. Qed.

Lemma respects_ensure_required_aspects :
  respects ensure_required_aspects ensure_required_aspects.
Proof. unfold ensure_required_aspects. respects_auto. Qed.

Lemma respects_sync_sequence : respects _sync_sequence _sync_sequence.
Proof. unfold _sync_sequence. respects_auto. Qed.

(** The two adapters read the clock only. *)
Lemma adapt_user_row_same (row : LegacyUser) (w1 w2 : World) :
  same_run_state w1 w2 ->
  exists entry n,
    _adapt_user_row row w1 = (Ok entry, set_clock_reads n w1)
    /\ _adapt_user_row row w2 = (Ok entry, set_clock_reads n w2).
Proof.
  intros (A1 & A2 & A3 & A4 & _).
  unfold _adapt_user_row, _ensure_datetime, bind, utcnow, ret.
  destruct (lu_created_at row) as [v|]; [destruct (dt_tzinfo v)|];
    cbn [fst snd clock_reads utc_clock set_clock_reads];
    rewrite A3, A4; eexists _, _; split; reflexivity.
Qed.

Lemma adapt_image_row_same (row : LegacyImage) (u : Z) (a : string)
    (w1 w2 : World) :
  same_run_state w1 w2 ->
  exists entry n,
    _adapt_image_row row u a w1 = (Ok entry, set_clock_reads n w1)
    /\ _adapt_image_row row u a w2 = (Ok entry, set_clock_reads n w2).
Proof.
  intros (A1 & A2 & A3 & A4 & _).
  unfold _adapt_image_row, _ensure_datetime, bind, utcnow, ret.
  destruct (li_uploaded_at row) as [v|]; [destruct (dt_tzinfo v)|];
    cbn [fst snd clock_reads utc_clock set_clock_reads];
    rewrite A3, A4; eexists _, _; split; reflexivity.
Qed.

Lemma upsert_users_never_faults (payload : list TargetUser) (w : World) :
  never_faults w ->
  exists w',
    _upsert_users payload w = (Ok tt, w')
    /\ same_run_state w w'
    /\ session (target w') = pending_users payload (session (target w)).
Proof.
  intros Hw. destruct payload as [|e es].
  - exists w. split; [reflexivity|]. rewrite pending_users_nil.
    split; [|reflexivity]. repeat split; try reflexivity; exact Hw.
  - destruct (execute_never_faults (UpsertUsers (e :: es)) w Hw)
      as (w' & Hrun & S & Q & N & C & R & W & T & K).
    exists w'. split; [exact Hrun|]. split; [|exact S].
    repeat split; try assumption; symmetry; assumption.
Qed.

Lemma upsert_images_never_faults (payload : list TargetImage) (w : World) :
  never_faults w ->
  exists w',
    _upsert_images payload w = (Ok tt, w')
    /\ same_run_state w w'
    /\ session (target w') = pending_images payload (session (target w)).
Proof.
  intros Hw. destruct payload as [|e es].
  - exists w. split; [reflexivity|]. rewrite pending_images_nil.
    split; [|reflexivity]. repeat split; try reflexivity; exact Hw.
  - destruct (execute_never_faults (UpsertImages (e :: es)) w Hw)
      as (w' & Hrun & S & Q & N & C & R & W & T & K).
    exists w'. split; [exact Hrun|]. split; [|exact S].
    repeat split; try assumption; symmetry; assumption.
Qed.

(** One iteration of the user loop, in a world whose server rejects
    nothing: whether the batch is sent or kept, the session tables with the
    pending rows are those of before with the new entry. *)
Lemma merge_users_loop_step (bs : Z) (row : LegacyUser)
    (rows : list LegacyUser) (summary : MergeSectionResult)
    (existing_ids : gset Z) (payload : list TargetUser) (w : World)
    (entry : TargetUser) (n : nat) :
  never_faults w ->
  _adapt_user_row row w = (Ok entry, set_clock_reads n w) ->
  exists payload' w',
    merge_users_loop bs (row :: rows) summary existing_ids payload w
    = (let counted :=
         if decide (lu_id row ∈ existing_ids)
         then (incr_updated (incr_processed summary), existing_ids)
         else (incr_inserted (incr_processed summary),
               {[lu_id row]} ∪ existing_ids) in
       merge_users_loop bs rows counted.1 counted.2 payload' w')
    /\ same_run_state (set_clock_reads n w) w'
    /\ pending_users payload' (session (target w'))
       = pending_users (payload ++ [entry]) (session (target w)).
Proof.
  intros Hw Hadapt.
  assert (Hw' : never_faults (set_clock_reads n w)) by exact Hw.
  cbn [merge_users_loop]. unfold bind at 1. rewrite Hadapt.
  destruct (Z.of_nat (length (payload ++ [entry])) >=? bs) eqn:Hfull.
  - destruct (upsert_users_never_faults (payload ++ [entry])
                (set_clock_reads n w) Hw') as (w' & Hrun & Hsame & Hs).
    exists [], w'. split; [|split; [exact Hsame|]].
    + destruct (decide (lu_id row ∈ existing_ids));
        unfold bind; rewrite Hrun; reflexivity.
    + rewrite pending_users_nil. exact Hs.
  - exists (payload ++ [entry]), (set_clock_reads n w).
    split; [|split; [|reflexivity]].
    + destruct (decide (lu_id row ∈ existing_ids)); reflexivity.
    + repeat split; try reflexivity; exact Hw.
Qed.

Lemma merge_users_loop_batch (bs1 bs2 : Z) (rows : list LegacyUser) :
  forall summary existing_ids payload1 payload2 w1 w2,
    same_run_state w1 w2 ->
    pending_users payload1 (session (target w1))
    = pending_users payload2 (session (target w2)) ->
    exists summary' payload1' payload2' w1' w2',
      merge_users_loop bs1 rows summary existing_ids payload1 w1
      = (Ok (summary', payload1'), w1')
      /\ merge_users_loop bs2 rows summary existing_ids payload2 w2
         = (Ok (summary', payload2'), w2')
      /\ same_run_state w1' w2'
      /\ pending_users payload1' (session (target w1'))
         = pending_users payload2' (session (target w2')).
Proof.
  induction rows as [|row rows IH];
    intros summary existing_ids payload1 payload2 w1 w2 Hsame Hpend.
  - exists summary, payload1, payload2, w1, w2.
    repeat split; try reflexivity; try assumption; apply Hsame.
  - destruct (adapt_user_row_same row w1 w2 Hsame)
      as (entry & n & Had1 & Had2).
    destruct (merge_users_loop_step bs1 row rows summary existing_ids
                payload1 w1 entry n (proj1 Hsame) Had1)
      as (p1 & v1 & -> & Hs1 & Hp1).
    destruct (merge_users_loop_step bs2 row rows summary existing_ids
                payload2 w2 entry n (proj1 (proj2 Hsame)) Had2)
      as (p2 & v2 & -> & Hs2 & Hp2).
    cbv zeta. apply IH.
    + apply same_run_state_trans with (set_clock_reads n w2);
        [|exact Hs2].
      apply same_run_state_trans with (set_clock_reads n w1);
        [apply same_run_state_sym; exact Hs1|].
      apply same_run_state_clock. exact Hsame.
    + rewrite Hp1, Hp2. apply pending_users_snoc. exact Hpend.
Qed.

Lemma respects_merge_users (source_conn : SourceConn) (bs1 bs2 : Z) :
  respects (merge_users source_conn bs1) (merge_users source_conn bs2).
Proof.
  unfold merge_users.
  apply respects_bind; [apply respects_collect_user_ids|intros ids].
  apply respects_bind; [apply respects_source_execute|intros rows].
  intros w1 w2 (Hsame & Hs).
  destruct (merge_users_loop_batch bs1 bs2 rows MergeSectionResult0 ids
              [] [] w1 w2 Hsame)
    as (summary & p1 & p2 & v1 & v2 & E1 & E2 & Hsame' & Hpend).
  { rewrite !pending_users_nil. exact Hs. }
  destruct (upsert_users_never_faults p1 v1 (proj1 Hsame'))
    as (u1 & F1 & G1 & S1).
  destruct (upsert_users_never_faults p2 v2 (proj1 (proj2 Hsame')))
    as (u2 & F2 & G2 & S2).
  assert (Hag : agree u1 u2).
  { split; [|rewrite S1, S2; exact Hpend].
    apply same_run_state_trans with v2; [|exact G2].
    apply same_run_state_trans with v1; [|exact Hsame'].
    apply same_run_state_sym. exact G1. }
  assert (Hrest : respects (_sync_sequence;;; ret summary)
                           (_sync_sequence;;; ret summary)).
  { apply respects_bind; [apply respects_sync_sequence|intros _].
    apply respects_ret. }
  specialize (Hrest u1 u2 Hag).
  match goal with
  | |- fst (?m1 w1) = fst (?m2 w2) /\ _ =>
      assert (R1 : m1 w1 = (_sync_sequence;;; ret summary) u1)
        by (unfold bind at 1; rewrite E1; unfold bind at 1; rewrite F1;
            reflexivity);
      assert (R2 : m2 w2 = (_sync_sequence;;; ret summary) u2)
        by (unfold bind at 1; rewrite E2; unfold bind at 1; rewrite F2;
            reflexivity)
  end.
  rewrite R1, R2. exact Hrest.
Qed.

(** A skipped image row: the same warning in both runs. *)
Lemma merge_images_step_skipped_same (bs1 bs2 : Z) (known : gset Z)
    (row : LegacyImage) (st1 st2 : ImageLoop) (w1 w2 : World) :
  image_accepted known row = None ->
  exists reason,
    merge_images_step bs1 known row st1 w1
    = (Ok (mkImageLoop (incr_skipped (incr_processed (il_summary st1)))
                       (il_existing_uuids st1) (il_payload st1)),
       set_warnings (warnings w1 ++ [reason]) w1)
    /\ merge_images_step bs2 known row st2 w2
       = (Ok (mkImageLoop (incr_skipped (incr_processed (il_summary st2)))
                          (il_existing_uuids st2) (il_payload st2)),
          set_warnings (warnings w2 ++ [reason]) w2).
Proof.
  unfold image_accepted, merge_images_step.
  destruct (li_uploaded_by row) as [u|];
    [|eexists; split; reflexivity].
  destruct (decide (u ∉ known)) as [Hnk|Hk].
  - intros _. eexists; split; reflexivity.
  - apply dec_stable in Hk. rewrite decide_True by exact Hk.
    destruct (derive_aspect_id (li_kind row)); [discriminate|].
    intros _. eexists; split; reflexivity.
Qed.

(** An accepted image row, in a world whose server rejects nothing. *)
Lemma merge_images_step_sent (bs : Z) (known : gset Z) (row : LegacyImage)
    (st : ImageLoop) (w : World) (u : Z) (a : string) (entry : TargetImage)
    (n : nat) :
  never_faults w ->
  image_accepted known row = Some (u, a) ->
  _adapt_image_row row u a w = (Ok entry, set_clock_reads n w) ->
  exists payload' w',
    merge_images_step bs known row st w
    = (let counted :=
         if decide (li_uuid row ∈ il_existing_uuids st)
         then (incr_updated (incr_processed (il_summary st)),
               il_existing_uuids st)
         else (incr_inserted (incr_processed (il_summary st)),
               {[li_uuid row]} ∪ il_existing_uuids st) in
       (Ok (mkImageLoop counted.1 counted.2 payload'), w'))
    /\ same_run_state (set_clock_reads n w) w'
    /\ pending_images payload' (session (target w'))
       = pending_images (il_payload st ++ [entry]) (session (target w)).
Proof.
  intros Hw Hacc Hadapt.
  assert (Hw' : never_faults (set_clock_reads n w)) by exact Hw.
  apply image_accepted_Some in Hacc. destruct Hacc as (Hu & Hk & Hd).
  unfold merge_images_step. rewrite Hu.
  rewrite decide_False by (intros Hn; apply Hn; exact Hk).
  rewrite Hd. unfold bind at 1. rewrite Hadapt.
  destruct (Z.of_nat (length (il_payload st ++ [entry])) >=? bs) eqn:Hfull.
  - destruct (upsert_images_never_faults (il_payload st ++ [entry])
                (set_clock_reads n w) Hw') as (w' & Hrun & Hsame & Hs).
    exists [], w'. split; [|split; [exact Hsame|]].
    + destruct (decide (li_uuid row ∈ il_existing_uuids st));
        unfold bind; rewrite Hrun; reflexivity.
    + rewrite pending_images_nil. exact Hs.
  - exists (il_payload st ++ [entry]), (set_clock_reads n w).
    split; [|split; [|reflexivity]].
    + destruct (decide (li_uuid row ∈ il_existing_uuids st)); reflexivity.
    + repeat split; try reflexivity; exact Hw.
Qed.

Lemma merge_images_loop_batch (bs1 bs2 : Z) (known : gset Z)
    (rows : list LegacyImage) :
  forall summary existing_uuids payload1 payload2 w1 w2,
    same_run_state w1 w2 ->
    pending_images payload1 (session (target w1))
    = pending_images payload2 (session (target w2)) ->
    exists summary' existing_uuids' payload1' payload2' w1' w2',
      merge_images_loop bs1 known rows
        (mkImageLoop summary existing_uuids payload1) w1
      = (Ok (mkImageLoop summary' existing_uuids' payload1'), w1')
      /\ merge_images_loop bs2 known rows
           (mkImageLoop summary existing_uuids payload2) w2
         = (Ok (mkImageLoop summary' existing_uuids' payload2'), w2')
      /\ same_run_state w1' w2'
      /\ pending_images payload1' (session (target w1'))
         = pending_images payload2' (session (target w2')).
Proof.
  induction rows as [|row rows IH];
    intros summary existing_uuids payload1 payload2 w1 w2 Hsame Hpend.
  - exists summary, existing_uuids, payload1, payload2, w1, w2.
    repeat split; try reflexivity; try assumption; apply Hsame.
  - cbn [merge_images_loop].
    destruct (image_accepted known row) as [[u a]|] eqn:Hacc.
    + destruct (adapt_image_row_same row u a w1 w2 Hsame)
        as (entry & n & Had1 & Had2).
      destruct (merge_images_step_sent bs1 known row
                  (mkImageLoop summary existing_uuids payload1) w1 u a
                  entry n (proj1 Hsame) Hacc Had1)
        as (p1 & v1 & E1 & Hs1 & Hp1).
      destruct (merge_images_step_sent bs2 known row
                  (mkImageLoop summary existing_uuids payload2) w2 u a
                  entry n (proj1 (proj2 Hsame)) Hacc Had2)
        as (p2 & v2 & E2 & Hs2 & Hp2).
      unfold bind at 1 2. rewrite E1, E2. cbv zeta.
      cbn [il_summary il_existing_uuids il_payload] in *.
      apply IH.
      * apply same_run_state_trans with (set_clock_reads n w2);
          [|exact Hs2].
        apply same_run_state_trans with (set_clock_reads n w1);
          [apply same_run_state_sym; exact Hs1|].
        apply same_run_state_clock. exact Hsame.
      * rewrite Hp1, Hp2. apply pending_images_snoc. exact Hpend.
    + destruct (merge_images_step_skipped_same bs1 bs2 known row
                  (mkImageLoop summary existing_uuids payload1)
                  (mkImageLoop summary existing_uuids payload2) w1 w2 Hacc)
        as (reason & E1 & E2).
      unfold bind at 1 2. rewrite E1, E2.
      cbn [il_summary il_existing_uuids il_payload].
      apply IH.
      * apply same_run_state_warning. exact Hsame.
      * exact Hpend.
Qed.

Lemma respects_merge_images (source_conn : SourceConn) (bs1 bs2 : Z) :
  respects (merge_images source_conn bs1) (merge_images source_conn bs2).
Proof.
  unfold merge_images.
  apply respects_bind; [apply respects_ensure_required_aspects|intros _].
  apply respects_bind; [apply respects_collect_image_uuids|intros uuids].
  apply respects_bind; [apply respects_collect_user_ids|intros ids].
  apply respects_bind; [apply respects_source_execute|intros rows].
  intros w1 w2 (Hsame & Hs).
  destruct (merge_images_loop_batch bs1 bs2 ids rows MergeSectionResult0
              uuids [] [] w1 w2 Hsame)
    as (summary & uuids' & p1 & p2 & v1 & v2 & E1 & E2 & Hsame' & Hpend).
  { rewrite !pending_images_nil. exact Hs. }
  destruct (upsert_images_never_faults p1 v1 (proj1 Hsame'))
    as (u1 & F1 & G1 & S1).
  destruct (upsert_images_never_faults p2 v2 (proj1 (proj2 Hsame')))
    as (u2 & F2 & G2 & S2).
  assert (Hag : agree u1 u2).
  { split; [|rewrite S1, S2; exact Hpend].
    apply same_run_state_trans with v2; [|exact G2].
    apply same_run_state_trans with v1; [|exact Hsame'].
    apply same_run_state_sym. exact G1. }
  match goal with
  | |- fst (?m1 w1) = fst (?m2 w2) /\ _ =>
      assert (R1 : m1 w1 = (Ok summary, u1))
        by (unfold bind at 1; rewrite E1; unfold bind at 1;
            cbn [il_payload il_summary]; rewrite F1; reflexivity);
      assert (R2 : m2 w2 = (Ok summary, u2))
        by (unfold bind at 1; rewrite E2; unfold bind at 1;
            cbn [il_payload il_summary]; rewrite F2; reflexivity)
  end.
  rewrite R1, R2. split; [reflexivity|exact Hag].
Qed.

Lemma respects_merge_steps (config config' : MergeConfig)
    (source_conn : SourceConn) :
  respects (merge_steps config source_conn) (merge_steps config' source_conn).
Proof.
  unfold merge_steps.
  apply respects_bind; [apply respects_merge_users|intros su].
  apply respects_bind; [apply respects_merge_images|intros si].
  apply respects_ret.
Qed.

Lemma agree_opened (w : World) :
  never_faults w ->
  agree (snd (open_transactions w)) (snd (open_transactions w)).
Proof.
  intros Hw.
  assert (Hw' : never_faults (snd (open_transactions w))).
  { intros n s t. exact (Hw n s t). }
  repeat split; try reflexivity; exact Hw'.
Qed.

(** X13. On a server that rejects no statement, [batch_size] changes how
    the rows are grouped into statements and nothing else: two runs from
    the same state that differ in [batch_size] only return the same
    counters or raise the same exception, and leave the same committed
    tables, the same sequence, the same warnings and the same transaction
    events. *)
Theorem run_merge_batch_size_irrelevant :
  forall (config config' : MergeConfig) (source_conn : SourceConn)
         (w : World),
    never_faults w ->
    dry_run config = dry_run config' ->
    let out := run_merge config source_conn w in
    let out' := run_merge config' source_conn w in
    fst out = fst out'
    /\ committed (target (snd out)) = committed (target (snd out'))
    /\ session (target (snd out)) = session (target (snd out'))
    /\ tbl_user_id_seq (target (snd out))
       = tbl_user_id_seq (target (snd out'))
    /\ warnings (snd out) = warnings (snd out')
    /\ tx_events (snd out) = tx_events (snd out').
Proof.
  intros config config' source_conn w Hw Hdry out out'. subst out out'.
  rewrite !run_merge_unfold. cbv zeta. rewrite <- Hdry.
  destruct (respects_merge_steps config config' source_conn
              (snd (open_transactions w)) (snd (open_transactions w))
              (agree_opened w Hw))
    as (Hv & (_ & _ & _ & _ & Hwarn & Hev & Hc & Hq) & Hs).
  rewrite <- Hv.
  destruct (fst (merge_steps config source_conn (snd (open_transactions w))))
    as [summaries|e]; [destruct (dry_run config)|];
    cbn [fst snd tx_events set_tx_events target committed session
         tbl_user_id_seq discard_session set_target warnings];
    rewrite Hev, ?Hs, ?Hc, ?Hq, ?Hwarn; repeat split; reflexivity.
Qed.

Lemma sample_never_faults : never_faults Sample.w0.
Proof. intros n s t. reflexivity. Defined.

(** X13 on the sample data: batches of 500 rows and of one row. *)
Lemma run_merge_batch_size_irrelevant_sample :
  fst (run_merge (Sample.config false) Sample.source_conn Sample.w0)
  = fst (run_merge
           {| source_url := "mysql://legacy";
              target_url := "postgresql://target";
              batch_size := 1; dry_run := false |}
           Sample.source_conn Sample.w0).
Proof.
  exact (proj1 (run_merge_batch_size_irrelevant (Sample.config false)
                  {| source_url := "mysql://legacy";
                     target_url := "postgresql://target";
                     batch_size := 1; dry_run := false |}
                  Sample.source_conn Sample.w0
                  sample_never_faults eq_refl)).
Defined.

(* ===================================================================== *)
(** ** The timestamps sent to the target                                 *)
(* ===================================================================== *)

#[local] Instance sends_naive_preorder : PreOrder sends_naive.
Proof.
  split.
  - intros w. exists []. rewrite app_nil_r. split; [reflexivity|constructor].
  - intros w1 w2 w3 (n1 & S1 & F1) (n2 & S2 & F2).
    exists (n1 ++ n2). rewrite S2, S1, app_assoc.
    split; [reflexivity|]. apply Forall_app. split; assumption.
Qed.

Lemma sends_naive_execute (s : Stmt) :
  stmt_naive s -> stable sends_naive (execute s).
Proof.
  intros Hs w. unfold execute.
  destruct (db_fault w _ s _); [|destruct (apply_stmt s _ _)];
    exists [s]; (split; [reflexivity|]); constructor;
    solve [exact Hs | constructor].
Qed.

Lemma sends_naive_read (s : Stmt) {A : Type} (f : Tables -> A) :
  stmt_naive s ->
  stable sends_naive (execute s;;; let* t := get_session in ret (f t)).
Proof.
  intros Hs.
  apply stable_bind; [apply sends_naive_preorder| |intros _].
  { apply sends_naive_execute. exact Hs. }
  apply stable_bind; [apply sends_naive_preorder| |intros t].
  { apply stable_get_session. apply sends_naive_preorder. }
  apply stable_ret. apply sends_naive_preorder.
Qed.

(** [_ensure_datetime] never returns an aware value. *)
Lemma ensure_datetime_naive (value : option datetime) (w : World) :
  exists v n,
    _ensure_datetime value w = (Ok v, set_clock_reads n w)
    /\ dt_tzinfo v = None.
Proof.
  unfold _ensure_datetime.
  destruct value as [v|]; [destruct (dt_tzinfo v) eqn:E|].
  - exists (replace_tzinfo_None (astimezone_utc v z)), (clock_reads w).
    split; [destruct w; reflexivity|reflexivity].
  - exists v, (clock_reads w). split; [destruct w; reflexivity|exact E].
  - exists {| dt_wall := utc_clock w (clock_reads w); dt_tzinfo := None |},
      (S (clock_reads w)).
    split; reflexivity.
Qed.

Lemma adapt_user_row_naive (row : LegacyUser) (w : World) :
  exists entry n,
    _adapt_user_row row w = (Ok entry, set_clock_reads n w)
    /\ dt_tzinfo (u_created_at entry) = None
    /\ dt_tzinfo (u_updated_at entry) = None.
Proof.
  destruct (ensure_datetime_naive (lu_created_at row) w)
    as (v & n & Hrun & Hv).
  unfold _adapt_user_row, bind. rewrite Hrun.
  eexists _, _. split; [reflexivity|]. split; [exact Hv|reflexivity].
Qed.

Lemma adapt_image_row_naive (row : LegacyImage) (u : Z) (a : string)
    (w : World) :
  exists entry n,
    _adapt_image_row row u a w = (Ok entry, set_clock_reads n w)
    /\ dt_tzinfo (i_created_at entry) = None
    /\ dt_tzinfo (i_updated_at entry) = None.
Proof.
  destruct (ensure_datetime_naive (li_uploaded_at row) w)
    as (v & n & Hrun & Hv).
  unfold _adapt_image_row, bind. rewrite Hrun.
  eexists _, _. split; [reflexivity|]. split; [exact Hv|reflexivity].
Qed.

Lemma sends_naive_upsert_users (payload : list TargetUser) :
  stmt_naive (UpsertUsers payload) ->
  stable sends_naive (_upsert_users payload).
Proof.
  intros Hp. destruct payload as [|e es].
  - apply stable_ret. apply sends_naive_preorder.
  - apply sends_naive_execute. exact Hp.
Qed.

Lemma sends_naive_upsert_images (payload : list TargetImage) :
  stmt_naive (UpsertImages payload) ->
  stable sends_naive (_upsert_images payload).
Proof.
  intros Hp. destruct payload as [|e es].
  - apply stable_ret. apply sends_naive_preorder.
  - apply sends_naive_execute. exact Hp.
Qed.

Lemma merge_users_loop_cons_at (bs : Z) (row : LegacyUser)
    (rows : list LegacyUser) (summary : MergeSectionResult)
    (existing_ids : gset Z) (payload : list TargetUser) (w : World)
    (entry : TargetUser) (n : nat) :
  _adapt_user_row row w = (Ok entry, set_clock_reads n w) ->
  merge_users_loop bs (row :: rows) summary existing_ids payload w
  = let counted :=
      if decide (lu_id row ∈ existing_ids)
      then (incr_updated (incr_processed summary), existing_ids)
      else (incr_inserted (incr_processed summary),
            {[lu_id row]} ∪ existing_ids) in
    if Z.of_nat (length (payload ++ [entry])) >=? bs
    then
      match execute (UpsertUsers (payload ++ [entry]))
                    (set_clock_reads n w) with
      | (Ok _, w2) => merge_users_loop bs rows counted.1 counted.2 [] w2
      | (Raise e, w2) => (Raise e, w2)
      end
    else merge_users_loop bs rows counted.1 counted.2
           (payload ++ [entry]) (set_clock_reads n w).
Proof.
  intros Hrun.
  cbn [merge_users_loop]. unfold bind at 1. rewrite Hrun.
  assert (Hups : _upsert_users (payload ++ [entry])
                 = execute (UpsertUsers (payload ++ [entry])))
    by (destruct payload; reflexivity).
  destruct (decide (lu_id row ∈ existing_ids));
    (destruct (Z.of_nat (length (payload ++ [entry])) >=? bs);
     [ rewrite Hups; unfold bind;
       destruct (execute (UpsertUsers (payload ++ [entry]))
                   (set_clock_reads n w)) as [[u0|err] w2]; reflexivity
     | reflexivity ]).
Qed.

Lemma merge_images_step_accepted_at (bs : Z) (known : gset Z)
    (row : LegacyImage) (st : ImageLoop) (w : World) (u : Z) (a : string)
    (entry : TargetImage) (n : nat) :
  image_accepted known row = Some (u, a) ->
  _adapt_image_row row u a w = (Ok entry, set_clock_reads n w) ->
  merge_images_step bs known row st w
  = let counted :=
      if decide (li_uuid row ∈ il_existing_uuids st)
      then (incr_updated (incr_processed (il_summary st)),
            il_existing_uuids st)
      else (incr_inserted (incr_processed (il_summary st)),
            {[li_uuid row]} ∪ il_existing_uuids st) in
    if Z.of_nat (length (il_payload st ++ [entry])) >=? bs
    then
      match execute (UpsertImages (il_payload st ++ [entry]))
                    (set_clock_reads n w) with
      | (Ok _, w2) => (Ok (mkImageLoop counted.1 counted.2 []), w2)
      | (Raise e, w2) => (Raise e, w2)
      end
    else (Ok (mkImageLoop counted.1 counted.2 (il_payload st ++ [entry])),
          set_clock_reads n w).
Proof.
  intros Hacc Hrun. apply image_accepted_Some in Hacc.
  destruct Hacc as (Hu & Hk & Hd).
  unfold merge_images_step. rewrite Hu.
  rewrite decide_False by (intros Hn; apply Hn; exact Hk).
  rewrite Hd. unfold bind at 1. rewrite Hrun.
  destruct (decide (li_uuid row ∈ il_existing_uuids st));
    (destruct (Z.of_nat (length (il_payload st ++ [entry])) >=? bs);
     [ rewrite upsert_images_snoc; unfold bind;
       destruct (execute (UpsertImages (il_payload st ++ [entry]))
                   (set_clock_reads n w)) as [[u0|err] w2]; reflexivity
     | reflexivity ]).
Qed.

Lemma sends_naive_users_loop (bs : Z) (rows : list LegacyUser) :
  forall summary existing_ids payload w,
    stmt_naive (UpsertUsers payload) ->
    sends_naive w
      (snd (merge_users_loop bs rows summary existing_ids payload w))
    /\ (forall summary' payload',
          fst (merge_users_loop bs rows summary existing_ids payload w)
          = Ok (summary', payload') ->
          stmt_naive (UpsertUsers payload')).
Proof.
  induction rows as [|row rows IH];
    intros summary existing_ids payload w Hp.
  - simpl. split.
    + apply (reflexivity (R := sends_naive)).
    + intros s' p' E. inversion E; subst. exact Hp.
  - destruct (adapt_user_row_naive row w) as (entry & n & Hrun & Hc & Hu).
    assert (Hp' : stmt_naive (UpsertUsers (payload ++ [entry]))).
    { simpl. apply Forall_app. split; [exact Hp|].
      constructor; [split; assumption|constructor]. }
    rewrite (merge_users_loop_cons_at bs row rows summary existing_ids
               payload w entry n Hrun).
    cbv zeta.
    destruct (if decide (lu_id row ∈ existing_ids)
              then (incr_updated (incr_processed summary), existing_ids)
              else (incr_inserted (incr_processed summary),
                    {[lu_id row]} ∪ existing_ids)) as [summary1 existing1].
    cbn [fst snd].
    destruct (Z.of_nat (length (payload ++ [entry])) >=? bs).
    + pose proof (sends_naive_execute (UpsertUsers (payload ++ [entry])) Hp'
                    (set_clock_reads n w)) as Hw.
      destruct (execute (UpsertUsers (payload ++ [entry]))
                  (set_clock_reads n w)) as [[u|e] w2]; simpl in Hw.
      * destruct (IH summary1 existing1 [] w2) as (Hw' & Hq');
          [constructor|].
        split; [|exact Hq']. transitivity w2; [exact Hw|exact Hw'].
      * split; [exact Hw|]. discriminate.
    + destruct (IH summary1 existing1 (payload ++ [entry])
                  (set_clock_reads n w) Hp') as (Hw' & Hq').
      split; [exact Hw'|exact Hq'].
Qed.

Lemma sends_naive_images_loop (bs : Z) (known : gset Z)
    (rows : list LegacyImage) :
  forall st w,
    stmt_naive (UpsertImages (il_payload st)) ->
    sends_naive w (snd (merge_images_loop bs known rows st w))
    /\ (forall st', fst (merge_images_loop bs known rows st w) = Ok st' ->
          stmt_naive (UpsertImages (il_payload st'))).
Proof.
  induction rows as [|row rows IH]; intros st w Hp.
  - simpl. split.
    + apply (reflexivity (R := sends_naive)).
    + intros st' E. inversion E; subst. exact Hp.
  - cbn [merge_images_loop]. unfold bind.
    destruct (image_accepted known row) as [[u a]|] eqn:Hacc.
    + destruct (adapt_image_row_naive row u a w)
        as (entry & n & Hrun & Hc & Hu).
      assert (Hp' : stmt_naive (UpsertImages (il_payload st ++ [entry]))).
      { simpl. apply Forall_app. split; [exact Hp|].
        constructor; [split; assumption|constructor]. }
      rewrite (merge_images_step_accepted_at bs known row st w u a entry n
                 Hacc Hrun).
      cbv zeta.
      destruct (if decide (li_uuid row ∈ il_existing_uuids st)
                then (incr_updated (incr_processed (il_summary st)),
                      il_existing_uuids st)
                else (incr_inserted (incr_processed (il_summary st)),
                      {[li_uuid row]} ∪ il_existing_uuids st))
        as [summary1 existing1].
      cbn [fst snd].
      destruct (Z.of_nat (length (il_payload st ++ [entry])) >=? bs).
      * pose proof (sends_naive_execute
                      (UpsertImages (il_payload st ++ [entry])) Hp'
                      (set_clock_reads n w)) as Hw.
        destruct (execute (UpsertImages (il_payload st ++ [entry]))
                    (set_clock_reads n w)) as [[u0|e] w2]; simpl in Hw.
        -- destruct (IH (mkImageLoop summary1 existing1 []) w2)
             as (Hw' & Hq'); [constructor|].
           split; [|exact Hq']. transitivity w2; [exact Hw|exact Hw'].
        -- split; [exact Hw|]. discriminate.
      * destruct (IH (mkImageLoop summary1 existing1
                        (il_payload st ++ [entry])) (set_clock_reads n w)
                    Hp') as (Hw' & Hq').
        split; [exact Hw'|exact Hq'].
    + destruct (merge_images_step_skipped bs known row st w Hacc)
        as (reason & ->).
      destruct (IH (mkImageLoop (incr_skipped (incr_processed (il_summary st)))
                      (il_existing_uuids st) (il_payload st))
                  (set_warnings (warnings w ++ [reason]) w) Hp)
        as (Hw' & Hq').
      split; [exact Hw'|exact Hq'].
Qed.

Lemma sends_naive_merge_users (source_conn : SourceConn) (bs : Z) :
  stable sends_naive (merge_users source_conn bs).
Proof.
  intros w. unfold merge_users.
  apply bind_rel; [apply sends_naive_preorder| |intros ids w1 E1].
  { apply (sends_naive_read SelectUserIds (fun t => dom (tbl_user t)) I). }
  apply bind_rel; [apply sends_naive_preorder| |intros rows w2 E2].
  { apply stable_source_execute. apply sends_naive_preorder. }
  destruct (sends_naive_users_loop bs rows MergeSectionResult0 ids [] w2)
    as (Hw & Hp); [constructor|].
  apply bind_rel; [apply sends_naive_preorder|exact Hw|].
  intros [summary payload] w3 E3.
  apply bind_rel; [apply sends_naive_preorder| |intros u4 w4 E4].
  { apply sends_naive_upsert_users. apply (Hp summary). rewrite E3.
    reflexivity. }
  apply bind_rel; [apply sends_naive_preorder| |intros u5 w5 E5].
  { apply sends_naive_execute. exact I. }
  apply (reflexivity (R := sends_naive)).
Qed.

Lemma sends_naive_merge_images (source_conn : SourceConn) (bs : Z) :
  stable sends_naive (merge_images source_conn bs).
Proof.
  intros w. unfold merge_images.
  apply bind_rel; [apply sends_naive_preorder| |intros u1 w1 E1].
  { unfold ensure_required_aspects.
    apply stable_bind; [apply sends_naive_preorder| |intros _].
    { apply sends_naive_execute. exact I. }
    apply stable_bind; [apply sends_naive_preorder| |intros t].
    { apply stable_get_session. apply sends_naive_preorder. }
    destruct (filter _ required_aspects).
    - apply stable_ret. apply sends_naive_preorder.
    - apply sends_naive_execute. exact I. }
  apply bind_rel; [apply sends_naive_preorder| |intros uuids w2 E2].
  { apply (sends_naive_read SelectImageUuids
             (fun t => dom (tbl_image t)) I). }
  apply bind_rel; [apply sends_naive_preorder| |intros ids w3 E3].
  { apply (sends_naive_read SelectUserIds (fun t => dom (tbl_user t)) I). }
  apply bind_rel; [apply sends_naive_preorder| |intros rows w4 E4].
  { apply stable_source_execute. apply sends_naive_preorder. }
  destruct (sends_naive_images_loop bs ids rows
              (mkImageLoop MergeSectionResult0 uuids []) w4) as (Hw & Hp);
    [constructor|].
  apply bind_rel; [apply sends_naive_preorder|exact Hw|intros st w5 E5].
  apply bind_rel; [apply sends_naive_preorder| |intros u6 w6 E6].
  - apply sends_naive_upsert_images. apply Hp. rewrite E5. reflexivity.
  - apply (reflexivity (R := sends_naive)).
Qed.

(** X14. Whatever the legacy timestamps are (NULL, naive, or aware with any
    offset), every user and image row that [run_merge] sends to the target
    has a naive [created_at] and a naive [updated_at]: no [tzinfo] reaches
    the target's [timestamp] columns, whether the run returns or raises. *)
Theorem run_merge_sends_naive_timestamps :
  forall (config : MergeConfig) (source_conn : SourceConn) (w : World),
    exists new,
      sent (target (snd (run_merge config source_conn w)))
      = sent (target w) ++ new
      /\ (forall payload entry,
            UpsertUsers payload ∈ new -> entry ∈ payload ->
            dt_tzinfo (u_created_at entry) = None
            /\ dt_tzinfo (u_updated_at entry) = None)
      /\ (forall payload entry,
            UpsertImages payload ∈ new -> entry ∈ payload ->
            dt_tzinfo (i_created_at entry) = None
            /\ dt_tzinfo (i_updated_at entry) = None).
Proof.
  intros config source_conn w.
  assert (Hsteps : stable sends_naive (merge_steps config source_conn)).
  { unfold merge_steps.
    apply stable_bind; [apply sends_naive_preorder| |intros su].
    { apply sends_naive_merge_users. }
    apply stable_bind; [apply sends_naive_preorder| |intros si].
    { apply sends_naive_merge_images. }
    apply stable_ret. apply sends_naive_preorder. }
  destruct (Hsteps (snd (open_transactions w))) as (new & Hsent & Hnew).
  assert (Hopen : sent (target (snd (open_transactions w)))
                  = sent (target w)) by reflexivity.
  exists new. rewrite Forall_forall in Hnew. split; [|split].
  - rewrite run_merge_unfold. cbv zeta. rewrite <- Hopen, <- Hsent.
    destruct (fst (merge_steps config source_conn _)); [|reflexivity].
    destruct (dry_run config); reflexivity.
  - intros payload entry Hs He. specialize (Hnew _ Hs). simpl in Hnew.
    rewrite Forall_forall in Hnew. apply Hnew. exact He.
  - intros payload entry Hs He. specialize (Hnew _ Hs). simpl in Hnew.
    rewrite Forall_forall in Hnew. apply Hnew. exact He.
Qed.
